(** * terminalnode: a shallow embedding of the canvas engine

    The development follows the Go sources file by file:
    - [node.go]        node sizing ([wrapText], [calculateNodeSize]) and [NewNode];
    - [camera.go]      the world/screen transform, the camera interpolation and
                       [IsVisible];
    - the model file   the document ([Model]), the layout operations
                       ([AddChildNode], [AddSiblingNode], [DeleteNode], [AddEdge])
                       and [GetNodeAt];
    - [persistence.go] [LoadFromFile];
    - [update.go]      the selection commands ([selectNodeInDirection],
                       [selectNextNode], [selectPrevNode]), the key handlers of
                       the edit mode and of the link mode, [trimString] and
                       [ellipsis];
    - [renderer.go]    the edge rasterizer ([drawLine], [drawLineSegment]).

    Conventions of the embedding.
    - A Go [string] is a sequence of bytes: Rocq's [string]; [len] counts bytes.
    - A Go [int] is a [Z]. The two counters that the program increments
      ([NextID], [NextColorIndex]) wrap around at 64 bits ([int_wrap]); lengths
      of strings and slices never leave the 64-bit range.
    - A [float64] is an exact rational ([Q]): the arithmetic of the model is
      the arithmetic of the reals restricted to the rationals. Rounding error,
      overflow to infinity and NaN are outside the model. [math.Sqrt] is a
      parameter of the renderer.
    - [map[string]*Node] is a [gmap string Node]. The order in which a
      [range] loop visits a map is chosen by the Go runtime; every function
      with such a loop, when its result can depend on the order, takes the
      order as an argument [ord] (a list of keys), and the theorems quantify
      over every order that enumerates the keys of the map ([iteration_order]).
    - A run-time panic (index out of range, division by zero) is [None].
    - A document whose node map is nil or holds a nil node (it can only come
      from a file, see [DecodedNil]) is outside [Model]; a run ends ([None])
      at the load that would produce it. *)

From Stdlib Require Import QArith Qround Qabs Qpower ZArith Lia Lqa.
From Stdlib Require Import Ascii String.
From stdpp Require Import gmap strings list fin_maps pretty.

Open Scope Z_scope.

(** ** Go integers and floats *)

Abbreviation float64 := Q.

Definition int_wrap (n : Z) : Z := (n + 2 ^ 63) mod 2 ^ 64 - 2 ^ 63.

(** [x < y] on floats. *)
Definition Qltb (x y : float64) : bool :=
  if Qlt_le_dec x y then true else false.

(** [len(s)] of a Go string. *)
Definition len (s : string) : Z := Z.of_nat (String.length s).

(** [s[:n]] and [s[n:]] for [0 <= n <= len(s)]. *)
Definition str_take (n : Z) (s : string) : string :=
  String.substring 0 (Z.to_nat n) s.
Definition str_drop (n : Z) (s : string) : string :=
  String.substring (Z.to_nat n) (String.length s - Z.to_nat n) s.

(** ** strings.Split(text, "\n") and strings.Fields *)

Module GoStrings.

(** [strings.Split(s, "\n")]: the pieces between line feeds; never empty. *)
Fixpoint Split_newline (s : string) : list string :=
  match s with
  | EmptyString => [EmptyString]
  | String c s' =>
      if (Ascii.N_of_ascii c =? 10)%N then EmptyString :: Split_newline s'
      else match Split_newline s' with
           | [] => [String c EmptyString]
           | l :: ls => String c l :: ls
           end
  end.

Definition byte_at (s : string) (i : nat) : N :=
  match String.get i s with
  | Some c => Ascii.N_of_ascii c
  | None => 256%N
  end.

(** Width in bytes of the white-space rune that starts [s], 0 when [s] does
    not start with one. [unicode.IsSpace] holds of U+0009..U+000D, U+0020,
    U+0085, U+00A0, U+1680, U+2000..U+200A, U+2028, U+2029, U+202F, U+205F and
    U+3000; the table lists their UTF-8 encodings. A lead byte of UTF-8 is
    never a continuation byte, so scanning byte by byte finds exactly the
    runes that Go's decoder finds. *)
Definition space_width (s : string) : nat :=
  let b0 := byte_at s 0 in
  let b1 := byte_at s 1 in
  let b2 := byte_at s 2 in
  if ((9 <=? b0) && (b0 <=? 13) || (b0 =? 32))%N then 1%nat
  else if ((b0 =? 194) && ((b1 =? 133) || (b1 =? 160)))%N then 2%nat
  else if ((b0 =? 225) && (b1 =? 154) && (b2 =? 128)
           || (b0 =? 226) && (b1 =? 128)
              && ((128 <=? b2) && (b2 <=? 138)
                  || (b2 =? 168) || (b2 =? 169) || (b2 =? 175))
           || (b0 =? 226) && (b1 =? 129) && (b2 =? 159)
           || (b0 =? 227) && (b1 =? 128) && (b2 =? 128))%N then 3%nat
  else 0%nat.

Definition flush (cur : list ascii) (acc : list string) : list string :=
  match cur with
  | [] => acc
  | _ => acc ++ [string_of_list_ascii (rev cur)]
  end.

(** The scanner of [strings.FieldsFunc(s, unicode.IsSpace)]: [skip] bytes of
    the current white-space rune are still to be passed, [cur] is the field
    being read (reversed), [acc] the fields found so far. *)
Fixpoint Fields_go (s : string) (skip : nat) (cur : list ascii)
    (acc : list string) : list string :=
  match s with
  | EmptyString => flush cur acc
  | String c s' =>
      match skip with
      | S k => Fields_go s' k cur acc
      | O =>
          match space_width s with
          | O => Fields_go s' O (c :: cur) acc
          | S k => Fields_go s' k [] (flush cur acc)
          end
      end
  end.

Definition Fields (s : string) : list string := Fields_go s 0 [] [].

End GoStrings.

(** ** node.go *)

Record Node := mkNode {
  ID : string;
  Text : string;
  X : float64;
  Y : float64;
  Width : Z;
  Height : Z;
  ParentID : string;
  Color : string;
  Links : list string
}.

Definition Node_with_Y (y : float64) (n : Node) : Node :=
  mkNode (ID n) (Text n) (X n) y (Width n) (Height n) (ParentID n) (Color n) (Links n).
Definition Node_with_ParentID (p : string) (n : Node) : Node :=
  mkNode (ID n) (Text n) (X n) (Y n) (Width n) (Height n) p (Color n) (Links n).
Definition Node_with_Color (c : string) (n : Node) : Node :=
  mkNode (ID n) (Text n) (X n) (Y n) (Width n) (Height n) (ParentID n) c (Links n).
Definition Node_with_Links (l : list string) (n : Node) : Node :=
  mkNode (ID n) (Text n) (X n) (Y n) (Width n) (Height n) (ParentID n) (Color n) l.
Definition Node_with_Text (t : string) (n : Node) : Node :=
  mkNode (ID n) t (X n) (Y n) (Width n) (Height n) (ParentID n) (Color n) (Links n).
Definition Node_with_size (wh : Z * Z) (n : Node) : Node :=
  mkNode (ID n) (Text n) (X n) (Y n) (fst wh) (snd wh) (ParentID n) (Color n) (Links n).

Record Edge := mkEdge { FromID : string; ToID : string }.

Global Instance Edge_eq_dec : EqDecision Edge.
Proof. solve_decision. Defined.

(** The loop [for len(word) > maxWidth] of [wrapText]: cut chunks of
    [maxWidth] bytes off the front of [word]. Every turn shortens [word], so
    [String.length word] turns are enough. *)
Fixpoint breakLongWord (fuel : nat) (maxWidth : Z) (word : string)
    (wrappedLines : list string) : list string * string :=
  match fuel with
  | O => (wrappedLines, word)
  | S fuel' =>
      if maxWidth <? len word
      then breakLongWord fuel' maxWidth (str_drop maxWidth word)
             (wrappedLines ++ [str_take maxWidth word])
      else (wrappedLines, word)
  end.

(** One turn of the loop over the words of a paragraph. *)
Definition wrapWord (maxWidth : Z) (st : list string * string) (word : string)
    : list string * string :=
  let '(wrappedLines, currentLine) := st in
  if (0 <? len currentLine) && (maxWidth <? len currentLine + 1 + len word) then
    if maxWidth <? len word then
      let '(wrappedLines, currentLine) :=
        if 0 <? len currentLine
        then (wrappedLines ++ [currentLine], EmptyString)
        else (wrappedLines, currentLine) in
      breakLongWord (String.length word) maxWidth word wrappedLines
    else (wrappedLines ++ [currentLine], word)
  else
    if 0 <? len currentLine
    then (wrappedLines, (currentLine +:+ " " +:+ word)%string)
    else (wrappedLines, word).

(** One turn of the loop over the paragraphs. *)
Definition wrapParagraph (maxWidth : Z) (wrappedLines : list string)
    (paragraph : string) : list string :=
  if len paragraph =? 0 then wrappedLines ++ [EmptyString]
  else
    let words := GoStrings.Fields paragraph in
    if Z.of_nat (length words) =? 0 then wrappedLines ++ [EmptyString]
    else
      let '(wrappedLines, currentLine) :=
        fold_left (wrapWord maxWidth) words (wrappedLines, EmptyString) in
      if 0 <? len currentLine then wrappedLines ++ [currentLine]
      else wrappedLines.

Definition wrapText (text : string) (maxWidth : Z) : list string :=
  let maxWidth := if maxWidth <? 5 then 5 else maxWidth in
  let paragraphs := GoStrings.Split_newline text in
  let wrappedLines := fold_left (wrapParagraph maxWidth) paragraphs [] in
  if Z.of_nat (length wrappedLines) =? 0 then [EmptyString] else wrappedLines.

Definition maxTextWidth : Z := 22.

Definition calculateNodeSize (text : string) : Z * Z :=
  let lines := wrapText text maxTextWidth in
  let height := Z.of_nat (length lines) + 2 in
  let width :=
    fold_left (fun width line => if width <? len line then len line else width)
      lines 0 in
  let width := width + 4 in
  let width := if width <? 10 then 10 else width in
  (width, height).

Definition NewNode (id text : string) (x y : float64) : Node :=
  let '(width, height) := calculateNodeSize text in
  mkNode id text x y width height EmptyString EmptyString [].

Definition GetCenter (n : Node) : float64 * float64 :=
  ((X n + inject_Z (Width n) / 2)%Q, (Y n + inject_Z (Height n) / 2)%Q).

Definition UpdateSize (n : Node) : Node :=
  Node_with_size (calculateNodeSize (Text n)) n.

(** ** camera.go *)

(** [int(math.Round(x))]: the nearest integer, halves away from zero. *)
Definition math_Round (x : float64) : Z :=
  if Qlt_le_dec x 0 then Qceiling (x - (1 # 2))%Q else Qfloor (x + (1 # 2))%Q.

(** [int(x)] for a float [x]: truncation toward zero. *)
Definition int_of_float (x : float64) : Z := Z.quot (Qnum x) (Z.pos (Qden x)).

Module Camera.

Record t := mk {
  X : float64;
  Y : float64;
  Zoom : float64;
  TargetX : float64;
  TargetY : float64;
  TargetZoom : float64
}.

Definition NewCamera : t := mk 0 0 1 0 0 1.

Definition WorldToScreen (c : t) (wx wy : float64) (screenWidth screenHeight : Z)
    : Z * Z :=
  let centerX := (inject_Z screenWidth / 2)%Q in
  let centerY := (inject_Z screenHeight / 2)%Q in
  let sx := ((wx - X c) * Zoom c + centerX)%Q in
  let sy := ((wy - Y c) * Zoom c + centerY)%Q in
  (math_Round sx, math_Round sy).

Definition ScreenToWorld (c : t) (sx sy : Z) (screenWidth screenHeight : Z)
    : float64 * float64 :=
  let centerX := (inject_Z screenWidth / 2)%Q in
  let centerY := (inject_Z screenHeight / 2)%Q in
  let wx := ((inject_Z sx - centerX) / Zoom c + X c)%Q in
  let wy := ((inject_Z sy - centerY) / Zoom c + Y c)%Q in
  (wx, wy).

Definition Pan (dx dy : float64) (c : t) : t :=
  mk (X c) (Y c) (Zoom c) (TargetX c + dx)%Q (TargetY c + dy)%Q (TargetZoom c).

Definition ZoomIn (c : t) : t :=
  let tz := (TargetZoom c * (12 # 10))%Q in
  let tz := if Qlt_le_dec 4 tz then 4%Q else tz in
  mk (X c) (Y c) (Zoom c) (TargetX c) (TargetY c) tz.

Definition ZoomOut (c : t) : t :=
  let tz := (TargetZoom c * (8 # 10))%Q in
  let tz := if Qlt_le_dec tz (25 # 100) then (25 # 100)%Q else tz in
  mk (X c) (Y c) (Zoom c) (TargetX c) (TargetY c) tz.

Definition GetViewportCenter (c : t) : float64 * float64 := (X c, Y c).

Definition threshold : float64 := (1 # 1000)%Q.

(** One coordinate of [Update]: the new value and whether it still moves. *)
Definition approach (cur target smoothness : float64) : float64 * bool :=
  if Qlt_le_dec threshold (Qabs (cur - target))
  then ((cur + (target - cur) * smoothness)%Q, true)
  else (target, false).

Definition Update (smoothness : float64) (c : t) : t * bool :=
  let '(x, mx) := approach (X c) (TargetX c) smoothness in
  let '(y, my) := approach (Y c) (TargetY c) smoothness in
  let '(z, mz) := approach (Zoom c) (TargetZoom c) smoothness in
  (mk x y z (TargetX c) (TargetY c) (TargetZoom c), mx || my || mz).

(** The camera commands of [handleNormalMode] and the animation tick of
    [Update] in update.go, which calls [Camera.Update(0.25)]. *)
Inductive Op :=
  | OpPan (dx dy : float64)
  | OpZoomIn
  | OpZoomOut
  | OpTick
  | OpReset.

Definition step (o : Op) (c : t) : t :=
  match o with
  | OpPan dx dy => Pan dx dy c
  | OpZoomIn => ZoomIn c
  | OpZoomOut => ZoomOut c
  | OpTick => fst (Update (25 # 100) c)
  | OpReset => NewCamera
  end.

Definition run (ops : list Op) (c : t) : t := fold_left (fun c o => step o c) ops c.

End Camera.

(** ** The model *)

Inductive Mode := ModeNormal | ModeEdit | ModeLink.

(** The [Model] without its three lipgloss styles. The fields
    [Camera], [Mode], [Width] and [Height] are [mCamera], [mMode], [mWidth]
    and [mHeight] here: their names are taken by the camera, the type of
    modes and the fields of [Node]. *)
Record Model := mkModel {
  Nodes : gmap string Node;
  Edges : list Edge;
  mCamera : Camera.t;
  Selected : string;
  mMode : Mode;
  EditBuffer : string;
  IsCreatingNode : bool;
  IsCreatingChild : bool;
  mWidth : Z;
  mHeight : Z;
  NextID : Z;
  StatusMsg : string;
  LinkSourceID : string;
  ColorPalette : list string;
  NextColorIndex : Z
}.

Definition Model_with_Nodes (v : gmap string Node) (m : Model) : Model :=
  mkModel v (Edges m) (mCamera m) (Selected m) (mMode m) (EditBuffer m)
    (IsCreatingNode m) (IsCreatingChild m) (mWidth m) (mHeight m) (NextID m)
    (StatusMsg m) (LinkSourceID m) (ColorPalette m) (NextColorIndex m).
Definition Model_with_Edges (v : list Edge) (m : Model) : Model :=
  mkModel (Nodes m) v (mCamera m) (Selected m) (mMode m) (EditBuffer m)
    (IsCreatingNode m) (IsCreatingChild m) (mWidth m) (mHeight m) (NextID m)
    (StatusMsg m) (LinkSourceID m) (ColorPalette m) (NextColorIndex m).
Definition Model_with_Camera (v : Camera.t) (m : Model) : Model :=
  mkModel (Nodes m) (Edges m) v (Selected m) (mMode m) (EditBuffer m)
    (IsCreatingNode m) (IsCreatingChild m) (mWidth m) (mHeight m) (NextID m)
    (StatusMsg m) (LinkSourceID m) (ColorPalette m) (NextColorIndex m).
Definition Model_with_Selected (v : string) (m : Model) : Model :=
  mkModel (Nodes m) (Edges m) (mCamera m) v (mMode m) (EditBuffer m)
    (IsCreatingNode m) (IsCreatingChild m) (mWidth m) (mHeight m) (NextID m)
    (StatusMsg m) (LinkSourceID m) (ColorPalette m) (NextColorIndex m).
Definition Model_with_NextID (v : Z) (m : Model) : Model :=
  mkModel (Nodes m) (Edges m) (mCamera m) (Selected m) (mMode m) (EditBuffer m)
    (IsCreatingNode m) (IsCreatingChild m) (mWidth m) (mHeight m) v
    (StatusMsg m) (LinkSourceID m) (ColorPalette m) (NextColorIndex m).
Definition Model_with_StatusMsg (v : string) (m : Model) : Model :=
  mkModel (Nodes m) (Edges m) (mCamera m) (Selected m) (mMode m) (EditBuffer m)
    (IsCreatingNode m) (IsCreatingChild m) (mWidth m) (mHeight m) (NextID m)
    v (LinkSourceID m) (ColorPalette m) (NextColorIndex m).
Definition Model_with_NextColorIndex (v : Z) (m : Model) : Model :=
  mkModel (Nodes m) (Edges m) (mCamera m) (Selected m) (mMode m) (EditBuffer m)
    (IsCreatingNode m) (IsCreatingChild m) (mWidth m) (mHeight m) (NextID m)
    (StatusMsg m) (LinkSourceID m) (ColorPalette m) v.

Definition palette : list string :=
  ["#FF6B6B"; "#4ECDC4"; "#45B7D1"; "#FFA07A";
   "#98D8C8"; "#F7DC6F"; "#BB8FCE"; "#85C1E2"]%string.

Definition NewModel : Model :=
  mkModel {["0"%string := NewNode "0" "Root Idea" 0 0]} [] Camera.NewCamera "0"
    ModeNormal EmptyString false false 80 24 1 EmptyString EmptyString palette 0.

(** *** Ranging over the map of nodes *)

(** [ord] enumerates the keys of [nodes]: a possible order of a [range]. *)
Definition iteration_order (ord : list string) (nodes : gmap string Node) : Prop :=
  NoDup ord ∧ list_to_set ord = dom nodes.

(** The key/value pairs that [for k, v := range nodes] visits, in the order
    [ord]. *)
Definition range (ord : list string) (nodes : gmap string Node)
    : list (string * Node) :=
  omap (fun k => (fun n => (k, n)) <$> nodes !! k) ord.

Definition GetSelectedNode (m : Model) : option Node :=
  if decide (Selected m ≠ EmptyString) then Nodes m !! Selected m else None.

Definition GetChildrenOf (ord : list string) (parentID : string) (m : Model)
    : list Node :=
  filter (fun node => ParentID node = parentID) (snd <$> range ord (Nodes m)).

(** The body of [pushDownNodesBelow]'s loop; every node is visited once and
    the turns do not depend on each other. *)
Definition pushDown (thresholdY amount : float64) (node : Node) : Node :=
  if Qlt_le_dec (Y node) thresholdY then node
  else Node_with_Y (Y node + amount)%Q node.

Definition pushDownNodesBelow (thresholdY amount : float64) (m : Model) : Model :=
  Model_with_Nodes (pushDown thresholdY amount <$> Nodes m) m.

Definition AddEdge (fromID toID : string) (m : Model) : Model :=
  if existsb (fun edge => bool_decide (FromID edge = fromID ∧ ToID edge = toID))
       (Edges m)
  then Model_with_StatusMsg "Edge already exists" m
  else
    let m := Model_with_Edges (Edges m ++ [mkEdge fromID toID]) m in
    let m :=
      Model_with_Nodes
        (alter (fun node => Node_with_Links (Links node ++ [toID]) node) fromID
           (Nodes m)) m in
    Model_with_StatusMsg ("Created link " +:+ fromID +:+ " â†’ " +:+ toID) m.

(** [m.ColorPalette[m.NextColorIndex%len(m.ColorPalette)]]; [%] truncates,
    an empty palette or a negative index panics. *)
Definition paletteColor (m : Model) : option string :=
  let n := Z.of_nat (length (ColorPalette m)) in
  if n =? 0 then None
  else
    let i := Z.rem (NextColorIndex m) n in
    if i <? 0 then None else ColorPalette m !! Z.to_nat i.

(** One turn of the loop of [AddChildNode] that looks for the lowest box. *)
Definition lowerOf (acc : float64 * Z) (child : Node) : float64 * Z :=
  let '(lowestY, lowestHeight) := acc in
  let childBottom := (Y child + inject_Z (Height child))%Q in
  if Qlt_le_dec (lowestY + inject_Z lowestHeight)%Q childBottom
  then (Y child, Height child)
  else (lowestY, lowestHeight).

(** The position of a new child of [selectedNode], and the model after the
    nodes below it were pushed down. *)
Definition childPosition (ord : list string) (selectedNode : Node) (m : Model)
    : float64 * float64 * Model :=
  let spacing := 5%Q in
  let verticalSpacing := 3%Q in
  let x := (X selectedNode + inject_Z (Width selectedNode) + spacing)%Q in
  let existingChildren := GetChildrenOf ord (ID selectedNode) m in
  if 0 <? Z.of_nat (length existingChildren) then
    let '(lowestY, lowestHeight) :=
      fold_left lowerOf existingChildren (Y selectedNode, Height selectedNode) in
    let y := (lowestY + inject_Z lowestHeight + verticalSpacing)%Q in
    let newNodeHeight := 3 in
    let spaceNeeded := (inject_Z newNodeHeight + verticalSpacing)%Q in
    (x, y, pushDownNodesBelow y spaceNeeded m)
  else (x, Y selectedNode, m).

(** The colour of a new child: the next colour of the palette under the
    root, the colour of the parent elsewhere. *)
Definition colorChild (parentID : string) (node : Node) (m : Model)
    : option (Node * Model) :=
  if decide (parentID = "0"%string) then
    color ← paletteColor m;
    Some (Node_with_Color color node,
          Model_with_NextColorIndex (int_wrap (NextColorIndex m + 1)) m)
  else if decide (parentID ≠ EmptyString) then
    match Nodes m !! parentID with
    | Some parent => Some (Node_with_Color (Color parent) node, m)
    | None => Some (node, m)
    end
  else Some (node, m).

Definition AddChildNode (ord : list string) (text : string) (m : Model)
    : option Model :=
  let id := pretty (NextID m) in
  let m := Model_with_NextID (int_wrap (NextID m + 1)) m in
  let '(x, y, parentID, m) :=
    match GetSelectedNode m with
    | Some selectedNode =>
        let '(x, y, m) := childPosition ord selectedNode m in
        (x, y, ID selectedNode, m)
    | None =>
        let '(x, y) := Camera.GetViewportCenter (mCamera m) in
        (x, y, EmptyString, m)
    end in
  let node := Node_with_ParentID parentID (NewNode id text x y) in
  '(node, m) ← colorChild parentID node m;
  let m := Model_with_Nodes (<[id := node]> (Nodes m)) m in
  let m := if decide (parentID ≠ EmptyString) then AddEdge parentID id m else m in
  Some (Model_with_StatusMsg ("Created child node " +:+ id)
          (Model_with_Selected id m)).

Definition AddSiblingNode (ord : list string) (text : string) (m : Model)
    : option Model :=
  match GetSelectedNode m with
  | None => AddChildNode ord text m
  | Some selectedNode =>
      if decide (ID selectedNode = "0"%string) then AddChildNode ord text m
      else
        let id := pretty (NextID m) in
        let m := Model_with_NextID (int_wrap (NextID m + 1)) m in
        let verticalSpacing := 3%Q in
        let x := X selectedNode in
        let newNodeHeight := 3 in
        let y := (Y selectedNode + inject_Z (Height selectedNode)
                  + verticalSpacing)%Q in
        let spaceNeeded := (inject_Z newNodeHeight + verticalSpacing)%Q in
        let m := pushDownNodesBelow y spaceNeeded m in
        let node :=
          Node_with_ParentID (ParentID selectedNode) (NewNode id text x y) in
        '(node, m) ←
          (if decide (ParentID selectedNode = "0"%string) then
             color ← paletteColor m;
             Some (Node_with_Color color node,
                   Model_with_NextColorIndex (int_wrap (NextColorIndex m + 1)) m)
           else Some (Node_with_Color (Color selectedNode) node, m));
        let m := Model_with_Nodes (<[id := node]> (Nodes m)) m in
        let m :=
          if decide (ParentID selectedNode ≠ EmptyString)
          then AddEdge (ParentID selectedNode) id m else m in
        Some (Model_with_StatusMsg ("Created sibling node " +:+ id)
                (Model_with_Selected id m))
  end.

(** [ord] is the order in which the loop that looks for a new selection
    ranges over the nodes that remain. *)
Definition DeleteNode (ord : list string) (id : string) (m : Model) : Model :=
  if decide (id = "0"%string) then Model_with_StatusMsg "Cannot delete root node" m
  else
    let m := Model_with_Nodes (delete id (Nodes m)) m in
    let newEdges :=
      filter (fun edge => FromID edge ≠ id ∧ ToID edge ≠ id) (Edges m) in
    let m := Model_with_Edges newEdges m in
    let m :=
      if decide (Selected m = id) then
        match range ord (Nodes m) with
        | (nodeID, _) :: _ => Model_with_Selected nodeID m
        | [] => Model_with_Selected EmptyString m
        end
      else m in
    Model_with_StatusMsg ("Deleted node " +:+ id) m.

(** ** persistence.go *)

Record MindMapData := mkMindMapData {
  dNodes : gmap string Node;
  dEdges : list Edge;
  dCamera : Camera.t
}.

(** What [os.ReadFile] and [json.Unmarshal] hand to [LoadFromFile]: a read
    error, a decoding error, or the decoded record. The decoder fills the
    fields tagged [json:"-"] (the camera targets) with zero.

    [DecodedNil] stands for the files that the decoder accepts and that
    leave [data.Nodes] the nil map (no "nodes" member, or [null]) or a map
    with a nil [*Node] (a member that is [null]). [dNodes] cannot hold
    either, so they have a constructor of their own. *)
Inductive FileContents :=
  | ReadError
  | UnmarshalError
  | DecodedNil
  | Decoded (data : MindMapData).

(** The outcomes of [LoadFromFile] that are not a [Model]. [ErrRead] and
    [ErrUnmarshal] are the errors the Go method returns, with the receiver
    unchanged. With [NilDocument] the Go method returns [nil]: it has
    stored the nil map or the nil node in the receiver, after which
    [m.Nodes[id] = node] in [AddChildNode] and [node.X] in the renderer and
    in the selection commands panic. Such a receiver is not a [Model] of
    this development. *)
Inductive LoadError := ErrRead | ErrUnmarshal | NilDocument.

Section Persistence.

(** [fmt.Sscanf(id, "%d", &numID)]: the number read, [None] on error. *)
Variable Sscanf_d : string -> option Z.

(** [ord] is the order of the loop that selects a node when none is
    selected. The loop that computes the largest identity does not depend on
    the order of its turns. *)
Definition LoadFromFile (ord : list string) (file : FileContents) (m : Model)
    : LoadError + Model :=
  match file with
  | ReadError => inl ErrRead
  | UnmarshalError => inl ErrUnmarshal
  | DecodedNil => inl NilDocument
  | Decoded data =>
      let m := Model_with_Nodes (dNodes data) m in
      let m := Model_with_Edges (dEdges data) m in
      let c := dCamera data in
      let m :=
        Model_with_Camera
          (Camera.mk (Camera.X c) (Camera.Y c) (Camera.Zoom c)
             (Camera.X c) (Camera.Y c) (Camera.Zoom c)) m in
      let m :=
        if decide (Selected m = EmptyString ∧ 0 < Z.of_nat (size (Nodes m))) then
          match range ord (Nodes m) with
          | (id, _) :: _ => Model_with_Selected id m
          | [] => m
          end
        else m in
      let maxID :=
        map_fold
          (fun id _ maxID =>
             match Sscanf_d id with
             | Some numID => if maxID <? numID then numID else maxID
             | None => maxID
             end) 0 (Nodes m) in
      inr (Model_with_NextID (int_wrap (maxID + 1)) m)
  end.

End Persistence.

(** ** update.go: selection *)

Definition absFloat (x : float64) : float64 :=
  if Qlt_le_dec x 0 then (- x)%Q else x.

(** When [node] lies in the direction [(dx, dy)] of the point
    [(currentX, currentY)]: its score. *)
Definition directionScore (dx dy currentX currentY : float64) (node : Node)
    : option float64 :=
  let '(nodeX, nodeY) := GetCenter node in
  let relX := (nodeX - currentX)%Q in
  let relY := (nodeY - currentY)%Q in
  let inDirection :=
    if negb (Qeq_bool dx 0) then
      if Qltb 0 dx && Qltb 0 relX || Qltb dx 0 && Qltb relX 0
      then Some (absFloat relX, absFloat relY) else None
    else if negb (Qeq_bool dy 0) then
      if Qltb 0 dy && Qltb 0 relY || Qltb dy 0 && Qltb relY 0
      then Some (absFloat relY, absFloat relX) else None
    else None in
  match inDirection with
  | Some (primaryDist, secondaryDist) => Some (secondaryDist * 2 + primaryDist)%Q
  | None => None
  end.

(** One turn of the loop of [selectNodeInDirection]; the state is
    [(bestNode, bestScore)]. *)
Definition considerNode (selected : string) (dx dy currentX currentY : float64)
    (best : option Node * float64) (node : Node) : option Node * float64 :=
  if decide (ID node = selected) then best
  else
    match directionScore dx dy currentX currentY node with
    | None => best
    | Some score =>
        if Qltb (snd best) 0 || Qltb score (snd best)
        then (Some node, score)
        else best
    end.

Definition selectNodeInDirection (ord : list string) (dx dy : float64) (m : Model)
    : Model :=
  match GetSelectedNode m with
  | None => m
  | Some selectedNode =>
      let '(currentX, currentY) := GetCenter selectedNode in
      let '(bestNode, _) :=
        fold_left (considerNode (Selected m) dx dy currentX currentY)
          (snd <$> range ord (Nodes m)) (None, (-1)%Q) in
      match bestNode with
      | Some bestNode =>
          Model_with_StatusMsg EmptyString (Model_with_Selected (ID bestNode) m)
      | None => m
      end
  end.

(** ** renderer.go: the edge rasterizer *)

(** A [rune] is its code point. *)
Record ColoredCell := mkCell { Char : Z; CellColor : string }.

Definition blank : Z := 32.

Abbreviation Grid := (list (list ColoredCell)).

Definition cell_at (grid : Grid) (y x : nat) : option ColoredCell :=
  grid !! y ≫= fun row => row !! x.

(** [len(grid[0])]; the program evaluates it only after [y < len(grid)]. *)
Definition grid_width (grid : Grid) : Z :=
  match grid with
  | [] => 0
  | row :: _ => Z.of_nat (length row)
  end.

(** Every row of [grid] has [w] cells, as in the grid that [View] makes. *)
Definition rectangular (w : nat) (grid : Grid) : Prop :=
  Forall (fun row => length row = w) grid.

Definition set_cell (grid : Grid) (y x : nat) (cell : ColoredCell) : Grid :=
  alter (fun row => <[x := cell]> row) y grid.

Definition getLineChar (dx dy : Z) : Z :=
  if (dx =? 0) && (dy =? 0) then 183 (* middle dot *)
  else
    let absDx := Z.abs dx in
    let absDy := Z.abs dy in
    if absDy * 2 <? absDx then 9472 (* horizontal *)
    else if absDx * 2 <? absDy then 9474 (* vertical *)
    else if (0 <? dx) && (dy <? 0) || (dx <? 0) && (0 <? dy) then 9585 (* rising *)
    else 9586 (* falling *).

(** The guarded write that [drawLineSegment] does at its start point and in
    every turn of its loop. Reading [grid[y1][x1]] past the end of a row
    shorter than [grid[0]] panics. *)
Definition plot (grid : Grid) (x1 y1 dx dy : Z) (color : string) : option Grid :=
  if (0 <=? y1) && (y1 <? Z.of_nat (length grid))
     && (0 <=? x1) && (x1 <? grid_width grid) then
    cell ← cell_at grid (Z.to_nat y1) (Z.to_nat x1);
    if Char cell =? blank then
      let lineChar := getLineChar dx dy in
      Some (set_cell grid (Z.to_nat y1) (Z.to_nat x1) (mkCell lineChar color))
    else Some grid
  else Some grid.

(** The position after one turn of the Bresenham loop. *)
Definition bresenhamStep (absDx absDy sx sy : Z) (st : Z * Z * Z) : Z * Z * Z :=
  let '(x1, y1, err) := st in
  let e2 := 2 * err in
  let '(err, x1) := if - absDy <? e2 then (err - absDy, x1 + sx) else (err, x1) in
  let '(err, y1) := if e2 <? absDx then (err + absDx, y1 + sy) else (err, y1) in
  (x1, y1, err).

(** At most [fuel] turns of the loop [for { ... }] of [drawLineSegment]. *)
Fixpoint bresenhamLoop (fuel : nat) (grid : Grid) (st : Z * Z * Z)
    (x2 y2 dx dy absDx absDy sx sy : Z) (color : string) : option Grid :=
  match fuel with
  | O => Some grid
  | S fuel' =>
      let '(x1, y1, _) := st in
      if (x1 =? x2) && (y1 =? y2) then Some grid
      else
        let st := bresenhamStep absDx absDy sx sy st in
        let '(x1, y1, _) := st in
        grid ← plot grid x1 y1 dx dy color;
        bresenhamLoop fuel' grid st x2 y2 dx dy absDx absDy sx sy color
  end.

(** The loop reaches [(x2, y2)] after [max |dx| |dy|] turns
    ([bresenham_reaches]), which is the fuel it gets. *)
Definition drawLineSegment (grid : Grid) (x1 y1 x2 y2 : Z) (color : string)
    : option Grid :=
  let dx := x2 - x1 in
  let dy := y2 - y1 in
  grid ← plot grid x1 y1 dx dy color;
  if (x1 =? x2) && (y1 =? y2) then Some grid
  else
    let absDx := Z.abs dx in
    let absDy := Z.abs dy in
    let sx := if x1 <? x2 then 1 else -1 in
    let sy := if y1 <? y2 then 1 else -1 in
    let err := absDx - absDy in
    bresenhamLoop (Z.to_nat (Z.max absDx absDy)) grid (x1, y1, err)
      x2 y2 dx dy absDx absDy sx sy color.

Section Renderer.

(** [math.Sqrt]. *)
Variable math_Sqrt : float64 -> float64.

(** The point of the cubic Bezier curve at [t = i / steps], rounded. *)
Definition bezierPoint (x1 y1 x2 y2 : Z) (cp1x cp1y cp2x cp2y : float64)
    (steps i : Z) : Z * Z :=
  let t := (inject_Z i / inject_Z steps)%Q in
  let omt := (1 - t)%Q in
  let omt2 := (omt * omt)%Q in
  let omt3 := (omt2 * omt)%Q in
  let t2 := (t * t)%Q in
  let t3 := (t2 * t)%Q in
  let x := (omt3 * inject_Z x1 + 3 * omt2 * t * cp1x + 3 * omt * t2 * cp2x
            + t3 * inject_Z x2)%Q in
  let y := (omt3 * inject_Z y1 + 3 * omt2 * t * cp1y + 3 * omt * t2 * cp2y
            + t3 * inject_Z y2)%Q in
  (math_Round x, math_Round y).

(** The loop [for i := 0; i <= steps; i++] of [drawLine], over the list of
    its indices. *)
Fixpoint drawSamples (samples : list Z) (grid : Grid) (prev : Z * Z)
    (point : Z -> Z * Z) (color : string) : option Grid :=
  match samples with
  | [] => Some grid
  | i :: samples' =>
      let '(curX, curY) := point i in
      grid ← drawLineSegment grid (fst prev) (snd prev) curX curY color;
      drawSamples samples' grid (curX, curY) point color
  end.

Definition drawLine (grid : Grid) (x1 y1 x2 y2 : Z) (color : string)
    : option Grid :=
  let dx := inject_Z (x2 - x1) in
  let dy := inject_Z (y2 - y1) in
  let dist := math_Sqrt (dx * dx + dy * dy)%Q in
  let d := (dist * (4 # 10))%Q in
  let cpOffset := if Qlt_le_dec d 30 then d else 30%Q in
  let vertical := Qltb (Qabs dx) (Qabs dy) in
  let sign := if Qlt_le_dec dy 0 then (-1)%Q else 1%Q in
  let cp1x := if vertical then inject_Z x1 else (inject_Z x1 + cpOffset)%Q in
  let cp1y := if vertical then (inject_Z y1 + cpOffset * sign)%Q else inject_Z y1 in
  let cp2x := if vertical then inject_Z x2 else (inject_Z x2 - cpOffset)%Q in
  let cp2y := if vertical then (inject_Z y2 - cpOffset * sign)%Q else inject_Z y2 in
  let steps := int_of_float (dist * 2)%Q in
  let steps := if steps <? 10 then 10 else steps in
  drawSamples (Z.of_nat <$> seq 0 (Z.to_nat (steps + 1))) grid (x1, y1)
    (bezierPoint x1 y1 x2 y2 cp1x cp1y cp2x cp2y steps) color.

Definition drawEdge (m : Model) (grid : Grid) (from to : Node) : option Grid :=
  let '(fromCX, fromCY) := GetCenter from in
  let '(toCX, toCY) := GetCenter to in
  let '(fx, fy, tx, ty) :=
    if Qltb fromCX toCX then
      ((X from + inject_Z (Width from))%Q, fromCY, X to, toCY)
    else if Qltb toCX fromCX then
      (X from, fromCY, (X to + inject_Z (Width to))%Q, toCY)
    else if Qltb fromCY toCY then
      (fromCX, (Y from + inject_Z (Height from))%Q, toCX, Y to)
    else
      (fromCX, Y from, toCX, (Y to + inject_Z (Height to))%Q) in
  let '(sx1, sy1) := Camera.WorldToScreen (mCamera m) fx fy (mWidth m) (mHeight m - 1) in
  let '(sx2, sy2) := Camera.WorldToScreen (mCamera m) tx ty (mWidth m) (mHeight m - 1) in
  drawLine grid sx1 sy1 sx2 sy2 (Color to).

(** The loop of [drawEdges] over a list of edges. *)
Fixpoint drawEdgeList (m : Model) (edges : list Edge) (grid : Grid) : option Grid :=
  match edges with
  | [] => Some grid
  | edge :: edges' =>
      grid ←
        match Nodes m !! FromID edge, Nodes m !! ToID edge with
        | Some fromNode, Some toNode => drawEdge m grid fromNode toNode
        | _, _ => Some grid
        end;
      drawEdgeList m edges' grid
  end.

Definition drawEdges (m : Model) (grid : Grid) : option Grid :=
  drawEdgeList m (Edges m) grid.

End Renderer.

(** ** float64 arithmetic with rounding *)

(** The value of a finite [float64] is a rational number, and every IEEE 754
    operation returns the exact result rounded to the nearest value of the
    format, ties to the even significand. [round] is that rounding for
    binary64: 53 bits of precision, the smallest quantum [2^-1074].
    Infinities and NaN (results of magnitude [2^1024] and more, division by
    zero) are not values of the model. *)
Module F64.

Definition pow2 (e : Z) : Q := (2 ^ e)%Q.

(** The [l] with [2^l <= x < 2^(l+1)], for a positive [x]. *)
Definition floor_log2 (x : Q) : Z :=
  let l := Z.log2 (Qnum x) - Z.log2 (Z.pos (Qden x)) in
  if Qle_bool (pow2 l) x then l else l - 1.

(** The nearest integer, the even one of the two when they are equally near. *)
Definition round_half_even (x : Q) : Z :=
  let f := Qfloor x in
  match (x - inject_Z f ?= 1 # 2)%Q with
  | Lt => f
  | Gt => f + 1
  | Eq => if Z.even f then f else f + 1
  end.

(** The exponent of the quantum of the values near [x]. *)
Definition ulp_exponent (x : Q) : Z := Z.max (floor_log2 (Qabs x) - 52) (-1074).

Definition round (x : Q) : Q :=
  if Qeq_bool x 0 then 0%Q
  else
    let e := ulp_exponent x in
    Qred (inject_Z (round_half_even (x / pow2 e)) * pow2 e).

Definition add (x y : Q) : Q := round (x + y).
Definition sub (x y : Q) : Q := round (x - y).
Definition mul (x y : Q) : Q := round (x * y).
Definition div (x y : Q) : Q := round (x / y).

(** [float64(n)] for an [int]. *)
Definition of_int (n : Z) : Q := round (inject_Z n).

(** [x*y + z]. The Go compiler may fuse the two operations into one with a
    single rounding, and does so on some architectures ([fused]). *)
Definition mul_add (fused : bool) (x y z : Q) : Q :=
  if fused then round (x * y + z) else add (mul x y) z.

End F64.

(** ** camera.go, with the rounding of every operation *)

(** The functions of [Camera] again, every arithmetic operation rounded as
    the hardware rounds it. [math.Round] and [math.Abs] are exact. The
    conversion [int(x)] is modelled for the values inside the range of
    [int]. *)
Module Camera64.

Section Arch.

(** Whether the compiler fuses [x*y + z]. *)
Variable fused : bool.

Definition WorldToScreen (c : Camera.t) (wx wy : float64)
    (screenWidth screenHeight : Z) : Z * Z :=
  let centerX := F64.div (F64.of_int screenWidth) 2 in
  let centerY := F64.div (F64.of_int screenHeight) 2 in
  let sx := F64.mul_add fused (F64.sub wx (Camera.X c)) (Camera.Zoom c) centerX in
  let sy := F64.mul_add fused (F64.sub wy (Camera.Y c)) (Camera.Zoom c) centerY in
  (math_Round sx, math_Round sy).

Definition ScreenToWorld (c : Camera.t) (sx sy : Z) (screenWidth screenHeight : Z)
    : float64 * float64 :=
  let centerX := F64.div (F64.of_int screenWidth) 2 in
  let centerY := F64.div (F64.of_int screenHeight) 2 in
  let wx :=
    F64.add (F64.div (F64.sub (F64.of_int sx) centerX) (Camera.Zoom c)) (Camera.X c) in
  let wy :=
    F64.add (F64.div (F64.sub (F64.of_int sy) centerY) (Camera.Zoom c)) (Camera.Y c) in
  (wx, wy).

(** The constant [0.001] as a [float64]. *)
Definition threshold : float64 := F64.round (1 # 1000).

(** One coordinate of [Update]: [cur += (target - cur) * smoothness]. *)
Definition approach (cur target smoothness : float64) : float64 * bool :=
  if Qlt_le_dec threshold (Qabs (F64.sub cur target))
  then (F64.mul_add fused (F64.sub target cur) smoothness cur, true)
  else (target, false).

Definition Update (smoothness : float64) (c : Camera.t) : Camera.t * bool :=
  let '(x, mx) := approach (Camera.X c) (Camera.TargetX c) smoothness in
  let '(y, my) := approach (Camera.Y c) (Camera.TargetY c) smoothness in
  let '(z, mz) := approach (Camera.Zoom c) (Camera.TargetZoom c) smoothness in
  (Camera.mk x y z (Camera.TargetX c) (Camera.TargetY c) (Camera.TargetZoom c),
   mx || my || mz).

End Arch.

End Camera64.

(** ** Pushing nodes down, with the rounding of the addition *)

Module Model64.

(** The body of [pushDownNodesBelow]'s loop: [node.Y += amount]. *)
Definition pushDown (thresholdY amount : float64) (node : Node) : Node :=
  if Qlt_le_dec (Y node) thresholdY then node
  else Node_with_Y (F64.add (Y node) amount) node.

Definition pushDownNodesBelow (thresholdY amount : float64) (m : Model) : Model :=
  Model_with_Nodes (pushDown thresholdY amount <$> Nodes m) m.

End Model64.

(** ** Properties named in the theorems *)

(** What [round_half_even] returns: an integer at most one half away, and
    the even one when two integers are one half away. *)
Definition nearest_even (y : Q) (n : Z) : Prop :=
  (Qabs (inject_Z n - y) < 1 # 2)%Q
  ∨ (Qabs (inject_Z n - y) == 1 # 2 ∧ Z.even n = true)%Q.

(** [x] is a value of the format: rounding leaves it alone. *)
Definition is_float64 (x : Q) : Prop := (F64.round x == x)%Q.

(** The camera states of the theorems on the rounded transform: a position
    of magnitude [2^30] at most and a zoom in the range [0.25, 4] that the
    zoom keys keep. *)
Definition camera_in_range (c : Camera.t) : Prop :=
  (Qabs (Camera.X c) <= 1073741824 ∧ Qabs (Camera.Y c) <= 1073741824
   ∧ 1 # 4 <= Camera.Zoom c <= 4)%Q.

(** The round trip of a world point at the camera [c], computed with
    rounding, for world coordinates of magnitude [2^30] at most and screen
    sizes of magnitude [2^21] at most: the point that comes back is within
    half a screen cell and [2^-9] of a cell of the point that went in, on
    each axis, and it lies in the same screen cell. *)
Definition round_trip64_at (fused : bool) (c : Camera.t) : Prop :=
  ∀ (wx wy : float64) (screenWidth screenHeight : Z),
    (Qabs wx <= 1073741824)%Q → (Qabs wy <= 1073741824)%Q →
    Z.abs screenWidth <= 2 ^ 21 → Z.abs screenHeight <= 2 ^ 21 →
    let '(sx, sy) := Camera64.WorldToScreen fused c wx wy screenWidth screenHeight in
    let '(wx', wy') := Camera64.ScreenToWorld c sx sy screenWidth screenHeight in
    (Qabs (wx' - wx) * Camera.Zoom c <= (1 # 2) + (1 # 512))%Q
    ∧ (Qabs (wy' - wy) * Camera.Zoom c <= (1 # 2) + (1 # 512))%Q
    ∧ Camera64.WorldToScreen fused c wx' wy' screenWidth screenHeight = (sx, sy).

(** Two nodes that agree on everything but their links. *)
Definition same_box (n n' : Node) : Prop :=
  ID n = ID n' ∧ Text n = Text n' ∧ X n = X n' ∧ Y n = Y n'
  ∧ Width n = Width n' ∧ Height n = Height n'
  ∧ ParentID n = ParentID n' ∧ Color n = Color n'.

(** The bottom edge of a box. *)
Definition bottom (n : Node) : float64 := (Y n + inject_Z (Height n))%Q.

(** The palette is not empty and the cursor is a natural number below the
    largest [int]: [paletteColor] does not panic and the cursor does not wrap. *)
Definition palette_ready (m : Model) : Prop :=
  ColorPalette m ≠ [] ∧ 0 <= NextColorIndex m < 2 ^ 63 - 1.

(** Every node is stored under its own identity. *)
Definition well_keyed (nodes : gmap string Node) : Prop :=
  map_Forall (fun k n => ID n = k) nodes.

(** ** Sequences of calls *)

(** The calls of the methods of [Model] that change the document or the
    selection. *)
Inductive Op :=
  | OpAddChild (ord : list string) (text : string)
  | OpAddSibling (ord : list string) (text : string)
  | OpDelete (ord : list string) (id : string)
  | OpSelect (ord : list string) (dx dy : float64)
  | OpLoad (ord : list string) (file : FileContents).

(** A node creation of a run: the node that was selected when the call was
    made (the reference node) and the node that the call stored. *)
Record Creation := mkCreation {
  reference : option Node;
  created : option Node
}.

Definition under_root (c : Creation) : bool :=
  match created c with
  | Some node => bool_decide (ParentID node = "0"%string)
  | None => false
  end.

(** The number of creations of [log] directly under the root. *)
Definition rootCount (log : list Creation) : nat := length (filter under_root log).

Section Runs.

Variable Sscanf_d : string -> option Z.

Definition step (op : Op) (m : Model) : option Model :=
  match op with
  | OpAddChild ord text => AddChildNode ord text m
  | OpAddSibling ord text => AddSiblingNode ord text m
  | OpDelete ord id => Some (DeleteNode ord id m)
  | OpSelect ord dx dy => Some (selectNodeInDirection ord dx dy m)
  | OpLoad ord file =>
      match LoadFromFile Sscanf_d ord file m with
      | inl NilDocument => None
      | inl _ => Some m
      | inr m' => Some m'
      end
  end.

Definition creations (op : Op) (m m' : Model) : list Creation :=
  match op with
  | OpAddChild _ _ | OpAddSibling _ _ =>
      [mkCreation (GetSelectedNode m) (Nodes m' !! pretty (NextID m))]
  | _ => []
  end.

(** The document after the calls [ops], and the creations on the way. *)
Fixpoint run (ops : list Op) (m : Model) : option (Model * list Creation) :=
  match ops with
  | [] => Some (m, [])
  | op :: ops' =>
      m' ← step op m;
      '(m'', log) ← run ops' m';
      Some (m'', creations op m m' ++ log)
  end.

End Runs.

(** A file that is loaded has a node map without nil nodes and stores every
    node under its own identity. *)
Definition op_ok (op : Op) : Prop :=
  match op with
  | OpLoad _ (Decoded data) => well_keyed (dNodes data)
  | OpLoad _ DecodedNil => False
  | _ => True
  end.

(** [c] is an existing child of [parent] in the document [m]. *)
Definition child_of (m : Model) (parent c : Node) : Prop :=
  ∃ k, Nodes m !! k = Some c ∧ ParentID c = ID parent.

(** The part of the document that the colouring rule depends on: the cursor
    has the value [k], the palette is the palette of [NewModel], and every
    node is stored under its identity. *)
Definition coloring_state (m : Model) (k : nat) : Prop :=
  well_keyed (Nodes m) ∧ ColorPalette m = palette ∧ NextColorIndex m = Z.of_nat k.

(** The colouring rule for the creation [c] when [k] nodes were created under
    the root before it. *)
Definition colored_by_rule (k : nat) (c : Creation) : Prop :=
  ∃ node,
    created c = Some node
    ∧ (ParentID node = "0"%string →
         palette !! (k mod length palette)%nat = Some (Color node))
    ∧ (ParentID node ≠ "0"%string →
         ∀ r, reference c = Some r → Color node = Color r).

(** ** Directional selection, in the words of the specification *)

(** The four directions of the arrow keys. *)
Definition unit_axis (dx dy : float64) : Prop :=
  (dx = 1%Q ∧ dy = 0%Q) ∨ (dx = (-1)%Q ∧ dy = 0%Q)
  ∨ (dx = 0%Q ∧ dy = 1%Q) ∨ (dx = 0%Q ∧ dy = (-1)%Q).

(** How far the centre of [n] lies from the centre of [from] in the
    direction [(dx, dy)] (negative: on the other side), and how far across
    it. For a unit axis direction these are the distance along the axis of
    the movement and the distance along the other axis. *)
Definition axialDistance (dx dy : float64) (from n : Node) : float64 :=
  (dx * ((GetCenter n).1 - (GetCenter from).1)
   + dy * ((GetCenter n).2 - (GetCenter from).2))%Q.

Definition perpendicularDistance (dx dy : float64) (from n : Node) : float64 :=
  Qabs (dy * ((GetCenter n).1 - (GetCenter from).1)
        - dx * ((GetCenter n).2 - (GetCenter from).2))%Q.

Definition score (dx dy : float64) (from n : Node) : float64 :=
  (perpendicularDistance dx dy from n * 2 + axialDistance dx dy from n)%Q.

(** A candidate: a node other than the selected one whose centre lies
    strictly on the requested side. *)
Definition eligible (m : Model) (dx dy : float64) (from n : Node) : Prop :=
  ID n ≠ Selected m ∧ (0 < axialDistance dx dy from n)%Q.

(** The state [(bestNode, bestScore)] of the loop of [selectNodeInDirection]
    after the nodes [processed]: no candidate was seen, or [bestNode] is a
    candidate with the lowest score of all candidates seen. *)
Definition best_so_far (selected : string) (dx dy : float64) (from : Node)
    (processed : list Node) (best : option Node * float64) : Prop :=
  match best.1 with
  | None =>
      best.2 = (-1)%Q
      ∧ ∀ n, n ∈ processed →
             ¬ (ID n ≠ selected ∧ (0 < axialDistance dx dy from n)%Q)
  | Some b =>
      b ∈ processed ∧ ID b ≠ selected ∧ (0 < axialDistance dx dy from b)%Q
      ∧ (best.2 == score dx dy from b)%Q
      ∧ ∀ n, n ∈ processed → ID n ≠ selected →
             (0 < axialDistance dx dy from n)%Q →
             (score dx dy from b <= score dx dy from n)%Q
  end.

(** ** The edge pass on the grid *)

Global Instance ColoredCell_eq_dec : EqDecision ColoredCell.
Proof. solve_decision. Defined.

(** [grid'] comes from [grid] by painting blank cells only: the grids have
    the same shape, a cell of [grid] that is not blank is the same cell in
    [grid'], and a cell that differs was blank and is not blank any more. *)
Definition first_writer_wins (grid grid' : Grid) : Prop :=
  (∀ y, length <$> grid' !! y = length <$> grid !! y)
  ∧ (∀ y x cell,
       cell_at grid y x = Some cell → Char cell ≠ blank →
       cell_at grid' y x = Some cell)
  ∧ (∀ y x cell cell',
       cell_at grid y x = Some cell → cell_at grid' y x = Some cell' →
       cell' ≠ cell → Char cell = blank ∧ Char cell' ≠ blank).

(** The position of the Bresenham loop after [k] turns. *)
Definition bresenhamAfter (k : nat) (x1 y1 x2 y2 : Z) : Z * Z * Z :=
  Nat.iter k
    (bresenhamStep (Z.abs (x2 - x1)) (Z.abs (y2 - y1))
       (if x1 <? x2 then 1 else -1) (if y1 <? y2 then 1 else -1))
    (x1, y1, Z.abs (x2 - x1) - Z.abs (y2 - y1)).

(** ** Sample inputs *)

(** A reading of [fmt.Sscanf(id, "%d", &n)] on plain decimal numerals with an
    optional minus sign; the samples below only have such identities. *)
Fixpoint scanDigits (s : string) (acc : option Z) : option Z :=
  match s with
  | EmptyString => acc
  | String c s' =>
      let d := (Z.of_N (Ascii.N_of_ascii c) - 48)%Z in
      if (0 <=? d) && (d <=? 9)
      then scanDigits s' (Some (10 * default 0 acc + d))
      else None
  end.

Definition scanDecimal (s : string) : option Z :=
  match s with
  | String "-"%char s' => Z.opp <$> scanDigits s' None
  | _ => scanDigits s None
  end.

(** One word of thirty bytes. *)
Definition long_word : string := "aaaaaaaaaaaaaaaaaaaaaaaaaaaaaa".

(** Two words of twelve bytes: they do not fit on one line of 22. *)
Definition two_line_text : string := "aaaaaaaaaaaa bbbbbbbbbbbb".

(** A saved document whose only node carries a size that is not the size of
    its text. *)
Definition stale_node : Node :=
  mkNode "0" "a" 0 0 99 99 EmptyString EmptyString [].

Definition stale_file : MindMapData :=
  mkMindMapData {["0"%string := stale_node]} [] Camera.NewCamera.

(** The root, its child "1" with a text of two lines (height 4), and the
    child "2" of "1" (height 3); "1" is selected again with the left arrow. *)
Definition tall_parent_doc : option Model :=
  m ← AddChildNode ["0"]%string two_line_text NewModel;
  m ← AddChildNode ["0"; "1"]%string "c" m;
  Some (selectNodeInDirection ["0"; "1"; "2"]%string (-1) 0 m).

(** The root, its children "1" and "2" below each other; "1" is selected
    again with the up arrow. *)
Definition two_children_doc : option Model :=
  m ← AddChildNode ["0"]%string "a" NewModel;
  m ← AddSiblingNode ["0"; "1"]%string "b" m;
  Some (selectNodeInDirection ["0"; "1"; "2"]%string 0 (-1) m).

(** The root and one child. *)
Definition one_child_doc : option Model :=
  AddChildNode ["0"]%string "a" NewModel.

(** The example of the specification for directional selection: three boxes
    of the smallest size (10 by 3) with centres (0,0), (5,0) and (5,3). *)
Definition node_at_center (id : string) (cx cy : float64) : Node :=
  mkNode id "x" (cx - 5)%Q (cy - (3 # 2))%Q 10 3 EmptyString EmptyString [].

Definition abc_doc : Model :=
  Model_with_Selected "A"
    (Model_with_Nodes
       (<["A"%string := node_at_center "A" 0 0]>
          (<["B"%string := node_at_center "B" 5 0]>
             {["C"%string := node_at_center "C" 5 3]}))
       NewModel).

(** A grid of two rows and four columns with one painted cell. *)
Definition sample_grid : Grid :=
  [[mkCell blank EmptyString; mkCell 9472 "#FF6B6B"; mkCell blank EmptyString;
    mkCell blank EmptyString];
   [mkCell blank EmptyString; mkCell blank EmptyString; mkCell blank EmptyString;
    mkCell blank EmptyString]].

(** A run with a reload in the middle: a child of the root, back to the
    root, a file with the root alone, then a child of the root, a sibling of
    that child, and a child of the sibling. *)
Definition sample_run : list Op :=
  [OpAddChild ["0"]%string "a";
   OpSelect ["0"; "1"]%string (-1) 0;
   OpLoad ["0"]%string (Decoded stale_file);
   OpAddChild ["0"]%string "c";
   OpAddSibling ["0"; "1"]%string "d";
   OpAddChild ["0"; "1"; "2"]%string "e"].

(** A file whose only node is stored under the key "0" and carries the
    identity "7", and a run that loads it and creates a child of the node
    that is selected then. *)
Definition ill_keyed_file : MindMapData :=
  mkMindMapData
    {["0"%string := mkNode "7" "Root Idea" 0 0 13 3 EmptyString "#123456" []]}
    [] Camera.NewCamera.

Definition ill_keyed_run : list Op :=
  [OpLoad ["0"]%string (Decoded ill_keyed_file); OpAddChild ["0"]%string "x"].

(** A camera far from the origin, as a file can hold it: at [10^17] the
    values of the format are 16 apart. *)
Definition far_camera : Camera.t :=
  Camera.mk 100000000000000000 0 1 100000000000000000 0 1.

(** A stand-in for [math.Sqrt] on the samples: the integer square root. *)
Definition sqrt_floor (x : float64) : float64 := inject_Z (Z.sqrt (Qfloor x)).

(** Proves [iteration_order ord nodes] for a concrete order and map. *)
Ltac concrete_order :=
  split; apply (bool_decide_unpack _); vm_compute; exact I.

(** ** More of camera.go, the model and update.go *)

Definition IsVisible (c : Camera.t) (wx wy : float64) (screenWidth screenHeight : Z)
    : bool :=
  let '(sx, sy) := Camera.WorldToScreen c wx wy screenWidth screenHeight in
  (0 <=? sx) && (sx <? screenWidth) && (0 <=? sy) && (sy <? screenHeight).

(** [x <= y] on floats. *)
Definition Qleb (x y : float64) : bool :=
  if Qlt_le_dec y x then false else true.

(** The test of [GetNodeAt]: the world point lies in the box of the node,
    borders included. *)
Definition containsPoint (wx wy : float64) (node : Node) : bool :=
  Qleb (X node) wx && Qleb wx (X node + inject_Z (Width node))%Q
  && Qleb (Y node) wy && Qleb wy (Y node + inject_Z (Height node))%Q.

Definition GetNodeAt (ord : list string) (screenX screenY : Z) (m : Model)
    : option Node :=
  let '(wx, wy) :=
    Camera.ScreenToWorld (mCamera m) screenX screenY (mWidth m) (mHeight m) in
  head (filter (fun node => containsPoint wx wy node = true)
          (snd <$> range ord (Nodes m))).

Definition Model_with_Mode (v : Mode) (m : Model) : Model :=
  mkModel (Nodes m) (Edges m) (mCamera m) (Selected m) v (EditBuffer m)
    (IsCreatingNode m) (IsCreatingChild m) (mWidth m) (mHeight m) (NextID m)
    (StatusMsg m) (LinkSourceID m) (ColorPalette m) (NextColorIndex m).
Definition Model_with_EditBuffer (v : string) (m : Model) : Model :=
  mkModel (Nodes m) (Edges m) (mCamera m) (Selected m) (mMode m) v
    (IsCreatingNode m) (IsCreatingChild m) (mWidth m) (mHeight m) (NextID m)
    (StatusMsg m) (LinkSourceID m) (ColorPalette m) (NextColorIndex m).
Definition Model_with_IsCreatingNode (v : bool) (m : Model) : Model :=
  mkModel (Nodes m) (Edges m) (mCamera m) (Selected m) (mMode m) (EditBuffer m)
    v (IsCreatingChild m) (mWidth m) (mHeight m) (NextID m)
    (StatusMsg m) (LinkSourceID m) (ColorPalette m) (NextColorIndex m).
Definition Model_with_IsCreatingChild (v : bool) (m : Model) : Model :=
  mkModel (Nodes m) (Edges m) (mCamera m) (Selected m) (mMode m) (EditBuffer m)
    (IsCreatingNode m) v (mWidth m) (mHeight m) (NextID m)
    (StatusMsg m) (LinkSourceID m) (ColorPalette m) (NextColorIndex m).
Definition Model_with_LinkSourceID (v : string) (m : Model) : Model :=
  mkModel (Nodes m) (Edges m) (mCamera m) (Selected m) (mMode m) (EditBuffer m)
    (IsCreatingNode m) (IsCreatingChild m) (mWidth m) (mHeight m) (NextID m)
    (StatusMsg m) v (ColorPalette m) (NextColorIndex m).

(** *** Cyclic selection *)

(** The loop that looks for the selected identity in [ids]: its position,
    [-1] when it is not there. *)
Fixpoint indexOf (id : string) (ids : list string) : Z :=
  match ids with
  | [] => -1
  | id' :: ids' =>
      if decide (id' = id) then 0
      else let i := indexOf id ids' in if i <? 0 then -1 else i + 1
  end.

(** [ids[i]]; an index out of range panics. *)
Definition index (ids : list string) (i : Z) : option string :=
  if i <? 0 then None else ids !! Z.to_nat i.

Definition selectNextNode (ord : list string) (m : Model) : option Model :=
  if Z.of_nat (size (Nodes m)) =? 0 then Some m
  else
    let ids := fst <$> range ord (Nodes m) in
    let currentIdx := indexOf (Selected m) ids in
    if Z.of_nat (length ids) =? 0 then None
    else
      let nextIdx := Z.rem (currentIdx + 1) (Z.of_nat (length ids)) in
      id ← index ids nextIdx;
      Some (Model_with_StatusMsg EmptyString (Model_with_Selected id m)).

Definition selectPrevNode (ord : list string) (m : Model) : option Model :=
  if Z.of_nat (size (Nodes m)) =? 0 then Some m
  else
    let ids := fst <$> range ord (Nodes m) in
    let currentIdx := indexOf (Selected m) ids in
    let prevIdx := currentIdx - 1 in
    let prevIdx := if prevIdx <? 0 then Z.of_nat (length ids) - 1 else prevIdx in
    id ← index ids prevIdx;
    Some (Model_with_StatusMsg EmptyString (Model_with_Selected id m)).

(** *** Trimming strings *)

(** [s[:n]]: a bound that is negative or past the end panics. *)
Definition slice_to (s : string) (n : Z) : option string :=
  if (n <? 0) || (len s <? n) then None else Some (str_take n s).

Definition trimString (s : string) (maxLen : Z) : option string :=
  if len s <=? maxLen then Some s
  else
    prefix ← slice_to s (maxLen - 3);
    Some (prefix +:+ "...")%string.

Definition ellipsis (s : string) (maxLen : Z) : option string :=
  let lines := GoStrings.Split_newline s in
  match lines with
  | line :: _ => trimString line maxLen
  | [] => trimString s maxLen
  end.

(** *** The key handlers of the edit mode and of the link mode *)

(** The key is [msg.String()]. The command that the handlers return next to
    the model is always [nil]. *)
Definition handleEditMode (ord : list string) (key : string) (m : Model)
    : option Model :=
  if decide (key = "esc"%string) then
    Some (Model_with_StatusMsg "Cancelled"
            (Model_with_IsCreatingNode false
               (Model_with_EditBuffer EmptyString (Model_with_Mode ModeNormal m))))
  else if decide (key = "enter"%string) then
    m ←
      (if decide (EditBuffer m ≠ EmptyString) then
         if IsCreatingNode m then
           if IsCreatingChild m then AddChildNode ord (EditBuffer m) m
           else AddSiblingNode ord (EditBuffer m) m
         else
           match GetSelectedNode m with
           | Some _ =>
               Some (Model_with_StatusMsg "Node updated"
                       (Model_with_Nodes
                          (alter (fun node =>
                                    UpdateSize (Node_with_Text (EditBuffer m) node))
                             (Selected m) (Nodes m)) m))
           | None => Some m
           end
       else Some m);
    Some (Model_with_IsCreatingChild false
            (Model_with_IsCreatingNode false
               (Model_with_EditBuffer EmptyString (Model_with_Mode ModeNormal m))))
  else if decide (key = "backspace"%string) then
    if 0 <? len (EditBuffer m)
    then Some (Model_with_EditBuffer
                 (str_take (len (EditBuffer m) - 1) (EditBuffer m)) m)
    else Some m
  else
    if len key =? 1
    then Some (Model_with_EditBuffer (EditBuffer m +:+ key)%string m)
    else Some m.

Definition handleLinkMode (ord : list string) (key : string) (m : Model)
    : option Model :=
  if decide (key = "esc"%string) then
    Some (Model_with_StatusMsg "Link cancelled"
            (Model_with_LinkSourceID EmptyString (Model_with_Mode ModeNormal m)))
  else if decide (key = "tab"%string) then selectNextNode ord m
  else if decide (key = "shift+tab"%string) then selectPrevNode ord m
  else if decide (key = "enter"%string) then
    let m :=
      if decide (Selected m ≠ EmptyString ∧ LinkSourceID m ≠ EmptyString
                 ∧ Selected m ≠ LinkSourceID m)
      then AddEdge (LinkSourceID m) (Selected m) m
      else m in
    Some (Model_with_LinkSourceID EmptyString (Model_with_Mode ModeNormal m))
  else Some m.

(** ** Properties named in the further theorems *)

(** The zoom and its target lie in the range that the zoom keys keep. *)
Definition zoom_in_range (c : Camera.t) : Prop :=
  ((1 # 4) <= Camera.Zoom c <= 4 ∧ (1 # 4) <= Camera.TargetZoom c <= 4)%Q.





(** The selection is empty or names a node of the document. *)
Definition selection_ok (m : Model) : Prop :=
  Selected m = EmptyString ∨ is_Some (Nodes m !! Selected m).

(** Every identity of the document is the decimal numeral of a natural
    number below the counter [NextID]. *)
Definition ids_below (m : Model) : Prop :=
  ∀ k, is_Some (Nodes m !! k) → ∃ i, k = pretty i ∧ 0 <= i < NextID m.

(** What the operations on the document keep: the root is there, every node
    is stored under its identity, the selection is valid, no edge is listed
    twice, and the counter is positive and above every identity. *)
Definition document_ok (m : Model) : Prop :=
  is_Some (Nodes m !! "0"%string)
  ∧ well_keyed (Nodes m)
  ∧ selection_ok m
  ∧ NoDup (Edges m)
  ∧ 0 < NextID m
  ∧ ids_below m.

Definition is_load (op : Op) : bool :=
  match op with
  | OpLoad _ _ => true
  | _ => false
  end.

(** The parent under which [AddChildNode] files the new node. *)
Definition parentOfChild (m : Model) : string :=
  match GetSelectedNode m with
  | Some selectedNode => ID selectedNode
  | None => EmptyString
  end.

(** The parent under which [AddSiblingNode] files the new node. *)
Definition parentOfSibling (m : Model) : string :=
  match GetSelectedNode m with
  | Some selectedNode =>
      if decide (ID selectedNode = "0"%string) then ID selectedNode
      else ParentID selectedNode
  | None => EmptyString
  end.

(** The edges after the edge from [parentID] to [id] was asked for. *)
Definition withParentEdge (parentID id : string) (edges : list Edge) : list Edge :=
  if decide (parentID ≠ EmptyString) then
    if decide (mkEdge parentID id ∈ edges) then edges
    else edges ++ [mkEdge parentID id]
  else edges.

(** The outcome [result] of a creation on the document [m] is a document
    with one node more: the new node is stored under the next identity, which
    was free, it is filed under [parentID] and selected, the edge from a
    non-empty [parentID] to it is listed, and no other identity or edge comes
    or goes. *)
Definition fresh_creation (m : Model) (parentID : string) (result : option Model)
    : Prop :=
  let id := pretty (NextID m) in
  ∃ m' new,
    result = Some m'
    ∧ Nodes m !! id = None
    ∧ Nodes m' !! id = Some new
    ∧ ID new = id
    ∧ ParentID new = parentID
    ∧ (∀ k, is_Some (Nodes m' !! k) ↔ k = id ∨ is_Some (Nodes m !! k))
    ∧ Selected m' = id
    ∧ NextID m' = NextID m + 1
    ∧ (∀ edge, edge ∈ Edges m'
               ↔ edge ∈ Edges m
                 ∨ (parentID ≠ EmptyString ∧ edge = mkEdge parentID id))
    ∧ document_ok m'.

(** A run without a load: two creations, a deletion, a selection and a
    third creation. *)
Definition sample_edit_run : list Op :=
  [OpAddChild ["0"]%string "a";
   OpAddSibling ["0"; "1"]%string "b";
   OpDelete ["0"; "2"]%string "1";
   OpSelect ["0"; "2"]%string (-1) 0;
   OpAddChild ["0"; "2"]%string "c"].

(** The world point [(wx, wy)] lies in the box of [node], borders included. *)
Definition in_box (wx wy : float64) (node : Node) : Prop :=
  (X node <= wx <= X node + inject_Z (Width node)
   ∧ Y node <= wy <= Y node + inject_Z (Height node))%Q.

(** The document [m] with [id] selected and the status line cleared: what
    [selectNextNode] and [selectPrevNode] leave when they select [id]. *)
Definition selecting (id : string) (m : Model) : Model :=
  Model_with_StatusMsg EmptyString (Model_with_Selected id m).

(** The string has a line feed. *)
Fixpoint has_line_feed (s : string) : bool :=
  match s with
  | EmptyString => false
  | String c s' => (Ascii.N_of_ascii c =? 10)%N || has_line_feed s'
  end.

(** The keys [keys] handled one after the other by [handler]. *)
Fixpoint handleKeys (handler : string → Model → option Model) (keys : list string)
    (m : Model) : option Model :=
  match keys with
  | [] => Some m
  | key :: keys' => m' ← handler key m; handleKeys handler keys' m'
  end.

(** The text that the keys spell. *)
Definition typed (keys : list string) : string :=
  fold_right String.append EmptyString keys.

(** The end of the edit mode after Enter. *)
Definition leaveEditMode (m : Model) : Model :=
  Model_with_IsCreatingChild false
    (Model_with_IsCreatingNode false
       (Model_with_EditBuffer EmptyString (Model_with_Mode ModeNormal m))).

(** A model in the edit mode that creates a child of the root. *)
Definition creating_child : Model :=
  Model_with_IsCreatingChild true
    (Model_with_IsCreatingNode true (Model_with_Mode ModeEdit NewModel)).

(** A model in the link mode: the root and one child, the child selected,
    the root the source of the link. *)
Definition linking : Model :=
  Model_with_LinkSourceID "0"
    (Model_with_Mode ModeLink (default NewModel one_child_doc)).

(** The cell at column [x] and row [y] of the grid holds a character. *)
Definition painted (grid : Grid) (x y : Z) : Prop :=
  ∃ cell, cell_at grid (Z.to_nat y) (Z.to_nat x) = Some cell ∧ Char cell ≠ blank.

(** Column [x] and row [y] are on a grid with rows of [w] cells. *)
Definition inside (w : nat) (grid : Grid) (x y : Z) : Prop :=
  0 <= y < Z.of_nat (length grid) ∧ 0 <= x < Z.of_nat w.

(** Both ends of the edge are nodes of the document. *)
Definition connects (m : Model) (edge : Edge) : bool :=
  bool_decide (is_Some (Nodes m !! FromID edge) ∧ is_Some (Nodes m !! ToID edge)).

(** Column [x] and row [y] lie in the rectangle spanned by the two points. *)
Definition in_bounding_box (x1 y1 x2 y2 x y : Z) : Prop :=
  Z.min x1 x2 <= x <= Z.max x1 x2 ∧ Z.min y1 y2 <= y <= Z.max y1 y2.

(** ** renderer.go: the node pass and the grid of [View] *)

(** [for j, ch := range text]: the byte offset and the code point of every
    rune of a string, decoded as Go decodes UTF-8. A byte that does not start
    a well-formed sequence yields U+FFFD and the offset moves by one. *)
Module utf8.

Definition RuneError : Z := 65533.

Definition bytes (s : string) : list Z :=
  (fun c => Z.of_N (N_of_ascii c)) <$> list_ascii_of_string s.

(** A continuation byte. *)
Definition cont (b : Z) : bool := (128 <=? b) && (b <=? 191).

(** The sequence length that the first byte announces and the range that
    the second byte must lie in; length 0 for a byte that starts nothing. *)
Definition first (b0 : Z) : Z * Z * Z :=
  if (194 <=? b0) && (b0 <=? 223) then (2, 128, 191)
  else if b0 =? 224 then (3, 160, 191)
  else if (225 <=? b0) && (b0 <=? 236) then (3, 128, 191)
  else if b0 =? 237 then (3, 128, 159)
  else if (238 <=? b0) && (b0 <=? 239) then (3, 128, 191)
  else if b0 =? 240 then (4, 144, 191)
  else if (241 <=? b0) && (b0 <=? 243) then (4, 128, 191)
  else if b0 =? 244 then (4, 128, 143)
  else (0, 0, 0).

(** The first rune of a non-empty sequence of bytes and its width. *)
Definition DecodeRune (p : list Z) : Z * Z :=
  match p with
  | [] => (RuneError, 0)
  | b0 :: rest =>
      if b0 <? 128 then (b0, 1)
      else
        let '(size, lo, hi) := first b0 in
        match size, rest with
        | 2, b1 :: _ =>
            if (lo <=? b1) && (b1 <=? hi) then
              (Z.lor (Z.shiftl (Z.land b0 31) 6) (Z.land b1 63), 2)
            else (RuneError, 1)
        | 3, b1 :: b2 :: _ =>
            if (lo <=? b1) && (b1 <=? hi) && cont b2 then
              (Z.lor (Z.lor (Z.shiftl (Z.land b0 15) 12) (Z.shiftl (Z.land b1 63) 6))
                 (Z.land b2 63), 3)
            else (RuneError, 1)
        | 4, b1 :: b2 :: b3 :: _ =>
            if (lo <=? b1) && (b1 <=? hi) && cont b2 && cont b3 then
              (Z.lor
                 (Z.lor
                    (Z.lor (Z.shiftl (Z.land b0 7) 18) (Z.shiftl (Z.land b1 63) 12))
                    (Z.shiftl (Z.land b2 63) 6))
                 (Z.land b3 63), 4)
            else (RuneError, 1)
        | _, _ => (RuneError, 1)
        end
  end.

(** At most [fuel] runes of [p], which starts at the offset [j]. *)
Fixpoint runesFrom (fuel : nat) (j : Z) (p : list Z) : list (Z * Z) :=
  match fuel, p with
  | S fuel', _ :: _ =>
      let '(ch, size) := DecodeRune p in
      (j, ch) :: runesFrom fuel' (j + size) (drop (Z.to_nat size) p)
  | _, _ => []
  end.

(** Every rune takes a byte at least: the length of [s] is fuel enough. *)
Definition runes (s : string) : list (Z * Z) :=
  runesFrom (String.length s) 0 (bytes s).

End utf8.

(** [grid[y][x] = cell]: an index out of range panics. *)
Definition assign (grid : Grid) (y x : Z) (cell : ColoredCell) : option Grid :=
  if (0 <=? y) && (0 <=? x) then
    _ ← cell_at grid (Z.to_nat y) (Z.to_nat x);
    Some (set_cell grid (Z.to_nat y) (Z.to_nat x) cell)
  else None.

(** [if x >= 0 && x < len(grid[0]) { grid[y][x] = cell }]. *)
Definition assignInRow (grid : Grid) (y x : Z) (cell : ColoredCell) : option Grid :=
  if (0 <=? x) && (x <? grid_width grid) then assign grid y x cell else Some grid.

(** A loop whose body updates the grid, over the list of its indices. *)
Fixpoint forEach {A} (xs : list A) (body : A -> Grid -> option Grid) (grid : Grid)
    : option Grid :=
  match xs with
  | [] => Some grid
  | x :: xs' => grid ← body x grid; forEach xs' body grid
  end.

(** The top and the bottom border of a box, which the source draws with the
    same statements: the left corner, the cells
    [for x := sx + 1; x < sx+width-1 && x < len(grid[0]); x++] and the right
    corner, in the row [y], when the row is on the grid. *)
Definition drawBorder (grid : Grid) (y sx width : Z) (corner1 line corner2 : Z)
    (color : string) : option Grid :=
  if (0 <=? y) && (y <? Z.of_nat (length grid)) then
    grid ← assignInRow grid y sx (mkCell corner1 color);
    grid ←
      forEach (seqZ (sx + 1) (Z.min (sx + width - 1) (grid_width grid) - (sx + 1)))
        (fun x grid => if 0 <=? x then assign grid y x (mkCell line color) else Some grid)
        grid;
    assignInRow grid y (sx + width - 1) (mkCell corner2 color)
  else Some grid.

(** One turn of the loop [for i := 1; i < height-1; i++] of [drawNode]: the
    row [sy + i] of the box. [text[:maxRenderWidth]] panics when
    [maxRenderWidth] is negative, that is when the box is three cells wide. *)
Definition drawRow (lines : list string) (sx sy width : Z) (left' right' : Z)
    (color : string) (i : Z) (grid : Grid) : option Grid :=
  let y := sy + i in
  if (y <? 0) || (Z.of_nat (length grid) <=? y) then Some grid
  else
    grid ← assignInRow grid y sx (mkCell left' color);
    grid ← assignInRow grid y (sx + 1) (mkCell blank EmptyString);
    let lineIdx := i - 1 in
    grid ←
      match lines !! Z.to_nat lineIdx with
      | Some text =>
          let maxRenderWidth := width - 4 in
          text ←
            (if maxRenderWidth <? len text then
               if maxRenderWidth <? 0 then None
               else Some (str_take maxRenderWidth text)
             else Some text);
          forEach (utf8.runes text)
            (fun '(j, ch) grid => assignInRow grid y (sx + j + 2) (mkCell ch color))
            grid
      | None => Some grid
      end;
    grid ← assignInRow grid y (sx + width - 2) (mkCell blank EmptyString);
    assignInRow grid y (sx + width - 1) (mkCell right' color).

Definition drawNode (m : Model) (grid : Grid) (node : Node) (isSelected : bool)
    : option Grid :=
  let '(sx, sy) :=
    Camera.WorldToScreen (mCamera m) (X node) (Y node) (mWidth m) (mHeight m - 1) in
  if (Z.of_nat (length grid) <=? sy) || (sy <? 0) then Some grid
  else
    let width := int_of_float (inject_Z (Width node) * Camera.Zoom (mCamera m))%Q in
    let height := int_of_float (inject_Z (Height node) * Camera.Zoom (mCamera m))%Q in
    if (width <? 3) || (height <? 2) then
      assignInRow grid sy sx (mkCell 9679 (* black circle *) (Color node))
    else
      let '(top, bottom, left', right') :=
        if isSelected then (9473, 9473, 9475, 9475) (* heavy lines *)
        else (9472, 9472, 9474, 9474) (* light lines *) in
      let '(topLeft, topRight, bottomLeft, bottomRight) :=
        if isSelected then (9487, 9491, 9495, 9499) (* heavy corners *)
        else (9581, 9582, 9584, 9583) (* rounded corners *) in
      grid ←
        (if isSelected then
           assignInRow grid sy (sx - 2) (mkCell 9654 (* pointer *) (Color node))
         else Some grid);
      grid ← drawBorder grid sy sx width topLeft top topRight (Color node);
      let lines := wrapText (Text node) 22 in
      grid ←
        forEach (seqZ 1 (height - 1 - 1))
          (drawRow lines sx sy width left' right' (Color node)) grid;
      drawBorder grid (sy + height - 1) sx width bottomLeft bottom bottomRight
        (Color node).

(** [ord] is the order in which the loop of [drawNodes] visits the map. *)
Definition drawNodes (ord : list string) (m : Model) (grid : Grid) : option Grid :=
  forEach (range ord (Nodes m))
    (fun '(id, node) grid => drawNode m grid node (bool_decide (id = Selected m)))
    grid.

(** [make([][]ColoredCell, h)] with rows of [w] blank cells; [make] panics
    on a negative length. *)
Definition blankGrid (h w : Z) : option Grid :=
  if (h <? 0) || (w <? 0) then None
  else Some (replicate (Z.to_nat h) (replicate (Z.to_nat w) (mkCell blank EmptyString))).

Section View.

Variable math_Sqrt : float64 -> float64.

(** The render pass of [View]: the grid that [View] turns into a string. It
    is made when the window has a size ([Width] and [Height] are not zero)
    and the help overlay is off: a blank grid of [Height - 1] rows, then the
    edges, then the nodes. *)
Definition View_grid (ord : list string) (m : Model) : option Grid :=
  grid ← blankGrid (mHeight m - 1) (mWidth m);
  grid ← drawEdges math_Sqrt m grid;
  drawNodes ord m grid.

(** The grid between the two passes of [View]. *)
Definition View_edges (m : Model) : option Grid :=
  grid ← blankGrid (mHeight m - 1) (mWidth m);
  drawEdges math_Sqrt m grid.

End View.

(** * Node sizing (node.go) *)

Example wrapText_two_words :
  wrapText two_line_text 22 = ["aaaaaaaaaaaa"; "bbbbbbbbbbbb"]%string.
Proof. reflexivity. Qed.

Example wrapText_packs :
  wrapText "one two three four five six seven" 22
  = ["one two three four"; "five six seven"]%string.
Proof. reflexivity. Qed.

Example wrapText_breaks_later_word :
  wrapText ("ab " +:+ long_word) 22
  = ["ab"; "aaaaaaaaaaaaaaaaaaaaaa"; "aaaaaaaa"]%string.
Proof. reflexivity. Qed.

Example calculateNodeSize_root : calculateNodeSize "Root Idea" = (13, 3).
Proof. reflexivity. Qed.

Example calculateNodeSize_two_lines : calculateNodeSize two_line_text = (16, 4).
Proof. reflexivity. Qed.

(** C4. The hard break of [wrapText] is only reached when the current line is
    not empty, so a word longer than the width that starts a paragraph is
    kept whole: at the budget of 22 the thirty bytes of [long_word] come back
    as one line of thirty bytes. *)
Theorem wrapText_first_word_not_broken :
  wrapText long_word maxTextWidth = [long_word]
  ∧ Exists (fun line => maxTextWidth < len line) (wrapText long_word maxTextWidth)
  ∧ fst (calculateNodeSize long_word) = 34.
Proof.
  split; [reflexivity|]. split; [|reflexivity].
  apply Exists_exists. exists long_word. split; [by left|reflexivity].
Qed.

(** ** Which lines can be longer than the width *)

Lemma length_append (s1 s2 : string) :
  String.length (s1 +:+ s2) = (String.length s1 + String.length s2)%nat.
Proof.
  induction s1 as [|c s1 IH]; [done|].
  change (S (String.length (s1 +:+ s2)) = S (String.length s1 + String.length s2)).
  by f_equal.
Qed.

Lemma length_substring s : ∀ n m,
  String.length (String.substring n m s) = (m `min` (String.length s - n))%nat.
Proof.
  induction s as [|c s IH]; intros [|n] [|m]; cbn; try done;
    rewrite IH; by rewrite ?Nat.sub_0_r.
Qed.

Lemma len_str_take n s : 0 <= n <= len s → len (str_take n s) = n.
Proof. unfold len, str_take. rewrite length_substring. lia. Qed.

Lemma len_str_drop n s : 0 <= n <= len s → len (str_drop n s) = len s - n.
Proof. unfold len, str_drop. rewrite length_substring. lia. Qed.

(** The loop that breaks a long word: every chunk has [maxWidth] bytes, and
    with fuel for the whole word the rest that is left is at most
    [maxWidth] bytes long and not empty. *)
Lemma breakLongWord_chunks maxWidth fuel :
  0 < maxWidth →
  ∀ word wrappedLines,
    (String.length word ≤ fuel)%nat →
    0 < len word →
    ∃ chunks rest,
      breakLongWord fuel maxWidth word wrappedLines = (wrappedLines ++ chunks, rest)
      ∧ Forall (fun line => len line = maxWidth) chunks
      ∧ 0 < len rest <= maxWidth.
Proof.
  intros Hmax. induction fuel as [|fuel IH]; intros word wrappedLines Hfuel Hword.
  - unfold len in Hword. lia.
  - cbn [breakLongWord]. destruct (Z.ltb_spec maxWidth (len word)) as [Hlong|Hshort].
    + destruct (IH (str_drop maxWidth word) (wrappedLines ++ [str_take maxWidth word]))
        as (chunks & rest & -> & Hchunks & Hrest).
      * pose proof (len_str_drop maxWidth word ltac:(lia)) as Hdrop.
        unfold len in *. lia.
      * rewrite len_str_drop by lia. lia.
      * exists (str_take maxWidth word :: chunks), rest.
        split; [by rewrite <- (assoc_L (++))|]. split; [|done].
        constructor; [|done]. apply len_str_take. lia.
    + exists [], word. rewrite app_nil_r.
      split; [done|]. split; [constructor|lia].
Qed.

Lemma length_string_of_list_ascii l :
  String.length (string_of_list_ascii l) = length l.
Proof. induction l as [|c l IH]; cbn; [done|by rewrite IH]. Qed.

(** The words that [strings.Fields] returns are not empty. *)
Lemma Fields_go_nonempty s : ∀ skip cur acc,
  Forall (fun word => 0 < len word) acc →
  Forall (fun word => 0 < len word) (GoStrings.Fields_go s skip cur acc).
Proof.
  assert (∀ cur acc, Forall (fun word => 0 < len word) acc →
            Forall (fun word => 0 < len word) (GoStrings.flush cur acc)) as Hflush.
  { intros [|c cur] acc Hacc; [done|]. unfold GoStrings.flush.
    apply Forall_app. split; [done|]. constructor; [|done].
    unfold len. rewrite length_string_of_list_ascii, length_rev. cbn. lia. }
  induction s as [|c s IH]; intros skip cur acc Hacc; cbn [GoStrings.Fields_go].
  - by apply Hflush.
  - destruct skip as [|skip]; [|by apply IH].
    destruct (GoStrings.space_width _); apply IH; [done|by apply Hflush].
Qed.

Lemma Fields_nonempty s :
  Forall (fun word => 0 < len word) (GoStrings.Fields s).
Proof. by apply Fields_go_nonempty. Qed.

(** One word more: the lines that are completed, and the line that is being
    filled, are within the width or are the first word of the paragraph. *)
Lemma wrapWord_lines maxWidth first wrappedLines currentLine word :
  0 < maxWidth → 0 < len word →
  (len currentLine = 0 → word = first) →
  (0 < len currentLine → len currentLine <= maxWidth ∨ currentLine = first) →
  ∃ new currentLine',
    wrapWord maxWidth (wrappedLines, currentLine) word
    = (wrappedLines ++ new, currentLine')
    ∧ Forall (fun line => len line <= maxWidth ∨ line = first) new
    ∧ 0 < len currentLine'
    ∧ (len currentLine' <= maxWidth ∨ currentLine' = first).
Proof.
  intros Hmax Hword Hfirst Hcur. unfold wrapWord.
  destruct (Z.ltb_spec 0 (len currentLine)) as [Hfull|Hempty]; cbn [andb].
  - destruct (Z.ltb_spec maxWidth (len currentLine + 1 + len word)) as [Hover|Hfits].
    + destruct (Z.ltb_spec maxWidth (len word)) as [Hlong|Hshort].
      * destruct (breakLongWord_chunks maxWidth (String.length word) Hmax word
                    (wrappedLines ++ [currentLine]))
          as (chunks & rest & -> & Hch & Hrest); [done..|].
        exists (currentLine :: chunks), rest.
        split; [by rewrite <- (assoc_L (++))|]. split; [|split; [lia|left; lia]].
        constructor; [by apply Hcur|].
        eapply Forall_impl; [exact Hch|]. intros line Hline. cbv beta in Hline.
        left. lia.
      * exists [currentLine], word. split; [done|].
        split; [|split; [done|left; lia]]. constructor; [by apply Hcur|done].
    + exists [], (currentLine +:+ " " +:+ word)%string. rewrite app_nil_r.
      split; [done|]. split; [done|].
      assert (len (currentLine +:+ " " +:+ word) = len currentLine + 1 + len word)
        as Hlen.
      { unfold len. rewrite !length_append.
        change (String.length " ") with 1%nat. lia. }
      rewrite Hlen. split; [lia|left; lia].
  - exists [], word. rewrite app_nil_r. split; [done|]. split; [done|].
    split; [done|]. right. apply Hfirst. unfold len in *. lia.
Qed.

Lemma fold_wrapWord_lines maxWidth first words :
  0 < maxWidth →
  Forall (fun word => 0 < len word) words →
  ∀ wrappedLines currentLine,
    0 < len currentLine →
    len currentLine <= maxWidth ∨ currentLine = first →
    ∃ new currentLine',
      fold_left (wrapWord maxWidth) words (wrappedLines, currentLine)
      = (wrappedLines ++ new, currentLine')
      ∧ Forall (fun line => len line <= maxWidth ∨ line = first) new
      ∧ 0 < len currentLine'
      ∧ (len currentLine' <= maxWidth ∨ currentLine' = first).
Proof.
  intros Hmax Hwords. induction Hwords as [|word words Hword _ IH];
    intros wrappedLines currentLine Hlen Hcur.
  - exists [], currentLine. by rewrite app_nil_r.
  - cbn [fold_left].
    destruct (wrapWord_lines maxWidth first wrappedLines currentLine word)
      as (new1 & cur1 & -> & Hnew1 & Hlen1 & Hcur1); [done|done|lia|done|].
    destruct (IH (wrappedLines ++ new1) cur1 Hlen1 Hcur1)
      as (new2 & cur2 & -> & Hnew2 & Hlen2 & Hcur2).
    exists (new1 ++ new2), cur2. split; [by rewrite (assoc_L (++))|].
    split; [by apply Forall_app|done].
Qed.

(** A paragraph adds lines that are within the width, or its first word. *)
Lemma wrapParagraph_lines maxWidth wrappedLines paragraph :
  0 < maxWidth →
  ∃ new,
    wrapParagraph maxWidth wrappedLines paragraph = wrappedLines ++ new
    ∧ Forall (fun line =>
                len line <= maxWidth
                ∨ head (GoStrings.Fields paragraph) = Some line) new.
Proof.
  intros Hmax. unfold wrapParagraph.
  assert (Forall (fun line => len line <= maxWidth
                    ∨ head (GoStrings.Fields paragraph) = Some line) [EmptyString])
    as Hblank by (constructor; [left; change (len EmptyString) with 0; lia|done]).
  destruct (len paragraph =? 0); [by exists [EmptyString]|].
  pose proof (Fields_nonempty paragraph) as Hwords.
  destruct (GoStrings.Fields paragraph) as [|first words];
    [by exists [EmptyString]|].
  assert ((Z.of_nat (length (first :: words)) =? 0) = false) as ->
    by (apply Z.eqb_neq; cbn [length]; lia).
  apply Forall_cons in Hwords as [Hfirst Hwords]. cbn [fold_left head].
  destruct (wrapWord_lines maxWidth first wrappedLines EmptyString first)
    as (new1 & cur1 & -> & Hnew1 & Hlen1 & Hcur1);
    [done|done|done|change (len EmptyString) with 0; lia|].
  destruct (fold_wrapWord_lines maxWidth first words Hmax Hwords
              (wrappedLines ++ new1) cur1 Hlen1 Hcur1)
    as (new2 & cur2 & -> & Hnew2 & Hlen2 & Hcur2).
  apply Z.ltb_lt in Hlen2 as Hlt. rewrite Hlt.
  exists (new1 ++ new2 ++ [cur2]). split; [by rewrite !(assoc_L (++))|].
  assert (∀ l, Forall (fun line => len line <= maxWidth ∨ line = first) l →
            Forall (fun line => len line <= maxWidth ∨ Some first = Some line) l)
    as Himpl.
  { intros l Hl. eapply Forall_impl; [exact Hl|].
    intros line [Hfit|Heq]; [by left|right; by rewrite Heq]. }
  apply Forall_app. split; [by apply Himpl|].
  apply Forall_app. split; [by apply Himpl|]. apply Himpl. by constructor.
Qed.

(** The lines of [wrapText] that are longer than the width are first words
    of paragraphs: every other line fits. *)
Lemma wrapText_long_lines text maxWidth line :
  line ∈ wrapText text maxWidth →
  (if maxWidth <? 5 then 5 else maxWidth) < len line →
  ∃ paragraph,
    paragraph ∈ GoStrings.Split_newline text
    ∧ head (GoStrings.Fields paragraph) = Some line.
Proof.
  unfold wrapText. set (width := if maxWidth <? 5 then 5 else maxWidth).
  assert (0 < width) as Hwidth by (subst width; destruct (Z.ltb_spec maxWidth 5); lia).
  assert (∀ paragraphs wrappedLines,
            ∃ new,
              fold_left (wrapParagraph width) paragraphs wrappedLines
              = wrappedLines ++ new
              ∧ Forall (fun line =>
                          len line <= width
                          ∨ ∃ paragraph, paragraph ∈ paragraphs
                              ∧ head (GoStrings.Fields paragraph) = Some line) new)
    as Hfold.
  { induction paragraphs as [|paragraph paragraphs IH]; intros wrappedLines.
    - exists []. by rewrite app_nil_r.
    - cbn [fold_left].
      destruct (wrapParagraph_lines width wrappedLines paragraph Hwidth)
        as (new1 & -> & Hnew1).
      destruct (IH (wrappedLines ++ new1)) as (new2 & -> & Hnew2).
      exists (new1 ++ new2). split; [by rewrite (assoc_L (++))|].
      apply Forall_app. split.
      + eapply Forall_impl; [exact Hnew1|]. intros l [?|Hl]; [by left|].
        right. exists paragraph. split; [left|done].
      + eapply Forall_impl; [exact Hnew2|]. intros l [?|(p & Hp & Hl)]; [by left|].
        right. exists p. split; [by right|done]. }
  destruct (Hfold (GoStrings.Split_newline text) []) as (new & -> & Hnew).
  rewrite app_nil_l. intros Hin Hlong.
  destruct (Z.of_nat (length new) =? 0).
  - apply list_elem_of_singleton in Hin as ->.
    change (len EmptyString) with 0 in Hlong. lia.
  - rewrite Forall_forall in Hnew. destruct (Hnew line Hin) as [?|?]; [lia|done].
Qed.

(** * Loading a document (persistence.go) *)

(** [LoadFromFile] installs the decoded nodes as they are. *)
Lemma LoadFromFile_Decoded scan ord data m :
  ∃ m', LoadFromFile scan ord (Decoded data) m = inr m'
        ∧ Nodes m' = dNodes data
        ∧ Edges m' = dEdges data
        ∧ NextColorIndex m' = NextColorIndex m
        ∧ ColorPalette m' = ColorPalette m.
Proof.
  unfold LoadFromFile. eexists. split; [reflexivity|].
  cbn [Nodes Edges NextColorIndex ColorPalette Model_with_NextID].
  case_decide; [destruct (range ord _) as [|[id n] l]|]; done.
Qed.

(** C1, as stated, fails: the node of [stale_file] is stored with the size
    99 by 99, its text has the size 10 by 3, and the loaded node still has
    the stored size. *)
Lemma LoadFromFile_recomputes_size_counterexample :
  ∃ m' n,
    LoadFromFile scanDecimal ["0"]%string (Decoded stale_file) NewModel = inr m'
    ∧ Nodes m' !! "0"%string = Some n
    ∧ calculateNodeSize (Text n) = (10, 3)
    ∧ (Width n, Height n) = (99, 99)
    ∧ (Width n, Height n) ≠ calculateNodeSize (Text n).
Proof.
  eexists _, stale_node. split; [reflexivity|].
  split; [reflexivity|]. split; [reflexivity|]. split; [reflexivity|].
  discriminate.
Qed.

(** C1, amended. After a successful [LoadFromFile] the nodes of the document
    are the nodes of the file, each with the width and the height stored
    there; a node has the size of its text exactly when the file stored that
    size. *)
Theorem LoadFromFile_keeps_stored_size scan ord data m :
  ∃ m', LoadFromFile scan ord (Decoded data) m = inr m'
        ∧ (∀ id, Nodes m' !! id = dNodes data !! id)
        ∧ (∀ id n, Nodes m' !! id = Some n →
             ∃ stored, dNodes data !! id = Some stored
                       ∧ Width n = Width stored ∧ Height n = Height stored
                       ∧ ((Width n, Height n) = calculateNodeSize (Text n)
                          ↔ (Width stored, Height stored)
                            = calculateNodeSize (Text stored))).
Proof.
  destruct (LoadFromFile_Decoded scan ord data m) as (m' & Hload & Hnodes & _).
  exists m'. split; [done|]. split; [intros id; by rewrite Hnodes|].
  intros id n Hn. exists n. by rewrite <- Hnodes.
Qed.

(** * The camera transform (camera.go) *)

Local Open Scope Q_scope.

Lemma inject_Z_pred z : inject_Z (z - 1) == inject_Z z - 1.
Proof. unfold Z.sub. rewrite inject_Z_plus. reflexivity. Qed.

Lemma inject_Z_succ z : inject_Z (z + 1) == inject_Z z + 1.
Proof. rewrite inject_Z_plus. reflexivity. Qed.

(** [math.Round] moves a number by at most one half. *)
Lemma math_Round_error x : Qabs (inject_Z (math_Round x) - x) <= 1 # 2.
Proof.
  apply Qabs_Qle_condition. unfold math_Round.
  destruct (Qlt_le_dec x 0) as [Hneg|Hpos].
  - pose proof (Qle_ceiling (x - (1 # 2))) as Hle.
    pose proof (Qceiling_lt (x - (1 # 2))) as Hlt.
    rewrite inject_Z_pred in Hlt. split; lra.
  - pose proof (Qfloor_le (x + (1 # 2))) as Hle.
    pose proof (Qlt_floor (x + (1 # 2))) as Hlt.
    rewrite inject_Z_succ in Hlt. split; lra.
Qed.

(** [math.Round] leaves integers alone. *)
Lemma math_Round_integer x z : x == inject_Z z → math_Round x = z.
Proof.
  intros Hx. unfold math_Round.
  destruct (Qlt_le_dec x 0) as [Hneg|Hpos].
  - pose proof (Qle_ceiling (x - (1 # 2))) as Hle.
    pose proof (Qceiling_lt (x - (1 # 2))) as Hlt.
    rewrite inject_Z_pred in Hlt.
    set (r := Qceiling (x - (1 # 2))) in *.
    assert (inject_Z z - 1 < inject_Z r) as H1 by lra.
    assert (inject_Z r < inject_Z z + 1) as H2 by lra.
    rewrite <- inject_Z_pred, <- Zlt_Qlt in H1.
    rewrite <- inject_Z_succ, <- Zlt_Qlt in H2. lia.
  - pose proof (Qfloor_le (x + (1 # 2))) as Hle.
    pose proof (Qlt_floor (x + (1 # 2))) as Hlt.
    rewrite inject_Z_succ in Hlt.
    set (r := Qfloor (x + (1 # 2))) in *.
    assert (inject_Z z - 1 < inject_Z r) as H1 by lra.
    assert (inject_Z r < inject_Z z + 1) as H2 by lra.
    rewrite <- inject_Z_pred, <- Zlt_Qlt in H1.
    rewrite <- inject_Z_succ, <- Zlt_Qlt in H2. lia.
Qed.

Local Close Scope Q_scope.

(** * float64 rounding *)

Local Open Scope Q_scope.

Lemma pow2_pos e : 0 < F64.pow2 e.
Proof. apply Qpower_0_lt. reflexivity. Qed.

Lemma pow2_plus a b : F64.pow2 (a + b) == F64.pow2 a * F64.pow2 b.
Proof. apply Qpower_plus. discriminate. Qed.

Lemma pow2_succ a : F64.pow2 (a + 1) == 2 * F64.pow2 a.
Proof. rewrite pow2_plus. change (F64.pow2 1) with 2. ring. Qed.

Lemma pow2_pred a : F64.pow2 (a - 1) == F64.pow2 a * (1 # 2).
Proof.
  assert (F64.pow2 a == F64.pow2 (a - 1 + 1)) as -> by (by replace (a - 1 + 1)%Z with a by lia).
  rewrite pow2_succ. ring.
Qed.

Lemma pow2_le a b : (a <= b)%Z → F64.pow2 a <= F64.pow2 b.
Proof. intros Hab. apply Qpower_le_compat_l; [exact Hab|discriminate]. Qed.

Lemma pow2_le_inv a b : F64.pow2 a <= F64.pow2 b → (a <= b)%Z.
Proof. intros Hab. eapply Qpower_le_compat_l_inv; [exact Hab|reflexivity]. Qed.

Lemma pow2_lt_inv a b : F64.pow2 a < F64.pow2 b → (a < b)%Z.
Proof. intros Hab. eapply Qpower_lt_compat_l_inv; [exact Hab|reflexivity]. Qed.

Lemma pow2_inject_Z n : (0 <= n)%Z → F64.pow2 n == inject_Z (2 ^ n).
Proof. intros Hn. symmetry. by apply Zpower_Qpower. Qed.

Lemma pow2_sub a b : F64.pow2 (a - b) * F64.pow2 b == F64.pow2 a.
Proof. rewrite <- pow2_plus. by replace (a - b + b)%Z with a by lia. Qed.

Lemma ratio_between L A B N D q :
  0 < L → 0 < B → L * B == A → A <= N → N < 2 * A → B <= D → D < 2 * B →
  q * D == N →
  L * (1 # 2) < q < 2 * L.
Proof.
  intros HL HB HA Ha1 Ha2 Hb1 Hb2 Hmul.
  assert (0 < D) as HD by lra. split.
  - apply (Qmult_lt_r _ _ D HD). rewrite Hmul.
    apply Qlt_le_trans with A; [|exact Ha1]. rewrite <- HA.
    assert (L * D < L * (2 * B)) by (apply Qmult_lt_l; lra). lra.
  - apply (Qmult_lt_r _ _ D HD). rewrite Hmul.
    apply Qlt_le_trans with (2 * A); [exact Ha2|]. rewrite <- HA.
    assert (L * B <= L * D) by (apply Qmult_le_l; lra). lra.
Qed.

(** [floor_log2] is the integer part of the binary logarithm. *)
Lemma floor_log2_spec x :
  0 < x → F64.pow2 (F64.floor_log2 x) <= x < F64.pow2 (F64.floor_log2 x + 1).
Proof.
  intros Hx. destruct x as [n d]. unfold F64.floor_log2. cbn [Qnum Qden].
  assert (0 < n)%Z as Hn by (unfold Qlt in Hx; cbn in Hx; lia).
  set (a := Z.log2 n). set (b := Z.log2 (Z.pos d)).
  pose proof (Z.log2_spec n Hn) as [Ha1 Ha2]. fold a in Ha1, Ha2.
  pose proof (Z.log2_spec (Z.pos d) ltac:(lia)) as [Hb1 Hb2]. fold b in Hb1, Hb2.
  pose proof (Z.log2_nonneg n) as Ha0. fold a in Ha0.
  pose proof (Z.log2_nonneg (Z.pos d)) as Hb0. fold b in Hb0.
  rewrite Zle_Qle in Ha1, Hb1. rewrite Zlt_Qlt in Ha2, Hb2.
  replace (Z.succ a) with (a + 1)%Z in Ha2 by lia.
  replace (Z.succ b) with (b + 1)%Z in Hb2 by lia.
  rewrite <- pow2_inject_Z in Ha1, Ha2, Hb1, Hb2 by lia.
  rewrite pow2_succ in Ha2, Hb2.
  assert ((n # d) * inject_Z (Z.pos d) == inject_Z n) as Hmul.
  { rewrite (Qmake_Qdiv n d). field. lra. }
  pose proof (ratio_between _ _ _ _ _ _ (pow2_pos (a - b)) (pow2_pos b)
                (pow2_sub a b) Ha1 Ha2 Hb1 Hb2 Hmul) as [Hlow Hup].
  destruct (Qle_bool (F64.pow2 (a - b)) (n # d)) eqn:Hle.
  - apply Qle_bool_iff in Hle. rewrite pow2_succ. split; lra.
  - assert (¬ F64.pow2 (a - b) <= n # d) as Hnle
      by (rewrite <- Qle_bool_iff; congruence).
    replace (a - b - 1 + 1)%Z with (a - b)%Z by lia.
    rewrite pow2_pred. split; lra.
Qed.

Lemma floor_log2_le x k : 0 < x → x <= F64.pow2 k → (F64.floor_log2 x <= k)%Z.
Proof.
  intros Hx Hk. destruct (floor_log2_spec x Hx) as [Hlow _].
  apply pow2_le_inv. lra.
Qed.

Lemma floor_log2_mono x y :
  0 < x → x <= y → (F64.floor_log2 x <= F64.floor_log2 y)%Z.
Proof.
  intros Hx Hxy. destruct (floor_log2_spec x Hx) as [Hlow _].
  destruct (floor_log2_spec y ltac:(lra)) as [_ Hup].
  assert (F64.floor_log2 x < F64.floor_log2 y + 1)%Z; [|lia].
  apply pow2_lt_inv. lra.
Qed.


Lemma inject_Z_sub n m : inject_Z (n - m) == inject_Z n - inject_Z m.
Proof. unfold Z.sub. rewrite inject_Z_plus, inject_Z_opp. reflexivity. Qed.

Lemma inject_Z_lt_1 n m : inject_Z n - inject_Z m < 1 → (n <= m)%Z.
Proof.
  intros H. assert (inject_Z n < inject_Z (m + 1)) as Hlt
    by (rewrite inject_Z_plus; change (inject_Z 1) with 1; lra).
  rewrite <- Zlt_Qlt in Hlt. lia.
Qed.

Lemma round_half_even_nearest y : nearest_even y (F64.round_half_even y).
Proof.
  unfold nearest_even, F64.round_half_even.
  pose proof (Qfloor_le y) as Hle. pose proof (Qlt_floor y) as Hlt.
  rewrite inject_Z_plus in Hlt. change (inject_Z 1) with 1 in Hlt.
  set (f := Qfloor y) in *.
  destruct (Qcompare_spec (y - inject_Z f) (1 # 2)) as [Heq|Hless|Hmore].
  - right. destruct (Z.even f) eqn:Heven.
    + split; [|exact Heven]. rewrite Qabs_neg by lra. lra.
    + split.
      * rewrite inject_Z_plus. change (inject_Z 1) with 1.
        rewrite Qabs_pos by lra. lra.
      * replace (f + 1)%Z with (Z.succ f) by lia.
        rewrite Z.even_succ, <- Z.negb_even, Heven. reflexivity.
  - left. apply Qabs_Qlt_condition. split; lra.
  - left. rewrite inject_Z_plus. change (inject_Z 1) with 1.
    apply Qabs_Qlt_condition. split; lra.
Qed.

Lemma nearest_even_error y n : nearest_even y n → Qabs (inject_Z n - y) <= 1 # 2.
Proof. intros [Hlt|[Heq _]]; [lra|rewrite Heq; apply Qle_refl]. Qed.

Lemma nearest_even_unique y n m : nearest_even y n → nearest_even y m → n = m.
Proof.
  intros Hn Hm.
  pose proof (nearest_even_error y n Hn) as Hn'.
  pose proof (nearest_even_error y m Hm) as Hm'.
  apply Qabs_Qle_condition in Hn', Hm'.
  destruct Hn as [Hn|[Hn Hne]].
  { apply Qabs_Qlt_condition in Hn.
    assert (n <= m)%Z by (apply inject_Z_lt_1; lra).
    assert (m <= n)%Z by (apply inject_Z_lt_1; lra). lia. }
  destruct Hm as [Hm|[Hm Hme]].
  { apply Qabs_Qlt_condition in Hm.
    assert (n <= m)%Z by (apply inject_Z_lt_1; lra).
    assert (m <= n)%Z by (apply inject_Z_lt_1; lra). lia. }
  assert (n <= m + 1)%Z.
  { apply inject_Z_lt_1. rewrite inject_Z_plus. change (inject_Z 1) with 1. lra. }
  assert (m <= n + 1)%Z.
  { apply inject_Z_lt_1. rewrite inject_Z_plus. change (inject_Z 1) with 1. lra. }
  apply Z.even_spec in Hne as [a ->]. apply Z.even_spec in Hme as [b ->]. lia.
Qed.

Lemma round_half_even_error y :
  Qabs (inject_Z (F64.round_half_even y) - y) <= 1 # 2.
Proof. apply nearest_even_error, round_half_even_nearest. Qed.

Lemma round_half_even_opp y :
  F64.round_half_even (- y) = (- F64.round_half_even y)%Z.
Proof.
  apply (nearest_even_unique (- y)); [apply round_half_even_nearest|].
  destruct (round_half_even_nearest y) as [Hlt|[Heq Heven]].
  - left. rewrite inject_Z_opp.
    assert (- inject_Z (F64.round_half_even y) - - y
            == - (inject_Z (F64.round_half_even y) - y)) as -> by ring.
    by rewrite Qabs_opp.
  - right. rewrite inject_Z_opp.
    assert (- inject_Z (F64.round_half_even y) - - y
            == - (inject_Z (F64.round_half_even y) - y)) as -> by ring.
    rewrite Qabs_opp. split; [exact Heq|]. by rewrite Z.even_opp.
Qed.

Lemma round_half_even_integer n : F64.round_half_even (inject_Z n) = n.
Proof.
  apply (nearest_even_unique (inject_Z n)); [apply round_half_even_nearest|].
  left. assert (inject_Z n - inject_Z n == 0) as -> by ring. reflexivity.
Qed.

(** An integer above [y] is above its rounding, and likewise below. *)
Lemma round_half_even_le y n : y <= inject_Z n → (F64.round_half_even y <= n)%Z.
Proof.
  intros Hy. unfold F64.round_half_even.
  pose proof (Qfloor_le y) as Hle. set (f := Qfloor y) in *.
  assert (f <= n)%Z as Hfn by (rewrite Zle_Qle; lra).
  assert (f = n → y == inject_Z f) as Hint by (intros ->; lra).
  destruct (Qcompare_spec (y - inject_Z f) (1 # 2)) as [Heq|Hless|Hmore].
  - destruct (Z.even f); [exact Hfn|].
    destruct (decide (f = n)) as [Hf|Hf]; [apply Hint in Hf; lra|lia].
  - exact Hfn.
  - destruct (decide (f = n)) as [Hf|Hf]; [apply Hint in Hf; lra|lia].
Qed.

Lemma round_half_even_ge y n : inject_Z n <= y → (n <= F64.round_half_even y)%Z.
Proof.
  intros Hy. assert (F64.round_half_even (- y) <= - n)%Z as H.
  { apply round_half_even_le. rewrite inject_Z_opp. lra. }
  rewrite round_half_even_opp in H. lia.
Qed.

Lemma round_half_even_mono x y :
  x <= y → (F64.round_half_even x <= F64.round_half_even y)%Z.
Proof.
  intros Hxy.
  destruct (Z_lt_le_dec (Qfloor x) (Qfloor y)) as [Hlt|Hge].
  - transitivity (Qfloor y).
    + apply round_half_even_le. pose proof (Qlt_floor x) as Hx.
      assert (Qfloor x + 1 <= Qfloor y)%Z as Hz by lia.
      rewrite Zle_Qle in Hz. lra.
    + apply round_half_even_ge, Qfloor_le.
  - assert (Qfloor x = Qfloor y) as Hf
      by (pose proof (Qfloor_resp_le x y Hxy); lia).
    unfold F64.round_half_even. rewrite Hf. set (f := Qfloor y) in *.
    destruct (Qcompare_spec (x - inject_Z f) (1 # 2)) as [Hx|Hx|Hx];
      destruct (Qcompare_spec (y - inject_Z f) (1 # 2)) as [Hy|Hy|Hy];
      try destruct (Z.even f); try lia; lra.
Qed.

Lemma round_zero x : x == 0 → F64.round x = 0.
Proof.
  intros Hx. unfold F64.round.
  by assert (Qeq_bool x 0 = true) as -> by (by apply Qeq_bool_iff).
Qed.

(** The value of [round x]: a multiple of the quantum of [x]. *)
Lemma round_value x :
  ¬ x == 0 →
  F64.round x
  == inject_Z (F64.round_half_even (x / F64.pow2 (F64.ulp_exponent x)))
     * F64.pow2 (F64.ulp_exponent x).
Proof.
  intros Hx. unfold F64.round.
  assert (Qeq_bool x 0 = false) as ->.
  { destruct (Qeq_bool x 0) eqn:H; [|done]. by apply Qeq_bool_iff in H. }
  apply Qred_correct.
Qed.

Lemma Qabs_pos_neq x : ¬ x == 0 → 0 < Qabs x.
Proof.
  intros Hx. destruct (Qlt_le_dec 0 x) as [Hpos|Hle].
  - rewrite Qabs_pos; lra.
  - destruct (Qlt_le_dec x 0) as [Hneg|Hge].
    + rewrite Qabs_neg; lra.
    + destruct Hx. lra.
Qed.

(** The rounding error is at most half the quantum. *)
Lemma round_error_ulp x :
  ¬ x == 0 →
  Qabs (F64.round x - x) <= F64.pow2 (F64.ulp_exponent x) * (1 # 2).
Proof.
  intros Hx. rewrite (round_value x Hx).
  set (e := F64.ulp_exponent x). pose proof (pow2_pos e) as HP.
  set (y := x / F64.pow2 e).
  assert (inject_Z (F64.round_half_even y) * F64.pow2 e - x
          == (inject_Z (F64.round_half_even y) - y) * F64.pow2 e) as ->.
  { unfold y. field. lra. }
  rewrite Qabs_Qmult, (Qabs_pos (F64.pow2 e)) by lra.
  rewrite (Qmult_comm (F64.pow2 e)).
  apply Qmult_le_compat_r; [apply round_half_even_error|lra].
Qed.

Lemma ulp_exponent_le x k :
  ¬ x == 0 → Qabs x <= F64.pow2 k → (-1074 <= k)%Z →
  (F64.ulp_exponent x <= k)%Z ∧ ((-1022 <= k)%Z → (F64.ulp_exponent x <= k - 52)%Z).
Proof.
  intros Hx Hk Hmin. unfold F64.ulp_exponent.
  pose proof (floor_log2_le (Qabs x) k (Qabs_pos_neq x Hx) Hk). lia.
Qed.

(** The standard model of floating-point arithmetic, in absolute form: a
    number of magnitude at most [2^k], in the normal range, is rounded with
    an error of at most [2^(k-53)]. *)
Lemma round_error x k :
  (-1022 <= k)%Z → Qabs x <= F64.pow2 k → Qabs (F64.round x - x) <= F64.pow2 (k - 53).
Proof.
  intros Hmin Hk. destruct (Qeq_dec x 0) as [Hx|Hx].
  - rewrite (round_zero x Hx).
    assert (0 - x == 0) as -> by lra. pose proof (pow2_pos (k - 53)).
    change (Qabs 0) with 0. lra.
  - eapply Qle_trans; [by apply round_error_ulp|].
    destruct (ulp_exponent_le x k Hx Hk ltac:(lia)) as [_ He].
    specialize (He Hmin).
    rewrite <- pow2_pred. apply pow2_le. lia.
Qed.

(** Rounding does not leave an interval whose ends are powers of two. *)
Lemma round_bound x k :
  (-1074 <= k)%Z → Qabs x <= F64.pow2 k → Qabs (F64.round x) <= F64.pow2 k.
Proof.
  intros Hmin Hk. destruct (Qeq_dec x 0) as [Hx|Hx].
  - rewrite (round_zero x Hx). pose proof (pow2_pos k).
    change (Qabs 0) with 0. lra.
  - rewrite (round_value x Hx).
    destruct (ulp_exponent_le x k Hx Hk Hmin) as [He _].
    set (e := F64.ulp_exponent x) in *. pose proof (pow2_pos e) as HP.
    set (y := x / F64.pow2 e).
    pose proof (pow2_sub k e) as Hsub.
    rewrite (pow2_inject_Z (k - e)) in Hsub by lia.
    set (N := (2 ^ (k - e))%Z) in *.
    apply Qabs_Qle_condition in Hk.
    assert (y <= inject_Z N) as Hup.
    { unfold y. apply Qle_shift_div_r; [exact HP|]. lra. }
    assert (inject_Z (- N) <= y) as Hlow.
    { unfold y. rewrite inject_Z_opp. apply Qle_shift_div_l; [exact HP|]. lra. }
    apply round_half_even_le in Hup. apply round_half_even_ge in Hlow.
    rewrite Zle_Qle in Hup, Hlow. rewrite inject_Z_opp in Hlow.
    rewrite <- Hsub. apply Qabs_Qle_condition.
    set (r := inject_Z (F64.round_half_even y)) in *. clearbody r.
    assert (- inject_Z N * F64.pow2 e <= r * F64.pow2 e)
      by (apply Qmult_le_compat_r; lra).
    assert (r * F64.pow2 e <= inject_Z N * F64.pow2 e)
      by (apply Qmult_le_compat_r; lra).
    split; lra.
Qed.

(** Integers up to [2^53] are values of the format. *)
Lemma round_integer n :
  (Z.abs n <= 2 ^ 53)%Z → F64.round (inject_Z n) == inject_Z n.
Proof.
  intros Hn. destruct (decide (n = 0%Z)) as [->|Hn0]; [reflexivity|].
  assert (¬ inject_Z n == 0) as Hx.
  { intros H. apply Hn0. apply inject_Z_injective. exact H. }
  rewrite (round_value _ Hx).
  assert (Qabs (inject_Z n) <= F64.pow2 53) as Hk.
  { rewrite pow2_inject_Z by lia. apply Qabs_Qle_condition.
    rewrite <- inject_Z_opp, <- !Zle_Qle. lia. }
  destruct (ulp_exponent_le _ 53 Hx Hk ltac:(lia)) as [_ He].
  specialize (He ltac:(lia)).
  set (e := F64.ulp_exponent (inject_Z n)) in *.
  assert (-1074 <= e)%Z as Hmin by (unfold e, F64.ulp_exponent; lia).
  pose proof (pow2_pos e) as HP.
  destruct (Z_le_gt_dec e 0) as [Hneg|Hpos].
  - assert (inject_Z n / F64.pow2 e == inject_Z (n * 2 ^ (- e))) as Hy.
    { rewrite inject_Z_mult, <- pow2_inject_Z by lia.
      unfold F64.pow2. rewrite Qpower_opp. field.
      fold (F64.pow2 e). lra. }
    assert (F64.round_half_even (inject_Z n / F64.pow2 e) = (n * 2 ^ (- e))%Z) as ->.
    { apply (nearest_even_unique (inject_Z n / F64.pow2 e));
        [apply round_half_even_nearest|].
      left. rewrite Hy.
      assert (inject_Z (n * 2 ^ (- e)) - inject_Z (n * 2 ^ (- e)) == 0) as -> by ring.
      reflexivity. }
    rewrite inject_Z_mult, <- pow2_inject_Z by lia.
    unfold F64.pow2. rewrite Qpower_opp. field. fold (F64.pow2 e). lra.
  - assert (e = 1)%Z as He1 by lia.
    assert (Z.abs n = 2 ^ 53)%Z as Habs.
    { destruct (Z_lt_le_dec (Z.abs n) (2 ^ 53)) as [Hlt|Hge]; [|lia].
      exfalso.
      destruct (floor_log2_spec (Qabs (inject_Z n)) (Qabs_pos_neq _ Hx)) as [Hlow _].
      assert (F64.floor_log2 (Qabs (inject_Z n)) = 53)%Z as Hfl
        by (unfold e, F64.ulp_exponent in He1; lia).
      rewrite Hfl in Hlow. rewrite pow2_inject_Z in Hlow by lia.
      assert (Qabs (inject_Z n) == inject_Z (Z.abs n)) as Hq by reflexivity.
      rewrite Hq, <- Zle_Qle in Hlow. lia. }
    rewrite He1.
    assert (inject_Z n / F64.pow2 1 == inject_Z (n / 2)) as Hy.
    { assert (n = 2 * (n / 2))%Z as Hdiv
        by (destruct (Z.abs_spec n) as [[_ E]|[_ E]]; rewrite E in Habs;
            [rewrite Habs; reflexivity|
             replace n with (- 2 ^ 53)%Z by lia; reflexivity]).
      rewrite Hdiv at 1. rewrite inject_Z_mult. change (F64.pow2 1) with 2.
      change (inject_Z 2) with 2. field. }
    assert (F64.round_half_even (inject_Z n / F64.pow2 1) = (n / 2)%Z) as ->.
    { apply (nearest_even_unique (inject_Z n / F64.pow2 1));
        [apply round_half_even_nearest|].
      left. rewrite Hy.
      assert (inject_Z (n / 2) - inject_Z (n / 2) == 0) as -> by ring.
      reflexivity. }
    rewrite <- Hy. change (F64.pow2 1) with 2. field.
Qed.

Lemma round_half_even_comp y y' :
  y == y' → F64.round_half_even y = F64.round_half_even y'.
Proof.
  intros Hy. apply (nearest_even_unique y'); [|apply round_half_even_nearest].
  pose proof (round_half_even_nearest y) as H. unfold nearest_even in *.
  by rewrite <- Hy.
Qed.

Lemma Qabs_Qopp x : Qabs (- x) = Qabs x.
Proof. destruct x as [n d]. unfold Qabs, Qopp. cbn. by rewrite Z.abs_opp. Qed.

(** Rounding is symmetric about zero. *)
Lemma round_opp x : F64.round (- x) == - F64.round x.
Proof.
  destruct (Qeq_dec x 0) as [Hx|Hx].
  - rewrite (round_zero x Hx), (round_zero (- x)); [reflexivity|lra].
  - assert (¬ - x == 0) as Hx' by (intros H; apply Hx; lra).
    rewrite (round_value _ Hx), (round_value _ Hx').
    unfold F64.ulp_exponent. rewrite Qabs_Qopp.
    fold (F64.ulp_exponent x). set (e := F64.ulp_exponent x).
    pose proof (pow2_pos e) as HP.
    rewrite (round_half_even_comp (- x / F64.pow2 e) (- (x / F64.pow2 e)))
      by (field; lra).
    rewrite round_half_even_opp, inject_Z_opp. ring.
Qed.

Lemma round_nonneg x : 0 <= x → 0 <= F64.round x.
Proof.
  intros Hx. destruct (Qeq_dec x 0) as [H0|H0].
  - rewrite (round_zero x H0). apply Qle_refl.
  - rewrite (round_value _ H0). set (e := F64.ulp_exponent x).
    pose proof (pow2_pos e) as HP.
    apply Qmult_le_0_compat; [|lra].
    change 0 with (inject_Z 0). rewrite <- Zle_Qle.
    apply round_half_even_ge. change (inject_Z 0) with 0.
    apply Qle_shift_div_l; [exact HP|]. lra.
Qed.

Lemma round_mono_pos x y : 0 < x → x <= y → F64.round x <= F64.round y.
Proof.
  intros Hx Hxy.
  assert (¬ x == 0) as Hx0 by (intros H; lra).
  assert (¬ y == 0) as Hy0 by (intros H; lra).
  assert (Qabs x == x) as Hax by (apply Qabs_pos; lra).
  assert (Qabs y == y) as Hay by (apply Qabs_pos; lra).
  assert (0 < Qabs x) as Hpx by lra.
  assert (0 < Qabs y) as Hpy by lra.
  pose proof (floor_log2_mono (Qabs x) (Qabs y) Hpx ltac:(lra)) as Hfl.
  destruct (floor_log2_spec _ Hpx) as [_ Hxup].
  destruct (floor_log2_spec _ Hpy) as [Hylow _].
  destruct (decide (F64.ulp_exponent x = F64.ulp_exponent y)) as [Heq|Hne].
  - rewrite (round_value _ Hx0), (round_value _ Hy0), Heq.
    set (e := F64.ulp_exponent y). pose proof (pow2_pos e) as HP.
    apply Qmult_le_compat_r; [|lra]. rewrite <- Zle_Qle.
    apply round_half_even_mono.
    apply Qle_shift_div_l; [exact HP|].
    assert (x / F64.pow2 e * F64.pow2 e == x) as -> by (field; lra). exact Hxy.
  - set (fx := F64.floor_log2 (Qabs x)) in *.
    set (fy := F64.floor_log2 (Qabs y)) in *.
    assert (fx < fy ∧ -1074 < fy - 52)%Z as [Hlt Hnormal]
      by (unfold F64.ulp_exponent in Hne; fold fx fy in Hne; lia).
    apply Qle_trans with (F64.pow2 fy).
    + assert (Qabs (F64.round x) <= F64.pow2 fy) as Hb.
      { apply round_bound; [lia|].
        pose proof (pow2_le (fx + 1) fy ltac:(lia)). lra. }
      apply Qabs_Qle_condition in Hb. lra.
    + rewrite (round_value _ Hy0).
      assert (F64.ulp_exponent y = fy - 52)%Z as ->
        by (unfold F64.ulp_exponent; fold fy; lia).
      pose proof (pow2_pos (fy - 52)) as HP.
      pose proof (pow2_sub fy (fy - 52)) as Hsub.
      replace (fy - (fy - 52))%Z with 52%Z in Hsub by lia.
      rewrite <- Hsub at 1.
      apply Qmult_le_compat_r; [|lra].
      rewrite pow2_inject_Z by lia. rewrite <- Zle_Qle.
      apply round_half_even_ge. rewrite <- pow2_inject_Z by lia.
      apply Qle_shift_div_l; [exact HP|]. rewrite Hsub. lra.
Qed.

(** Rounding is monotone. *)
Lemma round_mono x y : x <= y → F64.round x <= F64.round y.
Proof.
  intros Hxy. destruct (Qlt_le_dec 0 x) as [Hx|Hx].
  - by apply round_mono_pos.
  - destruct (Qlt_le_dec y 0) as [Hy|Hy].
    + assert (F64.round (- y) <= F64.round (- x)) as H
        by (apply round_mono_pos; lra).
      rewrite !round_opp in H. lra.
    + pose proof (round_nonneg y Hy).
      assert (0 <= F64.round (- x)) as H' by (apply round_nonneg; lra).
      rewrite round_opp in H'. lra.
Qed.

Local Close Scope Q_scope.

(** * The camera transform with rounding (camera.go) *)

Local Open Scope Q_scope.

(** [rounds x k E B]: for a number [x] of magnitude at most [2^k], the
    error of [round x] and the bound of [round x], as linear facts. *)
Ltac rounds x k E B :=
  let H := fresh "H" in
  let b := eval vm_compute in (F64.pow2 k) in
  let e := eval vm_compute in (F64.pow2 (k - 53)) in
  assert (Qabs x <= b) as H by (apply Qabs_Qle_condition; split; (lra || nra));
  pose proof (round_error x k ltac:(lia) H) as E;
  pose proof (round_bound x k ltac:(lia) H) as B;
  change (F64.pow2 (k - 53)) with e in E;
  change (F64.pow2 k) with b in B;
  apply Qabs_Qle_condition in E; apply Qabs_Qle_condition in B; clear H.

(** One axis of [WorldToScreen] before [math.Round]: the computed value is
    within [2^-17] of the exact one. *)
Lemma axis_forward_error fused P z c0 w :
  Qabs P <= 1073741824 → Qabs w <= 2147483648 → 1 # 4 <= z <= 4 →
  Qabs c0 <= 1048576 →
  Qabs (F64.mul_add fused (F64.sub w P) z c0 - ((w - P) * z + c0)) <= 1 # 131072.
Proof.
  intros HP Hw Hz Hc. apply Qabs_Qle_condition in HP, Hw, Hc.
  unfold F64.sub. rounds (w - P) 32%Z E5 B5.
  set (d := F64.round (w - P)) in *. clearbody d.
  destruct fused; unfold F64.mul_add, F64.add, F64.mul.
  - rounds (d * z + c0) 35%Z E B. apply Qabs_Qle_condition. split; nra.
  - rounds (d * z) 34%Z E6 B6.
    set (p := F64.round (d * z)) in *. clearbody p.
    rounds (p + c0) 35%Z E7 B7. apply Qabs_Qle_condition. split; nra.
Qed.

Lemma Qabs_inject_Z_le n k :
  (Z.abs n <= k)%Z → Qabs (inject_Z n) <= inject_Z k.
Proof.
  intros Hn. apply Qabs_Qle_condition.
  rewrite <- inject_Z_opp, <- !Zle_Qle. lia.
Qed.

(** The centre of the screen, [float64(size) / 2]. *)
Lemma center_bound size :
  (Z.abs size <= 2 ^ 21)%Z → Qabs (F64.div (F64.of_int size) 2) <= 1048576.
Proof.
  intros Hs. unfold F64.div, F64.of_int.
  pose proof (Qabs_inject_Z_le size _ Hs) as H0.
  change (inject_Z (2 ^ 21)) with 2097152 in H0.
  apply Qabs_Qle_condition in H0.
  rounds (inject_Z size) 21%Z E1 B1.
  set (f := F64.round (inject_Z size)) in *. clearbody f.
  assert (f / 2 == f * (1 # 2)) as Hdiv by field.
  assert (Qabs (f / 2) <= F64.pow2 20) as H
    by (apply Qabs_Qle_condition; rewrite Hdiv;
        change (F64.pow2 20) with 1048576; split; lra).
  apply (round_bound _ 20 ltac:(lia)) in H. exact H.
Qed.

(** One axis of [ScreenToWorld]: the computed value is within [2^-12] of the
    exact one. *)
Lemma axis_backward_error P z c0 s :
  Qabs P <= 1073741824 → 1 # 4 <= z <= 4 → Qabs c0 <= 1048576 →
  (Z.abs s <= 2 ^ 36)%Z →
  Qabs (F64.add (F64.div (F64.sub (F64.of_int s) c0) z) P
        - ((inject_Z s - c0) / z + P)) <= 1 # 4096.
Proof.
  intros HP Hz Hc Hs. apply Qabs_Qle_condition in HP, Hc.
  pose proof (Qabs_inject_Z_le s _ Hs) as H0.
  change (inject_Z (2 ^ 36)) with 68719476736 in H0.
  apply Qabs_Qle_condition in H0.
  pose proof (round_integer s ltac:(lia)) as Hf.
  unfold F64.add, F64.div, F64.sub, F64.of_int.
  set (f := F64.round (inject_Z s)) in *. clearbody f.
  rounds (f - c0) 37%Z E2 B2.
  set (g := F64.round (f - c0)) in *. clearbody g.
  assert (g / z == g * / z) as Hg by reflexivity.
  assert ((inject_Z s - c0) / z == (inject_Z s - c0) * / z) as Hx by reflexivity.
  assert (z * / z == 1) as Hinv by (field; lra).
  assert (1 # 4 <= / z <= 4) as Hiz.
  { split.
    - apply Qle_shift_inv_l; lra.
    - assert (/ z <= / (1 # 4)) as H; [|exact H].
      apply Qle_shift_inv_r; [lra|].
      change (/ (1 # 4)) with 4. assert (z * 4 >= 1) by lra. lra. }
  rewrite Hx. revert E2 B2 Hg Hinv Hiz. generalize (/ z). intros iz E2 B2 Hg Hinv Hiz.
  rounds (g / z) 39%Z E3 B3.
  set (h := F64.round (g / z)) in *. clearbody h.
  rounds (h + P) 40%Z E4 B4.
  apply Qabs_Qle_condition. split; nra.
Qed.

(** A number less than one half away from an integer rounds to it. *)
Lemma math_Round_near x s : Qabs (x - inject_Z s) < 1 # 2 → math_Round x = s.
Proof.
  intros Hx. apply Qabs_Qlt_condition in Hx.
  pose proof (math_Round_error x) as Hr. apply Qabs_Qle_condition in Hr.
  assert (math_Round x <= s)%Z by (apply inject_Z_lt_1; lra).
  assert (s <= math_Round x)%Z by (apply inject_Z_lt_1; lra). lia.
Qed.

Lemma inverse_in_range z : 1 # 4 <= z <= 4 → z * / z == 1 ∧ 1 # 4 <= / z <= 4.
Proof.
  intros Hz. split; [field; lra|]. split.
  - apply Qle_shift_inv_l; lra.
  - assert (/ z <= / (1 # 4)) as H; [|exact H].
    apply Qle_shift_inv_r; [lra|].
    change (/ (1 # 4)) with 4. lra.
Qed.

(** The world point that [ScreenToWorld] gives for a cell goes back to that
    cell, on one axis. *)
Lemma axis_same_cell fused P z c0 s :
  Qabs P <= 1073741824 → 1 # 4 <= z <= 4 → Qabs c0 <= 1048576 →
  (Z.abs s <= 2 ^ 36)%Z →
  let w := F64.add (F64.div (F64.sub (F64.of_int s) c0) z) P in
  Qabs w <= 2147483648 →
  math_Round (F64.mul_add fused (F64.sub w P) z c0) = s.
Proof.
  intros HP Hz Hc Hs w Hw.
  pose proof (axis_backward_error P z c0 s HP Hz Hc Hs) as Eb. fold w in Eb.
  pose proof (axis_forward_error fused P z c0 w HP Hw Hz Hc) as Ef.
  apply math_Round_near.
  set (raw := F64.mul_add fused (F64.sub w P) z c0) in *.
  clearbody raw w.
  assert ((inject_Z s - c0) / z * z == inject_Z s - c0) as Hu by (field; lra).
  revert Eb Hu. generalize ((inject_Z s - c0) / z). intros u Eb Hu.
  apply Qabs_Qle_condition in Eb, Ef. apply Qabs_Qlt_condition. split; nra.
Qed.

Lemma axis_round_trip64 fused P z size w :
  Qabs P <= 1073741824 → 1 # 4 <= z <= 4 → (Z.abs size <= 2 ^ 21)%Z →
  Qabs w <= 1073741824 →
  let c0 := F64.div (F64.of_int size) 2 in
  let s := math_Round (F64.mul_add fused (F64.sub w P) z c0) in
  let w' := F64.add (F64.div (F64.sub (F64.of_int s) c0) z) P in
  Qabs (w' - w) * z <= (1 # 2) + (1 # 512)
  ∧ math_Round (F64.mul_add fused (F64.sub w' P) z c0) = s.
Proof.
  intros HP Hz Hsize Hw c0 s w'.
  pose proof (center_bound size Hsize) as Hc. fold c0 in Hc.
  assert (Qabs w <= 2147483648) as Hw' by lra.
  pose proof (axis_forward_error fused P z c0 w HP Hw' Hz Hc) as Ef.
  pose proof (math_Round_error (F64.mul_add fused (F64.sub w P) z c0)) as Er.
  fold s in Er.
  assert (Z.abs s <= 2 ^ 36)%Z as Hs.
  { assert (Qabs (inject_Z s) <= inject_Z (2 ^ 36)) as H.
    { change (inject_Z (2 ^ 36)) with 68719476736.
      set (raw := F64.mul_add fused (F64.sub w P) z c0) in *. clearbody raw.
      apply Qabs_Qle_condition in HP, Hw, Hc, Ef, Er.
      apply Qabs_Qle_condition. split; nra. }
    apply Qabs_Qle_condition in H.
    rewrite <- inject_Z_opp, <- !Zle_Qle in H. lia. }
  pose proof (axis_backward_error P z c0 s HP Hz Hc Hs) as Eb. fold w' in Eb.
  assert (Qabs (w' - w) * z <= (1 # 2) + (1 # 512)) as Hnear.
  { assert (Qabs (w' - w) * z == Qabs ((w' - w) * z)) as ->.
    { rewrite Qabs_Qmult, (Qabs_pos z); [reflexivity|lra]. }
    set (raw := F64.mul_add fused (F64.sub w P) z c0) in *.
    clearbody raw w' s c0.
    assert ((inject_Z s - c0) / z * z == inject_Z s - c0) as Hu by (field; lra).
    revert Eb Hu. generalize ((inject_Z s - c0) / z). intros u Eb Hu.
    apply Qabs_Qle_condition in Eb, Ef, Er. apply Qabs_Qle_condition. split; nra. }
  split; [exact Hnear|].
  apply (axis_same_cell fused P z c0 s HP Hz Hc Hs). fold w'.
  assert (Qabs (w' - w) <= 3) as Hd.
  { pose proof (Qabs_nonneg (w' - w)). nra. }
  apply Qabs_Qle_condition in Hd, Hw. apply Qabs_Qle_condition. split; lra.
Qed.

(** C5, as stated, fails for a camera far from the origin. At [far_camera]
    (zoom 1, window of 80 columns) the world point x = 3 goes to the column
    -99999999999999968 and comes back as x = 0, three cells from where it
    started, with or without fused operations. *)
Lemma ScreenToWorld_far_camera_counterexample :
  0 < Camera.Zoom far_camera
  ∧ ∀ fused,
      Camera64.WorldToScreen fused far_camera 3 0 80 23
      = ((-99999999999999968)%Z, 12%Z)
      ∧ Camera64.ScreenToWorld far_camera (-99999999999999968) 12 80 23 = (0, 1 # 2)
      ∧ Qabs (0 - 3) * Camera.Zoom far_camera == 3
      ∧ ¬ Qabs (0 - 3) * Camera.Zoom far_camera <= 1 # 2.
Proof.
  split; [reflexivity|]. intros fused.
  split; [by destruct fused; vm_compute|].
  split; [by vm_compute|]. split; [reflexivity|]. by vm_compute.
Qed.

(** C5, amended. At every camera whose position has a magnitude of [2^30]
    at most and whose zoom lies in [0.25, 4], for world points of that
    magnitude and windows of up to [2^21] cells, [ScreenToWorld] undoes
    [WorldToScreen] up to the rounding to a screen cell and the rounding of
    the arithmetic: the point that comes back is within 1/2 + 2^-9 cells of
    the original on each axis and lies in the same cell. The operations are
    rounded one by one or fused, as the compiler chooses. *)
Theorem ScreenToWorld_inverts_WorldToScreen (fused : bool) (c : Camera.t) :
  camera_in_range c → round_trip64_at fused c.
Proof.
  intros (HX & HY & Hz) wx wy screenWidth screenHeight Hwx Hwy Hsw Hsh.
  unfold Camera64.WorldToScreen, Camera64.ScreenToWorld.
  destruct (axis_round_trip64 fused (Camera.X c) (Camera.Zoom c) screenWidth wx
              HX Hz Hsw Hwx) as [Hx1 Hx2].
  destruct (axis_round_trip64 fused (Camera.Y c) (Camera.Zoom c) screenHeight wy
              HY Hz Hsh Hwy) as [Hy1 Hy2].
  cbv zeta in Hx1, Hx2, Hy1, Hy2.
  split; [exact Hx1|]. split; [exact Hy1|]. by rewrite Hx2, Hy2.
Qed.

Lemma ScreenToWorld_inverts_WorldToScreen_witness :
  let c := Camera.mk 3 (-2) (1 # 2) 3 (-2) (1 # 2) in
  camera_in_range c
  ∧ let '(sx, sy) := Camera64.WorldToScreen false c 10 4 80 23 in
    let '(wx', wy') := Camera64.ScreenToWorld c sx sy 80 23 in
    Qabs (wx' - 10) * Camera.Zoom c <= (1 # 2) + (1 # 512)
    ∧ Qabs (wy' - 4) * Camera.Zoom c <= (1 # 2) + (1 # 512)
    ∧ Camera64.WorldToScreen false c wx' wy' 80 23 = (sx, sy).
Proof.
  intros c. assert (camera_in_range c) as Hrange by (repeat split; by vm_compute).
  split; [exact Hrange|].
  exact (ScreenToWorld_inverts_WorldToScreen false c Hrange 10 4 80%Z 23%Z
           ltac:(by vm_compute) ltac:(by vm_compute) ltac:(by vm_compute)
           ltac:(by vm_compute)).
Defined.

(** At zoom one half a cell is two world units wide: the point (10, 4)
    comes back as (11, 5). *)
Example round_trip_zoom_half :
  let c := Camera.mk 3 (-2) (1 # 2) 3 (-2) (1 # 2) in
  Camera64.WorldToScreen false c 10 4 80 23 = (44, 15)%Z
  ∧ Camera64.ScreenToWorld c 44 15 80 23 = (11, 5).
Proof. split; by vm_compute. Qed.


Local Close Scope Q_scope.

(** * The document *)

(** ** Ranging over the nodes *)


Lemma elem_of_range ord (nodes : gmap string Node) k n :
  (k, n) ∈ range ord nodes ↔ k ∈ ord ∧ nodes !! k = Some n.
Proof.
  unfold range. rewrite list_elem_of_omap. split.
  - intros (k' & Hin & Hk). destruct (nodes !! k') as [n'|] eqn:Hlook; [|done].
    simpl in Hk. by simplify_eq.
  - intros [Hin Hk]. exists k. by rewrite Hk.
Qed.

Lemma iteration_order_elem ord (nodes : gmap string Node) k :
  iteration_order ord nodes → k ∈ ord ↔ is_Some (nodes !! k).
Proof.
  intros [_ Hdom]. by rewrite <- elem_of_dom, <- Hdom, elem_of_list_to_set.
Qed.

Lemma elem_of_range_values ord (nodes : gmap string Node) n :
  iteration_order ord nodes →
  n ∈ (snd <$> range ord nodes) ↔ ∃ k, nodes !! k = Some n.
Proof.
  intros Hord. rewrite list_elem_of_fmap. split.
  - intros ([k n'] & -> & Hin). apply elem_of_range in Hin as [_ Hk]. by exists k.
  - intros [k Hk]. exists (k, n). split; [done|]. apply elem_of_range.
    split; [|done]. apply (iteration_order_elem _ nodes); [done|by eexists].
Qed.

Lemma range_nil ord (nodes : gmap string Node) :
  iteration_order ord nodes → range ord nodes = [] → nodes = ∅.
Proof.
  intros Hord Hnil. apply map_empty. intros k.
  destruct (nodes !! k) as [n|] eqn:Hk; [|done].
  assert ((k, n) ∈ range ord nodes) as Hin.
  { apply elem_of_range. split; [|done].
    apply (iteration_order_elem _ nodes); [done|by eexists]. }
  rewrite Hnil in Hin. by apply elem_of_nil in Hin.
Qed.

Lemma range_empty ord : range ord ∅ = [].
Proof.
  unfold range. induction ord as [|k ord IH]; [done|].
  cbn. by rewrite lookup_empty.
Qed.

(** The existing children of a parent are the nodes of the map that name it. *)
Lemma elem_of_GetChildrenOf ord parentID m n :
  iteration_order ord (Nodes m) →
  n ∈ GetChildrenOf ord parentID m
  ↔ ∃ k, Nodes m !! k = Some n ∧ ParentID n = parentID.
Proof.
  intros Hord. unfold GetChildrenOf.
  rewrite list_elem_of_filter, elem_of_range_values by done. split.
  - intros [Hparent [k Hk]]. by exists k.
  - intros (k & Hk & Hparent). split; [done|by exists k].
Qed.

(** ** Sibling of the root *)

Lemma AddSiblingNode_root ord text m root :
  GetSelectedNode m = Some root →
  ID root = "0"%string →
  AddSiblingNode ord text m = AddChildNode ord text m.
Proof.
  intros Hsel Hroot. unfold AddSiblingNode. rewrite Hsel.
  by case_decide.
Qed.

(** C6. With the root selected, [AddSiblingNode] is [AddChildNode]: the two
    calls give the same document (or both panic). *)
Theorem AddSiblingNode_of_root_is_AddChildNode ord text m root :
  GetSelectedNode m = Some root →
  ID root = "0"%string →
  AddSiblingNode ord text m = AddChildNode ord text m.
Proof. apply AddSiblingNode_root. Qed.

Lemma AddSiblingNode_of_root_is_AddChildNode_witness :
  AddSiblingNode ["0"]%string "x" NewModel = AddChildNode ["0"]%string "x" NewModel
  ∧ is_Some (AddChildNode ["0"]%string "x" NewModel).
Proof.
  split; [|by eexists].
  apply (AddSiblingNode_of_root_is_AddChildNode _ _ _ (NewNode "0" "Root Idea" 0 0));
    reflexivity.
Defined.

(** ** Deleting a node *)

(** C8, as stated, fails for the root: in the document of the root and one
    child, deleting "0" keeps the node "0" and the edge that leaves it. *)
Lemma DeleteNode_root_counterexample :
  ∃ m, one_child_doc = Some m
       ∧ is_Some (Nodes m !! "0"%string)
       ∧ Edges m = [mkEdge "0" "1"]
       ∧ Edges (DeleteNode ["1"]%string "0" m) = [mkEdge "0" "1"]
       ∧ is_Some (Nodes (DeleteNode ["1"]%string "0" m) !! "0"%string).
Proof.
  eexists. split; [reflexivity|]. split; [by eexists|].
  split; [reflexivity|]. split; [reflexivity|]. by eexists.
Qed.

(** C8, amended. Deleting the root changes neither nodes, edges nor the
    selection. Deleting any other identity removes that node and exactly the
    edges that start or end at it, keeps every other node and edge as they
    were (the edges in their order), keeps the selection when another node
    was selected, and when the deleted node was selected moves the selection
    to a node that remains, or clears it when none remains. *)
Theorem DeleteNode_frame ord id m :
  iteration_order ord (delete id (Nodes m)) →
  let m' := DeleteNode ord id m in
  (id = "0"%string →
     Nodes m' = Nodes m ∧ Edges m' = Edges m ∧ Selected m' = Selected m)
  ∧ (id ≠ "0"%string →
     Nodes m' !! id = None
     ∧ (∀ k, k ≠ id → Nodes m' !! k = Nodes m !! k)
     ∧ (∀ e, e ∈ Edges m' ↔ e ∈ Edges m ∧ FromID e ≠ id ∧ ToID e ≠ id)
     ∧ sublist (Edges m') (Edges m)
     ∧ (Selected m ≠ id → Selected m' = Selected m)
     ∧ (Selected m = id → Nodes m' ≠ ∅ → is_Some (Nodes m' !! Selected m'))
     ∧ (Selected m = id → Nodes m' = ∅ → Selected m' = EmptyString)).
Proof.
  intros Hord m'. subst m'. unfold DeleteNode. split; intros Hid.
  - rewrite decide_True by done. done.
  - rewrite decide_False by done.
    cbn [Nodes Edges Selected Model_with_Nodes Model_with_Edges
         Model_with_StatusMsg].
    assert (∀ s, Nodes (if decide (Selected m = id)
                  then match range ord (delete id (Nodes m)) with
                       | [] => Model_with_Selected EmptyString s
                       | (nodeID, _) :: _ => Model_with_Selected nodeID s
                       end
                  else s) = Nodes s) as HN.
    { intros s. case_decide; [destruct (range _ _) as [|[??]?]|]; done. }
    assert (∀ s, Edges (if decide (Selected m = id)
                  then match range ord (delete id (Nodes m)) with
                       | [] => Model_with_Selected EmptyString s
                       | (nodeID, _) :: _ => Model_with_Selected nodeID s
                       end
                  else s) = Edges s) as HE.
    { intros s. case_decide; [destruct (range _ _) as [|[??]?]|]; done. }
    rewrite HN, HE. cbn [Nodes Edges Model_with_Nodes Model_with_Edges].
    split; [apply lookup_delete_eq|].
    split; [intros k Hk; by apply lookup_delete_ne|].
    split; [intros e; rewrite list_elem_of_filter; tauto|].
    split; [apply sublist_filter|].
    split; [intros Hsel; by rewrite decide_False by done|].
    split.
    + intros Hsel Hne. rewrite decide_True by done.
      destruct (range ord (delete id (Nodes m))) as [|[k n] l] eqn:Hrange.
      * by apply range_nil in Hrange.
      * cbn [Selected Model_with_Selected].
        assert ((k, n) ∈ range ord (delete id (Nodes m))) as Hin
          by (rewrite Hrange; left).
        apply elem_of_range in Hin as [_ Hk]. by exists n.
    + intros Hsel Hempty. rewrite decide_True by done.
      by rewrite Hempty, range_empty.
Qed.

Lemma DeleteNode_frame_witness :
  let m := default NewModel one_child_doc in
  let m' := DeleteNode ["0"]%string "1" m in
  iteration_order ["0"]%string (delete "1"%string (Nodes m))
  ∧ Nodes m' !! "1"%string = None
  ∧ (∀ k, k ≠ "1"%string → Nodes m' !! k = Nodes m !! k)
  ∧ (∀ e, e ∈ Edges m' ↔ e ∈ Edges m ∧ FromID e ≠ "1"%string ∧ ToID e ≠ "1"%string)
  ∧ sublist (Edges m') (Edges m)
  ∧ (Selected m ≠ "1"%string → Selected m' = Selected m)
  ∧ (Selected m = "1"%string → Nodes m' ≠ ∅ → is_Some (Nodes m' !! Selected m'))
  ∧ (Selected m = "1"%string → Nodes m' = ∅ → Selected m' = EmptyString).
Proof.
  intros m m'.
  assert (iteration_order ["0"]%string (delete "1"%string (Nodes m))) as Hord
    by concrete_order.
  split; [exact Hord|].
  by apply (DeleteNode_frame ["0"]%string "1" m Hord).
Defined.

(** ** Edges *)

Lemma AddEdge_fields fromID toID m :
  Selected (AddEdge fromID toID m) = Selected m
  ∧ NextID (AddEdge fromID toID m) = NextID m
  ∧ NextColorIndex (AddEdge fromID toID m) = NextColorIndex m
  ∧ ColorPalette (AddEdge fromID toID m) = ColorPalette m
  ∧ mCamera (AddEdge fromID toID m) = mCamera m.
Proof. unfold AddEdge. by destruct (existsb _ _). Qed.

Lemma same_box_refl n : same_box n n.
Proof. by repeat split. Qed.

(** [AddEdge] changes nothing but the links of the source node. *)
Lemma AddEdge_lookup fromID toID m k :
  option_Forall2 same_box (Nodes m !! k) (Nodes (AddEdge fromID toID m) !! k).
Proof.
  unfold AddEdge. destruct (existsb _ _); cbn [Nodes Model_with_StatusMsg
    Model_with_Nodes Model_with_Edges].
  - destruct (Nodes m !! k); constructor. apply same_box_refl.
  - destruct (decide (fromID = k)) as [->|Hne].
    + rewrite lookup_alter_eq. destruct (Nodes m !! k); constructor.
      by repeat split.
    + rewrite lookup_alter_ne by done.
      destruct (Nodes m !! k); constructor. apply same_box_refl.
Qed.

(** ** Pushing nodes down *)

Lemma pushDown_fields thresholdY amount node :
  ID (pushDown thresholdY amount node) = ID node
  ∧ Text (pushDown thresholdY amount node) = Text node
  ∧ X (pushDown thresholdY amount node) = X node
  ∧ Width (pushDown thresholdY amount node) = Width node
  ∧ Height (pushDown thresholdY amount node) = Height node
  ∧ ParentID (pushDown thresholdY amount node) = ParentID node
  ∧ Color (pushDown thresholdY amount node) = Color node
  ∧ Links (pushDown thresholdY amount node) = Links node.
Proof. unfold pushDown. by destruct (Qlt_le_dec _ _). Qed.

(** A node at or below the threshold moves down by [amount], a node above it
    stays. *)
Lemma pushDown_Y thresholdY amount node :
  ((thresholdY <= Y node)%Q →
     Y (pushDown thresholdY amount node) = (Y node + amount)%Q)
  ∧ ((Y node < thresholdY)%Q → pushDown thresholdY amount node = node).
Proof.
  unfold pushDown. destruct (Qlt_le_dec _ _) as [Hlt|Hle]; split; try done.
  - intros Hle. exfalso. by apply (Qlt_not_le _ _ Hlt).
  - intros Hlt. exfalso. by apply (Qlt_not_le _ _ Hlt).
Qed.

(** ** The lowest box *)

Lemma fold_lowerOf children acc :
  let res := fold_left lowerOf children acc in
  (res = acc
   ∧ ∀ c, c ∈ children → (bottom c <= acc.1 + inject_Z acc.2)%Q)
  ∨ (∃ c, c ∈ children ∧ res = (Y c, Height c)
          ∧ (acc.1 + inject_Z acc.2 < bottom c)%Q
          ∧ ∀ c', c' ∈ children → (bottom c' <= bottom c)%Q).
Proof.
  revert acc. induction children as [|c cs IH]; intros [ly lh]; cbn zeta.
  - left. split; [done|]. intros c Hc. by apply elem_of_nil in Hc.
  - cbn [fold_left fst snd].
    destruct (Qlt_le_dec (ly + inject_Z lh) (Y c + inject_Z (Height c)))
      as [Hlt|Hle] eqn:Hdec.
    + assert (lowerOf (ly, lh) c = (Y c, Height c)) as ->
        by (unfold lowerOf; by rewrite Hdec).
      destruct (IH (Y c, Height c)) as [[Hres Hall]|(c2 & Hin & Hres & Hlt2 & Hall)];
        right; cbn [fst snd] in *.
      * exists c. split; [left|]. split; [done|]. split; [done|].
        intros c' [->|Hc']%elem_of_cons; [apply Qle_refl|by apply Hall].
      * exists c2. split; [by right|]. split; [done|].
        split; [unfold bottom in *; lra|].
        intros c' [->|Hc']%elem_of_cons; [unfold bottom in *; lra|by apply Hall].
    + assert (lowerOf (ly, lh) c = (ly, lh)) as ->
        by (unfold lowerOf; by rewrite Hdec).
      destruct (IH (ly, lh)) as [[Hres Hall]|(c2 & Hin & Hres & Hlt2 & Hall)];
        cbn [fst snd] in *.
      * left. split; [done|].
        intros c' [->|Hc']%elem_of_cons; [done|by apply Hall].
      * right. exists c2. split; [by right|]. split; [done|]. split; [done|].
        intros c' [->|Hc']%elem_of_cons; [unfold bottom in *; lra|by apply Hall].
Qed.

(** ** Placing a child *)

Lemma childPosition_x ord parent m :
  (childPosition ord parent m).1.1 = (X parent + inject_Z (Width parent) + 5)%Q.
Proof.
  unfold childPosition. destruct (0 <? _); [|done].
  by destruct (fold_left _ _ _).
Qed.

Lemma childPosition_fields ord parent m :
  let m1 := (childPosition ord parent m).2 in
  Selected m1 = Selected m ∧ NextID m1 = NextID m
  ∧ NextColorIndex m1 = NextColorIndex m ∧ ColorPalette m1 = ColorPalette m
  ∧ Edges m1 = Edges m ∧ mCamera m1 = mCamera m.
Proof.
  unfold childPosition. destruct (0 <? _); [|done].
  by destruct (fold_left _ _ _).
Qed.

(** The nodes after [childPosition] are the nodes before, pushed down by 6
    below the new position when the parent had children. *)
Lemma childPosition_nodes ord parent m :
  let '(x, y, m1) := childPosition ord parent m in
  (GetChildrenOf ord (ID parent) m = [] ∧ Nodes m1 = Nodes m)
  ∨ (GetChildrenOf ord (ID parent) m ≠ []
     ∧ Nodes m1 = pushDown y (inject_Z 3 + 3)%Q <$> Nodes m).
Proof.
  unfold childPosition. destruct (GetChildrenOf ord (ID parent) m) as [|c cs] eqn:Hch.
  - left. done.
  - assert ((0 <? Z.of_nat (length (c :: cs))) = true) as ->
      by (apply Z.ltb_lt; cbn [length]; lia).
    destruct (fold_left _ _ _). right. done.
Qed.

Lemma childPosition_y ord parent m :
  let y := (childPosition ord parent m).1.2 in
  let children := GetChildrenOf ord (ID parent) m in
  (children = [] → y = Y parent)
  ∧ (children ≠ [] →
       (y = (Y parent + inject_Z (Height parent) + 3)%Q
        ∧ ∀ c, c ∈ children → (bottom c <= bottom parent)%Q)
       ∨ (∃ c, c ∈ children
               ∧ y = (Y c + inject_Z (Height c) + 3)%Q
               ∧ (bottom parent < bottom c)%Q
               ∧ ∀ c', c' ∈ children → (bottom c' <= bottom c)%Q)).
Proof.
  unfold childPosition. destruct (GetChildrenOf ord (ID parent) m) as [|c cs] eqn:Hch.
  - cbn. split; done.
  - assert ((0 <? Z.of_nat (length (c :: cs))) = true) as ->
      by (apply Z.ltb_lt; cbn [length]; lia). split; [done|]. intros _.
    pose proof (fold_lowerOf (c :: cs) (Y parent, Height parent)) as Hfold.
    cbn zeta in Hfold. destruct (fold_left _ _ _) as [ly lh]. cbn [fst snd] in *.
    destruct Hfold as [[Hres Hall]|(c2 & Hin & Hres & Hlt & Hall)].
    + left. by simplify_eq.
    + right. exists c2. by simplify_eq.
Qed.

(** ** Creating a child *)

Lemma childPosition_with_NextID ord parent v m :
  childPosition ord parent (Model_with_NextID v m)
  = (let '(x, y, m1) := childPosition ord parent m in (x, y, Model_with_NextID v m1)).
Proof.
  unfold childPosition, GetChildrenOf. cbn [Nodes Model_with_NextID].
  destruct (0 <? _); [|done]. by destruct (fold_left _ _ _).
Qed.

Lemma paletteColor_ext m1 m2 :
  ColorPalette m1 = ColorPalette m2 → NextColorIndex m1 = NextColorIndex m2 →
  paletteColor m1 = paletteColor m2.
Proof. unfold paletteColor. by intros -> ->. Qed.

(** With a palette and a cursor in range, [paletteColor] is the entry of the
    palette at the cursor modulo the size of the palette. *)
Lemma paletteColor_ready m :
  palette_ready m →
  ∃ color,
    paletteColor m = Some color
    ∧ ColorPalette m
        !! Z.to_nat (NextColorIndex m mod Z.of_nat (length (ColorPalette m)))
      = Some color.
Proof.
  intros [Hne [Hlo Hhi]]. unfold paletteColor.
  assert (0 < Z.of_nat (length (ColorPalette m))) as Hlen
    by (destruct (ColorPalette m); [done|cbn [length]; lia]).
  destruct (Z.eqb_spec (Z.of_nat (length (ColorPalette m))) 0) as [?|_]; [lia|].
  rewrite Z.rem_mod_nonneg by lia.
  pose proof (Z.mod_pos_bound (NextColorIndex m) _ Hlen) as Hmod.
  destruct (Z.ltb_spec (NextColorIndex m `mod` Z.of_nat (length (ColorPalette m))) 0)
    as [?|_]; [lia|].
  destruct (ColorPalette m !! Z.to_nat _) as [color|] eqn:Hlook; [by exists color|].
  apply lookup_ge_None in Hlook. lia.
Qed.

Lemma int_wrap_small n : - 2 ^ 63 <= n < 2 ^ 63 → int_wrap n = n.
Proof. intros Hn. unfold int_wrap. rewrite Z.mod_small; lia. Qed.

(** What [AddChildNode] does when a node is selected. *)
Lemma AddChildNode_selected ord text m parent :
  GetSelectedNode m = Some parent →
  palette_ready m →
  let id := pretty (NextID m) in
  let placed := childPosition ord parent m in
  ∃ m' new,
    AddChildNode ord text m = Some m'
    ∧ Nodes m' !! id = Some new
    ∧ ID new = id ∧ Text new = text
    ∧ X new = placed.1.1 ∧ Y new = placed.1.2
    ∧ (Width new, Height new) = calculateNodeSize text
    ∧ ParentID new = ID parent
    ∧ (ID parent = "0"%string →
         paletteColor m = Some (Color new)
         ∧ NextColorIndex m' = NextColorIndex m + 1)
    ∧ (ID parent ≠ "0"%string →
         NextColorIndex m' = NextColorIndex m
         ∧ ∀ q, ID parent ≠ EmptyString → Nodes m !! ID parent = Some q →
                Color new = Color q)
    ∧ ColorPalette m' = ColorPalette m
    ∧ Selected m' = id
    ∧ (∀ k, k ≠ id →
         option_Forall2 same_box (Nodes placed.2 !! k) (Nodes m' !! k)).
Proof.
  intros Hsel Hready id placed. unfold AddChildNode.
  change (GetSelectedNode (Model_with_NextID _ m)) with (GetSelectedNode m).
  rewrite Hsel, childPosition_with_NextID. fold id.
  pose proof (childPosition_fields ord parent m) as (HS & HN & HC & HP & HE & HCam).
  pose proof (childPosition_nodes ord parent m) as Hnodes.
  subst placed. destruct (childPosition ord parent m) as [[x y] m1].
  cbn [fst snd] in *.
  set (node := Node_with_ParentID (ID parent) (NewNode id text x y)).
  assert (∀ (c : string) (m2 : Model),
    Nodes m2 = Nodes m1 →
    let m0 := Model_with_Nodes (<[id:=Node_with_Color c node]> (Nodes m2)) m2 in
    let m3 := if decide (ID parent ≠ EmptyString)
              then AddEdge (ID parent) id m0 else m0 in
    let m' := Model_with_StatusMsg ("Created child node " +:+ id)
                (Model_with_Selected id m3) in
    ∃ new, Nodes m' !! id = Some new
      ∧ ID new = id ∧ Text new = text ∧ X new = x ∧ Y new = y
      ∧ (Width new, Height new) = calculateNodeSize text
      ∧ ParentID new = ID parent ∧ Color new = c
      ∧ NextColorIndex m' = NextColorIndex m2
      ∧ ColorPalette m' = ColorPalette m2
      ∧ Selected m' = id
      ∧ ∀ k, k ≠ id → option_Forall2 same_box (Nodes m1 !! k) (Nodes m' !! k))
    as Hfinish.
  { intros c m2 Hm2 m0 m3 m'.
    assert (Nodes m0 !! id = Some (Node_with_Color c node)) as Hnew
      by (subst m0; cbn [Nodes Model_with_Nodes]; apply lookup_insert_eq).
    assert (∀ k, k ≠ id → Nodes m0 !! k = Nodes m1 !! k) as Hold.
    { intros k Hk. subst m0. cbn [Nodes Model_with_Nodes].
      by rewrite lookup_insert_ne, Hm2. }
    assert (NextColorIndex m3 = NextColorIndex m2 ∧ ColorPalette m3 = ColorPalette m2
            ∧ ∀ k, option_Forall2 same_box (Nodes m0 !! k) (Nodes m3 !! k))
      as (HC3 & HP3 & HN3).
    { subst m3. case_decide.
      - pose proof (AddEdge_fields (ID parent) id m0) as (_ & _ & ? & ? & _).
        split; [done|]. split; [done|]. apply AddEdge_lookup.
      - split; [done|]. split; [done|]. intros k.
        destruct (Nodes m0 !! k); constructor. apply same_box_refl. }
    pose proof (HN3 id) as Hid. rewrite Hnew in Hid.
    inversion Hid as [n1 new Hbox Heq1 Heq2|]; subst.
    destruct Hbox as (H1 & H2 & H3 & H4 & H5 & H6 & H7 & H8).
    exists new. subst m'. cbn [Nodes Selected NextColorIndex ColorPalette
      Model_with_StatusMsg Model_with_Selected].
    split; [done|]. unfold node, NewNode in *.
    destruct (calculateNodeSize text) as [width height]. cbn in *.
    repeat (split; [congruence|]).
    intros k Hk. rewrite <- Hold by done. apply HN3. }
  unfold colorChild. destruct (decide (ID parent = "0"%string)) as [Hroot|Hroot].
  - destruct (paletteColor_ready m Hready) as (color & Hcolor & _).
    rewrite (paletteColor_ext (Model_with_NextID (int_wrap (NextID m + 1)) m1) m)
      by done.
    rewrite Hcolor. cbn [mbind option_bind].
    destruct (Hfinish color
                (Model_with_NextColorIndex
                   (int_wrap (NextColorIndex
                                (Model_with_NextID (int_wrap (NextID m + 1)) m1) + 1))
                   (Model_with_NextID (int_wrap (NextID m + 1)) m1)) eq_refl)
      as (new & Hn & H1 & H2 & H3 & H4 & H5 & H6 & H7 & H8 & H9 & H10 & H11).
    eexists _, new. split; [reflexivity|]. split; [exact Hn|].
    repeat (split; [done|]). split.
    + intros _. split; [by rewrite H7|]. rewrite H8.
      cbn [NextColorIndex Model_with_NextColorIndex Model_with_NextID].
      rewrite HC. apply int_wrap_small. destruct Hready as [_ ?]. lia.
    + split; [done|]. split; [by rewrite H9|]. split; [done|]. exact H11.
  - assert (∀ c, ∃ m' new,
      Some (Model_with_StatusMsg ("Created child node " +:+ id)
         (Model_with_Selected id
            (if decide (ID parent ≠ EmptyString)
             then AddEdge (ID parent) id
                    (Model_with_Nodes
                       (<[id:=Node_with_Color c node]>
                          (Nodes (Model_with_NextID (int_wrap (NextID m + 1)) m1)))
                       (Model_with_NextID (int_wrap (NextID m + 1)) m1))
             else Model_with_Nodes
                    (<[id:=Node_with_Color c node]>
                       (Nodes (Model_with_NextID (int_wrap (NextID m + 1)) m1)))
                    (Model_with_NextID (int_wrap (NextID m + 1)) m1)))) = Some m'
      ∧ Nodes m' !! id = Some new
      ∧ ID new = id ∧ Text new = text ∧ X new = x ∧ Y new = y
      ∧ (Width new, Height new) = calculateNodeSize text
      ∧ ParentID new = ID parent
      ∧ Color new = c
      ∧ NextColorIndex m' = NextColorIndex m
      ∧ ColorPalette m' = ColorPalette m
      ∧ Selected m' = id
      ∧ (∀ k, k ≠ id → option_Forall2 same_box (Nodes m1 !! k) (Nodes m' !! k)))
      as Hplain.
    { intros c.
      destruct (Hfinish c (Model_with_NextID (int_wrap (NextID m + 1)) m1) eq_refl)
        as (new & Hn & H1 & H2 & H3 & H4 & H5 & H6 & H7 & H8 & H9 & H10 & H11).
      eexists _, new. split; [reflexivity|]. split; [exact Hn|].
      repeat (split; [done|]). split; [by rewrite H8|].
      split; [by rewrite H9|]. split; [done|]. exact H11. }
    assert (Node_with_Color (Color node) node = node) as Hnode by done.
    destruct (decide (ID parent ≠ EmptyString)) as [Hparent|Hparent].
    + destruct (Nodes (Model_with_NextID (int_wrap (NextID m + 1)) m1) !! ID parent)
        as [q1|] eqn:Hq1; cbn [mbind option_bind].
      * destruct (Hplain (Color q1))
          as (m' & new & Hm' & Hn & H1 & H2 & H3 & H4 & H5 & H6 & H7 & H8 & Hrest).
        exists m', new. split; [exact Hm'|]. split; [exact Hn|].
        split; [exact H1|]. split; [exact H2|]. split; [exact H3|].
        split; [exact H4|]. split; [exact H5|]. split; [exact H6|].
        split; [done|]. split; [|exact Hrest].
        intros _. split; [done|]. intros q _ Hq.
        cbn [Nodes Model_with_NextID] in Hq1. rewrite H7.
        destruct Hnodes as [[_ Heq]|[_ Heq]]; rewrite Heq in Hq1.
        -- congruence.
        -- rewrite lookup_fmap, Hq in Hq1. cbn in Hq1. simplify_eq.
           apply pushDown_fields.
      * destruct (Hplain (Color node))
          as (m' & new & Hm' & Hn & H1 & H2 & H3 & H4 & H5 & H6 & H7 & H8 & Hrest).
        rewrite Hnode in Hm'.
        exists m', new. split; [exact Hm'|]. split; [exact Hn|].
        split; [exact H1|]. split; [exact H2|]. split; [exact H3|].
        split; [exact H4|]. split; [exact H5|]. split; [exact H6|].
        split; [done|]. split; [|exact Hrest].
        intros _. split; [done|]. intros q _ Hq.
        cbn [Nodes Model_with_NextID] in Hq1.
        destruct Hnodes as [[_ Heq]|[_ Heq]]; rewrite Heq in Hq1.
        -- congruence.
        -- rewrite lookup_fmap, Hq in Hq1. done.
    + cbn [mbind option_bind].
      destruct (Hplain (Color node))
        as (m' & new & Hm' & Hn & H1 & H2 & H3 & H4 & H5 & H6 & H7 & H8 & Hrest).
      rewrite Hnode in Hm'.
      exists m', new. split; [exact Hm'|]. split; [exact Hn|].
      split; [exact H1|]. split; [exact H2|]. split; [exact H3|].
        split; [exact H4|]. split; [exact H5|]. split; [exact H6|].
        split; [done|]. split; [|exact Hrest].
      intros _. split; [done|]. intros q Hne. by destruct Hparent.
Qed.

(** ** The position of a new child *)

(** C2. The claim, like the comment "Position below the last child" in
    the code, puts the new child of a parent that has children at the
    lowest child's bottom edge + 3. The code seeds its search for the
    lowest box with the parent's own box, so the claim fails when the parent
    reaches lower than its children: in [tall_parent_doc] the parent "1"
    has the height 4 and its only child "2" has the bottom edge 3; the next
    child is put at y = 7, below the parent's bottom edge, and not at
    3 + 3 = 6. *)
Theorem AddChildNode_below_tall_parent :
  ∃ m parent child m' new,
    tall_parent_doc = Some m
    ∧ GetSelectedNode m = Some parent
    ∧ GetChildrenOf ["0"; "1"; "2"]%string (ID parent) m = [child]
    ∧ AddChildNode ["0"; "1"; "2"]%string "d" m = Some m'
    ∧ Nodes m' !! "3"%string = Some new
    ∧ (Y new == 7)%Q
    ∧ (Y child + inject_Z (Height child) + 3 == 6)%Q
    ∧ ¬ (Y new == Y child + inject_Z (Height child) + 3)%Q.
Proof.
  eexists _, _, _, _, _.
  split; [vm_compute; reflexivity|]. split; [vm_compute; reflexivity|].
  split; [vm_compute; reflexivity|]. split; [vm_compute; reflexivity|].
  split; [vm_compute; reflexivity|]. split; [reflexivity|].
  split; [reflexivity|]. discriminate.
Qed.

(** What the code does instead. The new child of the selected parent is
    stored under the next identity with x = parent.x + parent.width + 5.
    Without existing children its y is the parent's y. With existing
    children the search for the lowest box starts from the parent's own
    box: when no child reaches below the parent's bottom edge,
    y = parent.y + parent.height + 3; otherwise y = c.y + c.height + 3 for a
    child [c] whose bottom edge is the lowest of all children. *)
Theorem AddChildNode_position ord text m parent :
  iteration_order ord (Nodes m) →
  palette_ready m →
  GetSelectedNode m = Some parent →
  ∃ m' new,
    AddChildNode ord text m = Some m'
    ∧ Nodes m' !! pretty (NextID m) = Some new
    ∧ X new = (X parent + inject_Z (Width parent) + 5)%Q
    ∧ ((∀ c, ¬ child_of m parent c) → Y new = Y parent)
    ∧ ((∃ c, child_of m parent c) →
         (Y new = (Y parent + inject_Z (Height parent) + 3)%Q
          ∧ ∀ c, child_of m parent c → (bottom c <= bottom parent)%Q)
         ∨ (∃ c, child_of m parent c
                 ∧ Y new = (Y c + inject_Z (Height c) + 3)%Q
                 ∧ (bottom parent < bottom c)%Q
                 ∧ ∀ c', child_of m parent c' → (bottom c' <= bottom c)%Q)).
Proof.
  intros Hord Hready Hsel.
  destruct (AddChildNode_selected ord text m parent Hsel Hready)
    as (m' & new & Hadd & Hnew & _ & _ & HX & HY & _).
  exists m', new. split; [exact Hadd|]. split; [exact Hnew|].
  split; [by rewrite HX, childPosition_x|].
  pose proof (childPosition_y ord parent m) as [Hfirst Hmore]. rewrite HY.
  assert (∀ c, c ∈ GetChildrenOf ord (ID parent) m ↔ child_of m parent c)
    as Hchildren by (intros c; by apply elem_of_GetChildrenOf).
  split.
  - intros Hnone. apply Hfirst.
    destruct (GetChildrenOf ord (ID parent) m) as [|c cs] eqn:Hch; [done|].
    destruct (Hnone c). apply Hchildren. left.
  - intros [c Hc]. apply Hchildren in Hc.
    destruct Hmore as [[Hy Hall]|(c2 & Hin & Hy & Hlt & Hall)].
    + intros Hnil. rewrite Hnil in Hc. by apply elem_of_nil in Hc.
    + left. split; [exact Hy|]. intros c' Hc'. by apply Hall, Hchildren.
    + right. exists c2. split; [by apply Hchildren|]. split; [exact Hy|].
      split; [exact Hlt|]. intros c' Hc'. by apply Hall, Hchildren.
Qed.

Lemma AddChildNode_position_witness :
  let m := default NewModel tall_parent_doc in
  ∃ parent m' new,
    GetSelectedNode m = Some parent
    ∧ AddChildNode ["0"; "1"; "2"]%string "d" m = Some m'
    ∧ Nodes m' !! pretty (NextID m) = Some new
    ∧ X new = (X parent + inject_Z (Width parent) + 5)%Q.
Proof.
  intros m.
  assert (iteration_order ["0"; "1"; "2"]%string (Nodes m)) as Hord
    by concrete_order.
  assert (palette_ready m) as Hready
    by (split; [by vm_compute|split; by vm_compute]).
  assert (GetSelectedNode m = Some (default stale_node (Nodes m !! "1"%string)))
    as Hsel by reflexivity.
  destruct (AddChildNode_position _ "d" m _ Hord Hready Hsel)
    as (m' & new & Hadd & Hnew & HX & _).
  eexists _, m', new. split; [exact Hsel|]. split; [exact Hadd|].
  split; [exact Hnew|exact HX].
Defined.

(** ** Creating a sibling *)

(** The end of both creations: store the node, link it to its parent,
    select it. *)
Lemma store_new_node id parentID status node m2 :
  let m0 := Model_with_Nodes (<[id:=node]> (Nodes m2)) m2 in
  let m3 := if decide (parentID ≠ EmptyString) then AddEdge parentID id m0 else m0 in
  let m' := Model_with_StatusMsg status (Model_with_Selected id m3) in
  ∃ new,
    Nodes m' !! id = Some new
    ∧ same_box node new
    ∧ NextColorIndex m' = NextColorIndex m2
    ∧ ColorPalette m' = ColorPalette m2
    ∧ Selected m' = id
    ∧ ∀ k, k ≠ id → option_Forall2 same_box (Nodes m2 !! k) (Nodes m' !! k).
Proof.
  intros m0 m3 m'.
  assert (Nodes m0 !! id = Some node) as Hnew
    by (subst m0; cbn [Nodes Model_with_Nodes]; apply lookup_insert_eq).
  assert (∀ k, k ≠ id → Nodes m0 !! k = Nodes m2 !! k) as Hold.
  { intros k Hk. subst m0. cbn [Nodes Model_with_Nodes].
    by rewrite lookup_insert_ne. }
  assert (NextColorIndex m3 = NextColorIndex m2 ∧ ColorPalette m3 = ColorPalette m2
          ∧ ∀ k, option_Forall2 same_box (Nodes m0 !! k) (Nodes m3 !! k))
    as (HC3 & HP3 & HN3).
  { subst m3. case_decide.
    - pose proof (AddEdge_fields parentID id m0) as (_ & _ & ? & ? & _).
      split; [done|]. split; [done|]. apply AddEdge_lookup.
    - split; [done|]. split; [done|]. intros k.
      destruct (Nodes m0 !! k); constructor. apply same_box_refl. }
  pose proof (HN3 id) as Hid. rewrite Hnew in Hid.
  inversion Hid as [n1 new Hbox Heq1 Heq2|]; subst.
  exists new. subst m'. cbn [Nodes Selected NextColorIndex ColorPalette
    Model_with_StatusMsg Model_with_Selected].
  split; [done|]. split; [exact Hbox|]. split; [exact HC3|]. split; [exact HP3|].
  split; [done|]. intros k Hk. rewrite <- Hold by done. apply HN3.
Qed.

(** What [AddSiblingNode] does when a node other than the root is selected. *)
Lemma AddSiblingNode_selected ord text m sel :
  GetSelectedNode m = Some sel →
  ID sel ≠ "0"%string →
  palette_ready m →
  let id := pretty (NextID m) in
  let y := (Y sel + inject_Z (Height sel) + 3)%Q in
  ∃ m' new,
    AddSiblingNode ord text m = Some m'
    ∧ Nodes m' !! id = Some new
    ∧ ID new = id ∧ Text new = text
    ∧ X new = X sel ∧ Y new = y
    ∧ (Width new, Height new) = calculateNodeSize text
    ∧ ParentID new = ParentID sel
    ∧ (ParentID sel = "0"%string →
         paletteColor m = Some (Color new)
         ∧ NextColorIndex m' = NextColorIndex m + 1)
    ∧ (ParentID sel ≠ "0"%string →
         NextColorIndex m' = NextColorIndex m ∧ Color new = Color sel)
    ∧ ColorPalette m' = ColorPalette m
    ∧ Selected m' = id
    ∧ (∀ k, k ≠ id →
         option_Forall2 same_box
           (pushDown y (inject_Z 3 + 3)%Q <$> Nodes m !! k) (Nodes m' !! k)).
Proof.
  intros Hsel Hroot Hready id y. unfold AddSiblingNode.
  rewrite Hsel, decide_False by done. fold id. fold y.
  set (m1 := pushDownNodesBelow y (inject_Z 3 + 3)%Q
               (Model_with_NextID (int_wrap (NextID m + 1)) m)).
  set (node := Node_with_ParentID (ParentID sel) (NewNode id text (X sel) y)).
  assert (∀ k, Nodes m1 !! k = pushDown y (inject_Z 3 + 3)%Q <$> Nodes m !! k)
    as Hm1 by (intros k; subst m1; cbn; apply lookup_fmap).
  assert (∀ c new, same_box (Node_with_Color c node) new →
            ID new = id ∧ Text new = text ∧ X new = X sel ∧ Y new = y
            ∧ (Width new, Height new) = calculateNodeSize text
            ∧ ParentID new = ParentID sel ∧ Color new = c) as Hbox.
  { intros c new (H1 & H2 & H3 & H4 & H5 & H6 & H7 & H8).
    unfold node, NewNode in *.
    destruct (calculateNodeSize text) as [width height]. cbn in *.
    repeat split; congruence. }
  destruct (decide (ParentID sel = "0"%string)) as [Hp|Hp].
  - destruct (paletteColor_ready m Hready) as (color & Hcolor & _).
    rewrite (paletteColor_ext m1 m) by done.
    rewrite Hcolor. cbn [mbind option_bind].
    destruct (store_new_node id (ParentID sel) ("Created sibling node " +:+ id)
                (Node_with_Color color node)
                (Model_with_NextColorIndex (int_wrap (NextColorIndex m1 + 1)) m1))
      as (new & Hn & Hb & HC & HP & HS & Hrest).
    apply Hbox in Hb as (H1 & H2 & H3 & H4 & H5 & H6 & H7).
    eexists _, new. split; [reflexivity|]. split; [exact Hn|].
    split; [exact H1|]. split; [exact H2|]. split; [exact H3|].
    split; [exact H4|]. split; [exact H5|]. split; [exact H6|].
    split.
    { intros _. split; [by rewrite H7|]. rewrite HC.
      cbn [NextColorIndex Model_with_NextColorIndex].
      apply int_wrap_small. destruct Hready as [_ ?].
      change (NextColorIndex m1) with (NextColorIndex m). lia. }
    split; [done|]. split; [exact HP|]. split; [exact HS|].
    intros k Hk. rewrite <- Hm1. by apply Hrest.
  - cbn [mbind option_bind].
    destruct (store_new_node id (ParentID sel) ("Created sibling node " +:+ id)
                (Node_with_Color (Color sel) node) m1)
      as (new & Hn & Hb & HC & HP & HS & Hrest).
    apply Hbox in Hb as (H1 & H2 & H3 & H4 & H5 & H6 & H7).
    eexists _, new. split; [reflexivity|]. split; [exact Hn|].
    split; [exact H1|]. split; [exact H2|]. split; [exact H3|].
    split; [exact H4|]. split; [exact H5|]. split; [exact H6|].
    split; [done|]. split; [intros _; split; [exact HC|exact H7]|].
    split; [exact HP|]. split; [exact HS|].
    intros k Hk. rewrite <- Hm1. by apply Hrest.
Qed.

(** ** The push-down *)

Lemma pushed_node thresholdY amount (o : option Node) (n n' : Node) o' :
  o = Some n →
  option_Forall2 same_box (pushDown thresholdY amount <$> o) o' →
  o' = Some n' →
  X n' = X n
  ∧ ((thresholdY <= Y n)%Q → Y n' = (Y n + amount)%Q)
  ∧ ((Y n < thresholdY)%Q → Y n' = Y n).
Proof.
  intros -> Hbox ->. cbn in Hbox. inversion Hbox as [? ? Hsame|]; subst.
  destruct Hsame as (_ & _ & HX & HY & _).
  destruct (pushDown_fields thresholdY amount n) as (_ & _ & HX' & _).
  destruct (pushDown_Y thresholdY amount n) as [Hdown Hstay].
  split; [congruence|]. split.
  - intros Hle. rewrite <- HY. by apply Hdown.
  - intros Hlt. rewrite <- HY. by rewrite Hstay.
Qed.

(** What the push-down of a sibling placement does: every node that was in
    the document at or below the new y moves down by 3 + 3 = 6, whatever the
    height of the new node is, and the nodes above stay. *)
Lemma AddSiblingNode_push_down ord text m sel :
  GetSelectedNode m = Some sel →
  ID sel ≠ "0"%string →
  palette_ready m →
  let y := (Y sel + inject_Z (Height sel) + 3)%Q in
  ∃ m',
    AddSiblingNode ord text m = Some m'
    ∧ ∀ k n, k ≠ pretty (NextID m) → Nodes m !! k = Some n →
        ∃ n', Nodes m' !! k = Some n'
              ∧ X n' = X n
              ∧ ((y <= Y n)%Q → Y n' = (Y n + (inject_Z 3 + 3))%Q)
              ∧ ((Y n < y)%Q → Y n' = Y n).
Proof.
  intros Hsel Hroot Hready y.
  destruct (AddSiblingNode_selected ord text m sel Hsel Hroot Hready)
    as (m' & new & Hadd & _ & _ & _ & _ & _ & _ & _ & _ & _ & _ & _ & Hrest).
  exists m'. split; [exact Hadd|]. intros k n Hk Hn.
  specialize (Hrest k Hk). rewrite Hn in Hrest. cbn in Hrest.
  inversion Hrest as [? n' Hsame Heq1 Heq2|]; subst. exists n'. split; [done|].
  eapply (pushed_node y _ (Some n) n n' (Some n')); [done| |done].
  cbn. by constructor.
Qed.

(** The same for a child placement: with existing children, the nodes at or
    below the new y move down by 6; without, no node moves. *)
Lemma AddChildNode_push_down ord text m parent :
  GetSelectedNode m = Some parent →
  palette_ready m →
  let y := (childPosition ord parent m).1.2 in
  ∃ m',
    AddChildNode ord text m = Some m'
    ∧ ∀ k n, k ≠ pretty (NextID m) → Nodes m !! k = Some n →
        ∃ n', Nodes m' !! k = Some n'
              ∧ X n' = X n
              ∧ (GetChildrenOf ord (ID parent) m = [] → Y n' = Y n)
              ∧ (GetChildrenOf ord (ID parent) m ≠ [] →
                   ((y <= Y n)%Q → Y n' = (Y n + (inject_Z 3 + 3))%Q)
                   ∧ ((Y n < y)%Q → Y n' = Y n)).
Proof.
  intros Hsel Hready y.
  destruct (AddChildNode_selected ord text m parent Hsel Hready)
    as (m' & new & Hadd & _ & _ & _ & _ & _ & _ & _ & _ & _ & _ & _ & Hrest).
  exists m'. split; [exact Hadd|]. intros k n Hk Hn.
  specialize (Hrest k Hk). pose proof (childPosition_nodes ord parent m) as Hnodes.
  subst y. destruct (childPosition ord parent m) as [[x y] m1]. cbn [fst snd] in *.
  destruct Hnodes as [[Hnone Heq]|[Hsome Heq]]; rewrite Heq in Hrest.
  - rewrite Hn in Hrest. inversion Hrest as [? n' Hsame Heq1 Heq2|]; subst.
    exists n'. split; [done|]. destruct Hsame as (_ & _ & HX & HY & _).
    split; [done|]. split; [done|]. intros Hne. by destruct Hne.
  - rewrite lookup_fmap, Hn in Hrest. cbn in Hrest.
    inversion Hrest as [? n' Hsame Heq1 Heq2|]; subst. exists n'. split; [done|].
    destruct (pushed_node y (inject_Z 3 + 3)%Q (Some n) n n' (Some n'))
      as (HX & Hdown & Hstay); [done|cbn; by constructor|done|].
    split; [done|]. split; [intros Hnil; by destruct Hsome|]. by intros _.
Qed.

(** C3. In [two_children_doc] the node "2" sits at y = 6. A sibling of "1"
    with a text of two lines (height 4) is inserted at the threshold y = 6:
    the node "2" moves down by 3 + 3 = 6 to y = 12, not by the height of the
    new node plus the spacing, 4 + 3 = 7. *)
Theorem AddSiblingNode_pushes_by_default_height :
  ∃ m below m' new below',
    two_children_doc = Some m
    ∧ Nodes m !! "2"%string = Some below
    ∧ AddSiblingNode ["0"; "1"; "2"]%string two_line_text m = Some m'
    ∧ Nodes m' !! "3"%string = Some new
    ∧ Nodes m' !! "2"%string = Some below'
    ∧ (Y new == 6)%Q ∧ Height new = 4
    ∧ (Y below == 6)%Q
    ∧ (Y below' == Y below + (3 + 3))%Q
    ∧ ¬ (Y below' == Y below + (inject_Z (Height new) + 3))%Q.
Proof.
  eexists _, _, _, _, _.
  split; [vm_compute; reflexivity|]. split; [vm_compute; reflexivity|].
  split; [vm_compute; reflexivity|]. split; [vm_compute; reflexivity|].
  split; [vm_compute; reflexivity|]. split; [reflexivity|].
  split; [reflexivity|]. split; [reflexivity|]. split; [reflexivity|].
  discriminate.
Qed.

(** ** Colours *)

Lemma AddChildNode_unselected ord text m :
  GetSelectedNode m = None →
  ∃ m' new,
    AddChildNode ord text m = Some m'
    ∧ Nodes m' !! pretty (NextID m) = Some new
    ∧ ID new = pretty (NextID m)
    ∧ ParentID new = EmptyString
    ∧ NextColorIndex m' = NextColorIndex m
    ∧ ColorPalette m' = ColorPalette m
    ∧ ∀ k, k ≠ pretty (NextID m) → Nodes m' !! k = Nodes m !! k.
Proof.
  intros Hsel. unfold AddChildNode.
  change (GetSelectedNode (Model_with_NextID _ m)) with (GetSelectedNode m).
  rewrite Hsel. cbn [Camera.GetViewportCenter]. unfold colorChild.
  rewrite decide_False by done. rewrite decide_False by (intros H; by apply H).
  cbn [mbind option_bind]. rewrite decide_False by (intros H; by apply H).
  eexists _, _. split; [reflexivity|].
  cbn [Nodes NextColorIndex ColorPalette Model_with_StatusMsg Model_with_Selected
       Model_with_Nodes Model_with_NextID].
  split; [apply lookup_insert_eq|].
  unfold NewNode. destruct (calculateNodeSize text) as [width height].
  split; [done|]. split; [done|]. split; [done|]. split; [done|].
  intros k Hk. by rewrite lookup_insert_ne.
Qed.

Lemma DeleteNode_fields ord id m :
  ColorPalette (DeleteNode ord id m) = ColorPalette m
  ∧ NextColorIndex (DeleteNode ord id m) = NextColorIndex m
  ∧ (Nodes (DeleteNode ord id m) = Nodes m
     ∨ Nodes (DeleteNode ord id m) = delete id (Nodes m)).
Proof.
  unfold DeleteNode. case_decide; [by auto|].
  cbn [Selected Nodes Model_with_Nodes Model_with_Edges].
  case_decide; [destruct (range _ _) as [|[??]?]|]; by auto.
Qed.

Lemma selectNodeInDirection_fields ord dx dy m :
  ColorPalette (selectNodeInDirection ord dx dy m) = ColorPalette m
  ∧ NextColorIndex (selectNodeInDirection ord dx dy m) = NextColorIndex m
  ∧ Nodes (selectNodeInDirection ord dx dy m) = Nodes m
  ∧ Edges (selectNodeInDirection ord dx dy m) = Edges m.
Proof.
  unfold selectNodeInDirection. destruct (GetSelectedNode m); [|done].
  destruct (GetCenter _). destruct (fold_left _ _ _) as [[best|] ?]; done.
Qed.

Lemma well_keyed_selected m sel :
  well_keyed (Nodes m) → GetSelectedNode m = Some sel →
  Nodes m !! ID sel = Some sel ∧ ID sel ≠ EmptyString.
Proof.
  unfold GetSelectedNode. intros Hwk Hsel. case_decide as Hne; [|done].
  rewrite (Hwk _ _ Hsel). done.
Qed.

(** Storing a node under its identity next to nodes that keep theirs. *)
Lemma well_keyed_store (nodes nodes' : gmap string Node) id new :
  well_keyed nodes →
  nodes' !! id = Some new → ID new = id →
  (∀ k, k ≠ id →
     option_Forall2 (fun n n' => ID n = ID n') (nodes !! k) (nodes' !! k)) →
  well_keyed nodes'.
Proof.
  intros Hwk Hnew Hid Hrest k n' Hk. destruct (decide (k = id)) as [->|Hne].
  - by simplify_eq.
  - specialize (Hrest k Hne). rewrite Hk in Hrest.
    inversion Hrest as [n ? Heq Hn|]; subst. rewrite <- Heq. by apply (Hwk k).
Qed.

Lemma palette_ready_state m k :
  coloring_state m k → Z.of_nat k < 2 ^ 63 - 1 → palette_ready m.
Proof.
  intros (_ & HP & HC) Hk. unfold palette_ready. rewrite HP, HC.
  split; [done|lia].
Qed.

Lemma paletteColor_state m k color :
  coloring_state m k → Z.of_nat k < 2 ^ 63 - 1 →
  paletteColor m = Some color →
  palette !! (k mod length palette)%nat = Some color.
Proof.
  intros Hst Hk Hcolor.
  destruct (paletteColor_ready m (palette_ready_state m k Hst Hk))
    as (color' & Hcolor' & Hlook).
  destruct Hst as (_ & HP & HC). rewrite HP, HC in Hlook.
  rewrite <- Nat2Z.inj_mod, Nat2Z.id in Hlook. congruence.
Qed.

Lemma rootCount_cons c log :
  rootCount (c :: log) = ((if under_root c then 1 else 0) + rootCount log)%nat.
Proof.
  unfold rootCount. rewrite filter_cons.
  destruct (under_root c); case_decide; done.
Qed.

(** One creation keeps the colouring state and follows the rule. *)
Lemma creation_colored (m m' : Model) k (new : Node) :
  coloring_state m k →
  Z.of_nat k < 2 ^ 63 - 1 →
  Nodes m' !! pretty (NextID m) = Some new →
  ID new = pretty (NextID m) →
  (∀ j, j ≠ pretty (NextID m) →
     option_Forall2 (fun n n' => ID n = ID n') (Nodes m !! j) (Nodes m' !! j)) →
  ColorPalette m' = ColorPalette m →
  (ParentID new = "0"%string →
     paletteColor m = Some (Color new)
     ∧ NextColorIndex m' = NextColorIndex m + 1) →
  (ParentID new ≠ "0"%string →
     NextColorIndex m' = NextColorIndex m
     ∧ ∀ r, GetSelectedNode m = Some r → Color new = Color r) →
  colored_by_rule k (mkCreation (GetSelectedNode m) (Nodes m' !! pretty (NextID m)))
  ∧ coloring_state m'
      (k + rootCount [mkCreation (GetSelectedNode m) (Nodes m' !! pretty (NextID m))]).
Proof.
  intros Hst Hk Hnew Hid Hrest HP Hroot Hother.
  assert (well_keyed (Nodes m')) as Hwk'.
  { destruct Hst as (Hwk & _). by eapply well_keyed_store. }
  rewrite rootCount_cons. unfold under_root at 1. cbn [created]. rewrite Hnew.
  change (rootCount []) with 0%nat.
  split.
  - exists new. cbn [created reference]. split; [done|]. split.
    + intros Hp. apply (paletteColor_state m); [done..|]. by apply Hroot.
    + intros Hp. by apply Hother.
  - destruct Hst as (Hwk & HPm & HCm).
    destruct (decide (ParentID new = "0"%string)) as [Hp|Hp].
    + rewrite bool_decide_eq_true_2 by done. cbn.
      split; [done|]. split; [congruence|].
      destruct (Hroot Hp) as [_ ->]. lia.
    + rewrite bool_decide_eq_false_2 by done. cbn.
      split; [done|]. split; [congruence|].
      destruct (Hother Hp) as [-> _]. lia.
Qed.

Lemma same_box_ID (o o' : option Node) :
  option_Forall2 same_box o o' →
  option_Forall2 (fun n n' => ID n = ID n') o o'.
Proof. intros [n n' Hbox|]; constructor. apply Hbox. Qed.

Lemma pushDown_ID thresholdY amount (nodes : gmap string Node) j :
  option_Forall2 (fun n n' => ID n = ID n')
    (nodes !! j) (pushDown thresholdY amount <$> nodes !! j).
Proof.
  destruct (nodes !! j) as [n|]; constructor.
  symmetry. apply pushDown_fields.
Qed.

Lemma option_Forall2_ID_trans (o1 o2 o3 : option Node) :
  option_Forall2 (fun n n' => ID n = ID n') o1 o2 →
  option_Forall2 (fun n n' => ID n = ID n') o2 o3 →
  option_Forall2 (fun n n' => ID n = ID n') o1 o3.
Proof.
  intros [n1 n2 H12|] H23; inversion H23; subst; constructor. congruence.
Qed.

Lemma AddChildNode_colored ord text m k :
  coloring_state m k →
  Z.of_nat k < 2 ^ 63 - 1 →
  ∃ m',
    AddChildNode ord text m = Some m'
    ∧ colored_by_rule k
        (mkCreation (GetSelectedNode m) (Nodes m' !! pretty (NextID m)))
    ∧ coloring_state m'
        (k + rootCount [mkCreation (GetSelectedNode m) (Nodes m' !! pretty (NextID m))]).
Proof.
  intros Hst Hk. destruct (GetSelectedNode m) as [sel|] eqn:Hsel.
  - destruct (AddChildNode_selected ord text m sel Hsel
                (palette_ready_state m k Hst Hk))
      as (m' & new & Hadd & Hnew & Hid & _ & _ & _ & _ & HPar & Hroot & Hother
          & HP & _ & Hrest).
    exists m'. split; [exact Hadd|]. rewrite <- Hsel.
    destruct (well_keyed_selected m sel (proj1 Hst) Hsel) as [Hlook Hne].
    apply (creation_colored m m' k new); try done.
    + intros j Hj. eapply option_Forall2_ID_trans; [|apply same_box_ID, Hrest, Hj].
      pose proof (childPosition_nodes ord sel m) as Hnodes.
      destruct (childPosition ord sel m) as [[x y] m1]. cbn [snd].
      destruct Hnodes as [[_ ->]|[_ ->]].
      * destruct (Nodes m !! j); by constructor.
      * rewrite lookup_fmap. apply pushDown_ID.
    + rewrite HPar. exact Hroot.
    + rewrite HPar. intros Hp. destruct (Hother Hp) as [HC Hcol].
      split; [exact HC|]. intros r Hr. rewrite Hsel in Hr. simplify_eq.
      by apply Hcol.
  - destruct (AddChildNode_unselected ord text m Hsel)
      as (m' & new & Hadd & Hnew & Hid & HPar & HC & HP & Hrest).
    exists m'. split; [exact Hadd|]. rewrite <- Hsel.
    apply (creation_colored m m' k new); try done.
    + intros j Hj. rewrite (Hrest j Hj). destruct (Nodes m !! j); by constructor.
    + by rewrite HPar.
    + intros _. split; [exact HC|]. intros r Hr. by rewrite Hsel in Hr.
Qed.

Lemma AddSiblingNode_colored ord text m k :
  coloring_state m k →
  Z.of_nat k < 2 ^ 63 - 1 →
  ∃ m',
    AddSiblingNode ord text m = Some m'
    ∧ colored_by_rule k
        (mkCreation (GetSelectedNode m) (Nodes m' !! pretty (NextID m)))
    ∧ coloring_state m'
        (k + rootCount [mkCreation (GetSelectedNode m) (Nodes m' !! pretty (NextID m))]).
Proof.
  intros Hst Hk. destruct (GetSelectedNode m) as [sel|] eqn:Hsel.
  - destruct (decide (ID sel = "0"%string)) as [Hroot|Hroot].
    + rewrite (AddSiblingNode_root ord text m sel Hsel Hroot), <- Hsel.
      by apply AddChildNode_colored.
    + destruct (AddSiblingNode_selected ord text m sel Hsel Hroot
                  (palette_ready_state m k Hst Hk))
        as (m' & new & Hadd & Hnew & Hid & _ & _ & _ & _ & HPar & Hpal & Hother
            & HP & _ & Hrest).
      exists m'. split; [exact Hadd|]. rewrite <- Hsel.
      apply (creation_colored m m' k new); try done.
      * intros j Hj.
        eapply option_Forall2_ID_trans; [|apply same_box_ID, Hrest, Hj].
        apply pushDown_ID.
      * rewrite HPar. exact Hpal.
      * rewrite HPar. intros Hp. destruct (Hother Hp) as [HC Hcol].
        split; [exact HC|]. intros r Hr. rewrite Hsel in Hr. by simplify_eq.
  - assert (AddSiblingNode ord text m = AddChildNode ord text m) as ->
      by (unfold AddSiblingNode; by rewrite Hsel).
    rewrite <- Hsel. by apply AddChildNode_colored.
Qed.

Section Runs.

Variable Sscanf_d : string -> option Z.

Lemma step_colored op m k :
  coloring_state m k →
  op_ok op →
  Z.of_nat k < 2 ^ 63 - 1 →
  ∃ m',
    step Sscanf_d op m = Some m'
    ∧ Forall (colored_by_rule k) (creations op m m')
    ∧ coloring_state m' (k + rootCount (creations op m m')).
Proof.
  intros Hst Hok Hk. destruct op as [ord text|ord text|ord id|ord dx dy|ord file];
    cbn [step creations].
  - destruct (AddChildNode_colored ord text m k Hst Hk) as (m' & Hadd & Hrule & Hst').
    exists m'. split; [exact Hadd|]. split; [by constructor|exact Hst'].
  - destruct (AddSiblingNode_colored ord text m k Hst Hk)
      as (m' & Hadd & Hrule & Hst').
    exists m'. split; [exact Hadd|]. split; [by constructor|exact Hst'].
  - eexists. split; [reflexivity|]. split; [constructor|].
    change (rootCount []) with 0%nat. rewrite Nat.add_0_r.
    destruct Hst as (Hwk & HP & HC).
    destruct (DeleteNode_fields ord id m) as (HP' & HC' & Hnodes).
    split; [|split; congruence].
    destruct Hnodes as [->| ->]; [done|]. by apply map_Forall_delete.
  - eexists. split; [reflexivity|]. split; [constructor|].
    change (rootCount []) with 0%nat. rewrite Nat.add_0_r.
    destruct Hst as (Hwk & HP & HC).
    destruct (selectNodeInDirection_fields ord dx dy m) as (HP' & HC' & Hnodes & _).
    split; [by rewrite Hnodes|split; congruence].
  - change (rootCount []) with 0%nat. rewrite Nat.add_0_r.
    destruct file as [| | |data].
    + exists m. split; [reflexivity|]. split; [constructor|exact Hst].
    + exists m. split; [reflexivity|]. split; [constructor|exact Hst].
    + destruct Hok.
    + destruct (LoadFromFile_Decoded Sscanf_d ord data m)
        as (m' & Hload & Hnodes & _ & HC' & HP').
      exists m'. rewrite Hload. split; [reflexivity|]. split; [constructor|].
      destruct Hst as (Hwk & HP & HC).
      split; [by rewrite Hnodes|split; congruence].
Qed.

Lemma run_colored ops : ∀ m k,
  coloring_state m k →
  Forall op_ok ops →
  Z.of_nat (k + length ops) < 2 ^ 63 →
  ∃ m' log,
    run Sscanf_d ops m = Some (m', log)
    ∧ coloring_state m' (k + rootCount log)
    ∧ ∀ i c, log !! i = Some c → colored_by_rule (k + rootCount (take i log)) c.
Proof.
  induction ops as [|op ops IH]; intros m k Hst Hok Hlen.
  - exists m, []. split; [reflexivity|].
    change (rootCount []) with 0%nat. rewrite Nat.add_0_r. split; [exact Hst|].
    intros i c Hi. by rewrite lookup_nil in Hi.
  - apply Forall_cons in Hok as [Hop Hok]. cbn [length] in Hlen.
    destruct (step_colored op m k Hst Hop ltac:(lia)) as (m1 & Hstep & Hrule & Hst1).
    destruct (IH m1 _ Hst1 Hok) as (m' & log & Hrun & Hst' & Hlog).
    { assert (rootCount (creations op m m1) ≤ 1)%nat
        by (destruct op; cbn [creations]; try (cbn; lia);
            rewrite rootCount_cons; destruct (under_root _); cbn; lia).
      lia. }
    exists m', (creations op m m1 ++ log). cbn [run]. rewrite Hstep.
    cbn [mbind option_bind]. rewrite Hrun. cbn [mbind option_bind].
    split; [reflexivity|].
    assert (∀ l1 l2, rootCount (l1 ++ l2) = (rootCount l1 + rootCount l2)%nat)
      as Happ by (intros; unfold rootCount; by rewrite filter_app, length_app).
    split; [by rewrite Happ, Nat.add_assoc|].
    intros i c Hi. apply lookup_app_Some in Hi as [Hi|[Hge Hi]].
    + assert (i < length (creations op m m1))%nat as Hlt by (by eapply lookup_lt_Some).
      assert (length (creations op m m1) ≤ 1)%nat by (destruct op; cbn; lia).
      assert (i = 0)%nat as -> by lia.
      change (take 0 (creations op m m1 ++ log)) with (@nil Creation).
      change (rootCount []) with 0%nat. rewrite Nat.add_0_r.
      eapply Forall_lookup_1 in Hrule; [exact Hrule|exact Hi].
    + rewrite take_app_ge by done. rewrite Happ, Nat.add_assoc. by apply Hlog.
Qed.

(** C7, amended. In every run of calls from [NewModel] (creations,
    deletions, selections and loads), shorter than the range of [int], in
    which every file that is loaded has a node map without nil nodes and
    stores each node under its own identity: no call panics; the cursor of
    the palette is the number of nodes that were created under the root; the
    node created under the root after [K] such nodes has the palette colour
    [K mod paletteSize]; and every other new node has the colour of its
    reference node, the node that was selected when it was created. *)
Theorem creations_follow_coloring_rule ops :
  Forall op_ok ops →
  Z.of_nat (length ops) < 2 ^ 63 →
  ∃ m log,
    run Sscanf_d ops NewModel = Some (m, log)
    ∧ NextColorIndex m = Z.of_nat (rootCount log)
    ∧ ∀ i c, log !! i = Some c → colored_by_rule (rootCount (take i log)) c.
Proof.
  intros Hok Hlen.
  destruct (run_colored ops NewModel 0) as (m & log & Hrun & Hst & Hlog);
    [|exact Hok|exact Hlen|].
  { split; [|done]. by apply map_Forall_singleton. }
  exists m, log. split; [exact Hrun|]. split; [apply Hst|exact Hlog].
Qed.

End Runs.

Lemma creations_follow_coloring_rule_witness :
  Forall op_ok sample_run
  ∧ ∃ m log,
      run scanDecimal sample_run NewModel = Some (m, log)
      ∧ NextColorIndex m = Z.of_nat (rootCount log)
      ∧ ∀ i c, log !! i = Some c → colored_by_rule (rootCount (take i log)) c.
Proof.
  assert (Forall op_ok sample_run) as Hok.
  { repeat constructor. by apply map_Forall_singleton. }
  split; [exact Hok|].
  apply (creations_follow_coloring_rule scanDecimal sample_run Hok).
  reflexivity.
Defined.

(** C7, as stated, fails after the reload of a file that stores a node
    under a key that is not its identity. [ill_keyed_file] stores the node
    "7" under the key "0". After the load the selection "0" names that
    node; the child created next has the parent identity "7", the code looks
    for its colour in [m.Nodes["7"]], finds nothing and leaves the colour
    empty, while the reference node has the colour "#123456". *)
Lemma creations_after_ill_keyed_load_counterexample :
  ∃ m c r node,
    run scanDecimal ill_keyed_run NewModel = Some (m, [c])
    ∧ reference c = Some r
    ∧ created c = Some node
    ∧ ParentID node = "7"%string
    ∧ Color r = "#123456"%string
    ∧ Color node = EmptyString
    ∧ ¬ colored_by_rule 0 c.
Proof.
  eexists _, _, _, _. split; [vm_compute; reflexivity|].
  split; [reflexivity|]. split; [reflexivity|]. split; [reflexivity|].
  split; [reflexivity|]. split; [reflexivity|].
  intros (node & Hnode & _ & Hrule). cbn in Hnode.
  injection Hnode as <-.
  specialize (Hrule ltac:(discriminate) _ eq_refl). discriminate Hrule.
Qed.

(** The colours of the four nodes that [sample_run] creates: the first three
    are created under the root, before and after the reload, and get the
    first three colours of the palette; the fourth is a child of the third. *)
Example sample_run_colors :
  ∃ m log,
    run scanDecimal sample_run NewModel = Some (m, log)
    ∧ (fun c => (ParentID <$> created c, Color <$> created c)) <$> log
      = [(Some "0", Some "#FF6B6B"); (Some "0", Some "#4ECDC4");
         (Some "0", Some "#45B7D1"); (Some "2", Some "#45B7D1")]%string
    ∧ NextColorIndex m = 3.
Proof.
  eexists _, _. split; [vm_compute; reflexivity|]. split; reflexivity.
Qed.

(** * Directional selection (update.go) *)

Lemma absFloat_Qabs x : (absFloat x == Qabs x)%Q.
Proof.
  unfold absFloat. destruct (Qlt_le_dec x 0) as [Hneg|Hpos].
  - symmetry. apply Qabs_neg. by apply Qlt_le_weak.
  - symmetry. by apply Qabs_pos.
Qed.

Lemma Qltb_true x y : Qltb x y = true ↔ (x < y)%Q.
Proof.
  unfold Qltb. destruct (Qlt_le_dec x y) as [Hlt|Hle]; split; try done.
  intros Hlt. exfalso. by apply (Qlt_not_le _ _ Hlt).
Qed.

Lemma Qltb_false x y : Qltb x y = false ↔ (y <= x)%Q.
Proof.
  unfold Qltb. destruct (Qlt_le_dec x y) as [Hlt|Hle]; split; try done.
  intros Hle. exfalso. by apply (Qlt_not_le _ _ Hlt).
Qed.

(** The score that the code computes is the score of the specification, and
    the code scores exactly the nodes on the requested side. *)
Lemma directionScore_spec dx dy from n :
  unit_axis dx dy →
  match directionScore dx dy (GetCenter from).1 (GetCenter from).2 n with
  | Some s => (0 < axialDistance dx dy from n)%Q ∧ (s == score dx dy from n)%Q
  | None => (axialDistance dx dy from n <= 0)%Q
  end.
Proof.
  unfold directionScore, score, axialDistance, perpendicularDistance.
  destruct (GetCenter from) as [cx cy]. destruct (GetCenter n) as [nx ny].
  cbn [fst snd].
  intros [[-> ->]|[[-> ->]|[[-> ->]|[-> ->]]]].
  - change (negb (Qeq_bool 1 0)) with true. change (Qltb 0 1) with true.
    change (Qltb 1 0) with false. cbn [andb orb].
    destruct (Qltb 0 (nx - cx)) eqn:Hside; cbn [andb orb].
    + apply Qltb_true in Hside. split; [lra|].
      rewrite !absFloat_Qabs.
      assert (0 * (nx - cx) - 1 * (ny - cy) == - (ny - cy))%Q as -> by ring.
      rewrite Qabs_opp, (Qabs_pos (nx - cx)) by lra. ring.
    + apply Qltb_false in Hside. lra.
  - change (negb (Qeq_bool (-1) 0)) with true. change (Qltb 0 (-1)) with false.
    change (Qltb (-1) 0) with true. cbn [andb orb].
    destruct (Qltb (nx - cx) 0) eqn:Hside; cbn [andb orb].
    + apply Qltb_true in Hside. split; [lra|].
      rewrite !absFloat_Qabs.
      assert (0 * (nx - cx) - -1 * (ny - cy) == ny - cy)%Q as -> by ring.
      rewrite (Qabs_neg (nx - cx)) by lra. ring.
    + apply Qltb_false in Hside. lra.
  - change (negb (Qeq_bool 0 0)) with false. change (negb (Qeq_bool 1 0)) with true.
    change (Qltb 0 1) with true. change (Qltb 1 0) with false. cbn [andb orb].
    destruct (Qltb 0 (ny - cy)) eqn:Hside; cbn [andb orb].
    + apply Qltb_true in Hside. split; [lra|].
      rewrite !absFloat_Qabs.
      assert (1 * (nx - cx) - 0 * (ny - cy) == nx - cx)%Q as -> by ring.
      rewrite (Qabs_pos (ny - cy)) by lra. ring.
    + apply Qltb_false in Hside. lra.
  - change (negb (Qeq_bool 0 0)) with false.
    change (negb (Qeq_bool (-1) 0)) with true.
    change (Qltb 0 (-1)) with false. change (Qltb (-1) 0) with true.
    cbn [andb orb].
    destruct (Qltb (ny - cy) 0) eqn:Hside; cbn [andb orb].
    + apply Qltb_true in Hside. split; [lra|].
      rewrite !absFloat_Qabs.
      assert (-1 * (nx - cx) - 0 * (ny - cy) == - (nx - cx))%Q as -> by ring.
      rewrite Qabs_opp, (Qabs_neg (ny - cy)) by lra. ring.
    + apply Qltb_false in Hside. lra.
Qed.

Lemma score_positive dx dy from n :
  (0 < axialDistance dx dy from n → 0 < score dx dy from n)%Q.
Proof.
  intros Hpos. unfold score, perpendicularDistance.
  pose proof (Qabs_nonneg (dy * ((GetCenter n).1 - (GetCenter from).1)
                           - dx * ((GetCenter n).2 - (GetCenter from).2))).
  lra.
Qed.

Lemma considerNode_best selected dx dy from processed best node :
  unit_axis dx dy →
  best_so_far selected dx dy from processed best →
  best_so_far selected dx dy from (processed ++ [node])
    (considerNode selected dx dy (GetCenter from).1 (GetCenter from).2 best node).
Proof.
  intros Haxis Hbest. unfold considerNode.
  pose proof (directionScore_spec dx dy from node Haxis) as Hscore.
  assert (∀ P : Node → Prop,
            (∀ n, n ∈ processed → P n) → P node →
            ∀ n, n ∈ processed ++ [node] → P n) as Hsnoc.
  { intros P Hold Hnew n [Hin|Hin%list_elem_of_singleton]%elem_of_app;
      [by apply Hold|by subst]. }
  destruct best as [[b|] s]; unfold best_so_far in *; cbn [fst snd] in *.
  - destruct Hbest as (Hin & Hid & Hpos & Hs & Hmin).
    assert (b ∈ processed ++ [node]) as Hin' by (apply elem_of_app; by left).
    pose proof (score_positive dx dy from b Hpos) as Hsb.
    case_decide as Hsel.
    { cbn [fst snd]. split; [done|]. split; [done|]. split; [done|].
      split; [done|]. apply (Hsnoc (fun n => _ → _ → _)); [exact Hmin|].
      intros Hne. by destruct Hne. }
    destruct (directionScore _ _ _ _ _) as [s'|].
    + destruct Hscore as [Hpos' Hs'].
      assert (Qltb s 0 = false) as -> by (apply Qltb_false; lra).
      cbn [orb]. destruct (Qltb s' s) eqn:Hlt; cbn [fst snd].
      * apply Qltb_true in Hlt.
        split; [apply elem_of_app; right; by left|]. split; [done|].
        split; [done|]. split; [done|].
        apply (Hsnoc (fun n => _ → _ → _)).
        -- intros n Hn Hne Hp. specialize (Hmin n Hn Hne Hp). lra.
        -- intros _ _. lra.
      * apply Qltb_false in Hlt.
        split; [done|]. split; [done|]. split; [done|]. split; [done|].
        apply (Hsnoc (fun n => _ → _ → _)); [exact Hmin|].
        intros _ _. lra.
    + cbn [fst snd]. split; [done|]. split; [done|]. split; [done|].
      split; [done|]. apply (Hsnoc (fun n => _ → _ → _)); [exact Hmin|].
      intros _ Hp. lra.
  - destruct Hbest as [-> Hnone].
    case_decide as Hsel.
    { cbn [fst snd]. split; [done|]. apply (Hsnoc (fun n => ¬ _)); [exact Hnone|].
      intros [Hne _]. by destruct Hne. }
    destruct (directionScore _ _ _ _ _) as [s'|].
    + destruct Hscore as [Hpos' Hs'].
      change (Qltb (-1) 0) with true. cbn [orb fst snd].
      split; [apply elem_of_app; right; by left|]. split; [done|].
      split; [done|]. split; [done|].
      apply (Hsnoc (fun n => _ → _ → _)).
      * intros n Hn Hne Hp. destruct (Hnone n Hn). by split.
      * intros _ _. lra.
    + cbn [fst snd]. split; [done|]. apply (Hsnoc (fun n => ¬ _)); [exact Hnone|].
      intros [_ Hp]. lra.
Qed.

Lemma fold_considerNode_best selected dx dy from l :
  unit_axis dx dy →
  ∀ processed best,
    best_so_far selected dx dy from processed best →
    best_so_far selected dx dy from (processed ++ l)
      (fold_left (considerNode selected dx dy (GetCenter from).1 (GetCenter from).2)
         l best).
Proof.
  intros Haxis. induction l as [|node l IH]; intros processed best Hbest.
  - by rewrite app_nil_r.
  - cbn [fold_left]. rewrite (assoc_L (++) processed [node] l : processed ++ node :: l = (processed ++ [node]) ++ l).
    apply IH. by apply considerNode_best.
Qed.

(** What [selectNodeInDirection] does when a node is selected. *)
Lemma selectNodeInDirection_spec ord dx dy m sel :
  unit_axis dx dy →
  iteration_order ord (Nodes m) →
  GetSelectedNode m = Some sel →
  let m' := selectNodeInDirection ord dx dy m in
  ((∀ k n, Nodes m !! k = Some n → ¬ eligible m dx dy sel n) → m' = m)
  ∧ ((∃ k n, Nodes m !! k = Some n ∧ eligible m dx dy sel n) →
       ∃ k best,
         Nodes m !! k = Some best
         ∧ eligible m dx dy sel best
         ∧ (∀ k' n, Nodes m !! k' = Some n → eligible m dx dy sel n →
                    (score dx dy sel best <= score dx dy sel n)%Q)
         ∧ Selected m' = ID best
         ∧ Nodes m' = Nodes m ∧ Edges m' = Edges m).
Proof.
  intros Haxis Hord Hsel m'. subst m'. unfold selectNodeInDirection. rewrite Hsel.
  pose proof (fold_considerNode_best (Selected m) dx dy sel
                (snd <$> range ord (Nodes m)) Haxis [] (None, (-1)%Q)) as Hfold.
  rewrite app_nil_l in Hfold.
  destruct (GetCenter sel) as [cx cy] eqn:Hcenter. cbn [fst snd] in Hfold.
  destruct (fold_left _ _ _) as [[b|] s]; unfold best_so_far in Hfold;
    cbn [fst snd] in Hfold.
  - destruct Hfold as (Hin & Hid & Hpos & _ & Hmin).
    { split; [done|]. intros n Hn. by apply elem_of_nil in Hn. }
    apply elem_of_range_values in Hin as [k Hk]; [|done].
    split.
    + intros Hnone. destruct (Hnone k b Hk). by split.
    + intros _. exists k, b. split; [done|]. split; [by split|].
      split; [|done].
      intros k' n Hn [Hne Hp]. apply Hmin; [|done..].
      apply elem_of_range_values; [done|]. by exists k'.
  - destruct Hfold as [_ Hnone].
    { split; [done|]. intros n Hn. by apply elem_of_nil in Hn. }
    split; [done|].
    intros (k & n & Hn & Helig). destruct (Hnone n); [|exact Helig].
    apply elem_of_range_values; [done|]. by exists k.
Qed.

(** C9. With a unit axis direction, [selectNodeInDirection] takes as
    candidates the nodes other than the selected one whose centre lies
    strictly on the requested side of the centre of the selected node,
    scores a candidate with perpendicularDistance * 2 + axialDistance,
    selects a candidate with the lowest score, and changes nothing when
    there is no candidate. *)
Theorem selectNodeInDirection_lowest_score ord dx dy m sel :
  unit_axis dx dy →
  iteration_order ord (Nodes m) →
  GetSelectedNode m = Some sel →
  let m' := selectNodeInDirection ord dx dy m in
  (∀ n, match directionScore dx dy (GetCenter sel).1 (GetCenter sel).2 n with
        | Some s => (0 < axialDistance dx dy sel n)%Q ∧ (s == score dx dy sel n)%Q
        | None => (axialDistance dx dy sel n <= 0)%Q
        end)
  ∧ ((∀ k n, Nodes m !! k = Some n → ¬ eligible m dx dy sel n) → m' = m)
  ∧ ((∃ k n, Nodes m !! k = Some n ∧ eligible m dx dy sel n) →
       ∃ k best,
         Nodes m !! k = Some best
         ∧ eligible m dx dy sel best
         ∧ (∀ k' n, Nodes m !! k' = Some n → eligible m dx dy sel n →
                    (score dx dy sel best <= score dx dy sel n)%Q)
         ∧ Selected m' = ID best
         ∧ Nodes m' = Nodes m ∧ Edges m' = Edges m).
Proof.
  intros Haxis Hord Hsel. split.
  - intros n. by apply directionScore_spec.
  - by apply selectNodeInDirection_spec.
Qed.

(** The example of the specification: A = (0,0) is selected, B = (5,0) and
    C = (5,3) lie to its right; moving right selects B, whatever the order
    in which the nodes are visited (here C is visited before B). *)
Lemma selectNodeInDirection_lowest_score_witness :
  iteration_order ["A"; "C"; "B"]%string (Nodes abc_doc)
  ∧ Selected (selectNodeInDirection ["A"; "C"; "B"]%string 1 0 abc_doc) = "B"%string.
Proof.
  assert (iteration_order ["A"; "C"; "B"]%string (Nodes abc_doc)) as Hord
    by concrete_order.
  split; [exact Hord|].
  assert (GetSelectedNode abc_doc = Some (node_at_center "A" 0 0)) as Hsel
    by reflexivity.
  destruct (selectNodeInDirection_lowest_score _ 1 0 abc_doc _
              (or_introl (conj eq_refl eq_refl)) Hord Hsel) as (_ & _ & Hsome).
  destruct Hsome as (k & best & Hk & Helig & Hmin & Hselected & _).
  { exists "B"%string, (node_at_center "B" 5 0).
    split; [reflexivity|]. split; [discriminate|reflexivity]. }
  rewrite Hselected.
  unfold abc_doc in Hk. cbn [Nodes Model_with_Selected Model_with_Nodes] in Hk.
  apply lookup_insert_Some in Hk as [[<- <-]|[_ Hk]].
  { destruct Helig as [Hne _]. by destruct Hne. }
  apply lookup_insert_Some in Hk as [[<- <-]|[_ Hk]]; [reflexivity|].
  apply lookup_singleton_Some in Hk as [<- <-].
  exfalso.
  apply (Hmin "B"%string (node_at_center "B" 5 0)); [reflexivity| |reflexivity].
  split; [discriminate|reflexivity].
Defined.

Example abc_scores :
  (score 1 0 (node_at_center "A" 0 0) (node_at_center "B" 5 0) == 5)%Q
  ∧ (score 1 0 (node_at_center "A" 0 0) (node_at_center "C" 5 3) == 11)%Q.
Proof. split; reflexivity. Qed.

Example abc_select_right_any_order :
  (fun ord => Selected (selectNodeInDirection ord 1 0 abc_doc))
    <$> permutations ["A"; "B"; "C"]%string
  = replicate 6 "B"%string.
Proof. vm_compute. reflexivity. Qed.

Example abc_select_left_unchanged :
  selectNodeInDirection ["A"; "B"; "C"]%string (-1) 0 abc_doc = abc_doc.
Proof. vm_compute. reflexivity. Qed.

(** * The edge rasterizer (renderer.go) *)

(** ** Cells *)

Lemma cell_at_Some grid y x :
  is_Some (cell_at grid y x) ↔ ∃ row, grid !! y = Some row ∧ (x < length row)%nat.
Proof.
  unfold cell_at. destruct (grid !! y) as [row|]; cbn.
  - rewrite lookup_lt_is_Some. split.
    + intros Hx. by exists row.
    + intros (row' & [= <-] & Hx). done.
  - split; [by intros [??]|by intros (? & ? & _)].
Qed.

Lemma cell_at_set_cell_eq grid y x cell :
  is_Some (cell_at grid y x) → cell_at (set_cell grid y x cell) y x = Some cell.
Proof.
  intros (row & Hrow & Hx)%cell_at_Some. unfold cell_at, set_cell.
  rewrite list_lookup_alter_eq, Hrow. cbn. by apply list_lookup_insert_eq.
Qed.

Lemma cell_at_set_cell_ne grid y x y' x' cell :
  (y, x) ≠ (y', x') →
  cell_at (set_cell grid y x cell) y' x' = cell_at grid y' x'.
Proof.
  intros Hne. unfold cell_at, set_cell.
  destruct (decide (y = y')) as [->|Hy].
  - rewrite list_lookup_alter_eq. destruct (grid !! y') as [row|]; [|done].
    cbn. apply list_lookup_insert_ne. congruence.
  - by rewrite list_lookup_alter_ne.
Qed.

Lemma set_cell_row_length grid y x cell y' :
  length <$> set_cell grid y x cell !! y' = length <$> grid !! y'.
Proof.
  unfold set_cell. destruct (decide (y = y')) as [->|Hy].
  - rewrite list_lookup_alter_eq. destruct (grid !! y'); [|done].
    cbn. by rewrite length_insert.
  - by rewrite list_lookup_alter_ne.
Qed.

Lemma getLineChar_not_blank dx dy : getLineChar dx dy ≠ blank.
Proof.
  unfold getLineChar, blank.
  repeat match goal with |- context [if ?b then _ else _] => destruct b end;
    discriminate.
Qed.

(** ** The relation between the grid before and after *)

Lemma first_writer_wins_refl grid : first_writer_wins grid grid.
Proof.
  split; [done|]. split; [done|]. intros y x cell cell' H1 H2 Hne. congruence.
Qed.

Lemma first_writer_wins_cell grid grid' y x cell :
  first_writer_wins grid grid' →
  cell_at grid y x = Some cell → is_Some (cell_at grid' y x).
Proof.
  intros (Hshape & _) Hcell.
  assert (is_Some (cell_at grid y x)) as (row & Hrow & Hx)%cell_at_Some by done.
  apply cell_at_Some. specialize (Hshape y). rewrite Hrow in Hshape.
  destruct (grid' !! y) as [row'|]; [|done]. cbn in Hshape.
  exists row'. split; [done|]. congruence.
Qed.

Lemma first_writer_wins_trans grid1 grid2 grid3 :
  first_writer_wins grid1 grid2 → first_writer_wins grid2 grid3 →
  first_writer_wins grid1 grid3.
Proof.
  intros H12 H23.
  pose proof H12 as (Hs12 & Hk12 & Hc12). pose proof H23 as (Hs23 & Hk23 & Hc23).
  split; [intros y; by rewrite Hs23|].
  split; [intros y x cell Hcell Hne; apply Hk23; [by apply Hk12|done]|].
  intros y x cell cell3 H1 H3 Hne.
  destruct (first_writer_wins_cell _ _ _ _ _ H12 H1) as [cell2 H2].
  destruct (decide (cell2 = cell)) as [->|Hne2].
  - by apply (Hc23 y x).
  - destruct (Hc12 y x cell cell2 H1 H2 Hne2) as [Hblank Hpainted].
    split; [done|]. rewrite (Hk23 y x cell2 H2 Hpainted) in H3. congruence.
Qed.

Lemma first_writer_wins_rectangular w grid grid' :
  first_writer_wins grid grid' → rectangular w grid → rectangular w grid'.
Proof.
  intros (Hshape & _) Hrect. apply Forall_lookup. intros y row' Hrow'.
  specialize (Hshape y). rewrite Hrow' in Hshape.
  destruct (grid !! y) as [row|] eqn:Hrow; [|done]. cbn in Hshape.
  eapply Forall_lookup_1 in Hrect; [|exact Hrow]. congruence.
Qed.

(** ** One guarded write *)

Lemma plot_first_writer_wins w grid x1 y1 dx dy color :
  rectangular w grid →
  ∃ grid', plot grid x1 y1 dx dy color = Some grid' ∧ first_writer_wins grid grid'.
Proof.
  intros Hrect. unfold plot.
  destruct ((0 <=? y1) && (y1 <? Z.of_nat (length grid)) && (0 <=? x1)
            && (x1 <? grid_width grid)) eqn:Hin;
    [|exists grid; split; [done|apply first_writer_wins_refl]].
  apply andb_prop in Hin as [Hin Hx2]. apply andb_prop in Hin as [Hin Hx1].
  apply andb_prop in Hin as [Hy1 Hy2].
  apply Z.leb_le in Hy1, Hx1. apply Z.ltb_lt in Hy2, Hx2.
  assert (is_Some (cell_at grid (Z.to_nat y1) (Z.to_nat x1))) as [cell Hcell].
  { apply cell_at_Some.
    destruct (lookup_lt_is_Some_2 grid (Z.to_nat y1)) as [row Hrow]; [lia|].
    exists row. split; [done|].
    assert (grid_width grid = Z.of_nat w) as Hw.
    { destruct grid as [|row0 grid]; [cbn in Hy2; lia|].
      cbn. by rewrite (Forall_inv Hrect). }
    eapply Forall_lookup_1 in Hrect; [|exact Hrow]. lia. }
  rewrite Hcell. cbn [mbind option_bind].
  destruct (Z.eqb_spec (Char cell) blank) as [Hblank|Hpainted];
    [|exists grid; split; [done|apply first_writer_wins_refl]].
  eexists. split; [reflexivity|].
  split; [intros y; apply set_cell_row_length|].
  split.
  - intros y x cell0 Hcell0 Hne. rewrite cell_at_set_cell_ne; [done|].
    intros [= <- <-]. congruence.
  - intros y x cell0 cell' Hcell0 Hcell' Hne.
    destruct (decide ((Z.to_nat y1, Z.to_nat x1) = (y, x))) as [[= <- <-]|Hpos].
    + rewrite cell_at_set_cell_eq in Hcell' by done.
      simplify_eq. split; [done|]. apply getLineChar_not_blank.
    + rewrite cell_at_set_cell_ne in Hcell' by done. congruence.
Qed.

(** ** Segments, curves and the edge pass *)

Lemma bresenhamLoop_first_writer_wins w fuel x2 y2 dx dy absDx absDy sx sy color :
  ∀ grid st,
    rectangular w grid →
    ∃ grid',
      bresenhamLoop fuel grid st x2 y2 dx dy absDx absDy sx sy color = Some grid'
      ∧ first_writer_wins grid grid'.
Proof.
  induction fuel as [|fuel IH]; intros grid [[x1 y1] err] Hrect.
  - exists grid. split; [done|apply first_writer_wins_refl].
  - cbn [bresenhamLoop].
    destruct ((x1 =? x2) && (y1 =? y2));
      [exists grid; split; [done|apply first_writer_wins_refl]|].
    destruct (bresenhamStep absDx absDy sx sy (x1, y1, err)) as [[x1' y1'] err'].
    destruct (plot_first_writer_wins w grid x1' y1' dx dy color Hrect)
      as (grid1 & -> & H1).
    cbn [mbind option_bind].
    destruct (IH grid1 (x1', y1', err')) as (grid' & Hloop & H2);
      [by eapply first_writer_wins_rectangular|].
    exists grid'. split; [done|]. by eapply first_writer_wins_trans.
Qed.

Lemma drawLineSegment_first_writer_wins w grid x1 y1 x2 y2 color :
  rectangular w grid →
  ∃ grid',
    drawLineSegment grid x1 y1 x2 y2 color = Some grid'
    ∧ first_writer_wins grid grid'.
Proof.
  intros Hrect. unfold drawLineSegment.
  destruct (plot_first_writer_wins w grid x1 y1 (x2 - x1) (y2 - y1) color Hrect)
    as (grid1 & -> & H1).
  cbn [mbind option_bind].
  destruct ((x1 =? x2) && (y1 =? y2)); [by exists grid1|].
  edestruct (bresenhamLoop_first_writer_wins w) as (grid' & Hloop & H2);
    [by eapply first_writer_wins_rectangular|].
  exists grid'. split; [exact Hloop|]. by eapply first_writer_wins_trans.
Qed.

Section Renderer.

Variable math_Sqrt : float64 -> float64.

Lemma drawSamples_first_writer_wins w samples point color :
  ∀ grid prev,
    rectangular w grid →
    ∃ grid',
      drawSamples samples grid prev point color = Some grid'
      ∧ first_writer_wins grid grid'.
Proof.
  induction samples as [|i samples IH]; intros grid prev Hrect.
  - exists grid. split; [done|apply first_writer_wins_refl].
  - cbn [drawSamples]. destruct (point i) as [curX curY].
    destruct (drawLineSegment_first_writer_wins w grid (fst prev) (snd prev)
                curX curY color Hrect) as (grid1 & -> & H1).
    cbn [mbind option_bind].
    destruct (IH grid1 (curX, curY)) as (grid' & Hrest & H2);
      [by eapply first_writer_wins_rectangular|].
    exists grid'. split; [done|]. by eapply first_writer_wins_trans.
Qed.

Lemma drawLine_first_writer_wins w grid x1 y1 x2 y2 color :
  rectangular w grid →
  ∃ grid',
    drawLine math_Sqrt grid x1 y1 x2 y2 color = Some grid'
    ∧ first_writer_wins grid grid'.
Proof. intros Hrect. unfold drawLine. by apply (drawSamples_first_writer_wins w). Qed.

Lemma drawEdge_first_writer_wins w m grid from to :
  rectangular w grid →
  ∃ grid',
    drawEdge math_Sqrt m grid from to = Some grid'
    ∧ first_writer_wins grid grid'.
Proof.
  intros Hrect. unfold drawEdge.
  destruct (GetCenter from), (GetCenter to).
  destruct (if Qltb _ _ then _ else _) as [[[fx fy] tx] ty].
  destruct (Camera.WorldToScreen _ fx fy _ _), (Camera.WorldToScreen _ tx ty _ _).
  by apply (drawLine_first_writer_wins w).
Qed.

Lemma drawEdgeList_first_writer_wins w m edges :
  ∀ grid,
    rectangular w grid →
    ∃ grid',
      drawEdgeList math_Sqrt m edges grid = Some grid'
      ∧ first_writer_wins grid grid'.
Proof.
  induction edges as [|edge edges IH]; intros grid Hrect.
  - exists grid. split; [done|apply first_writer_wins_refl].
  - cbn [drawEdgeList].
    assert (∃ grid1,
              match Nodes m !! FromID edge, Nodes m !! ToID edge with
              | Some fromNode, Some toNode =>
                  drawEdge math_Sqrt m grid fromNode toNode
              | _, _ => Some grid
              end = Some grid1 ∧ first_writer_wins grid grid1)
      as (grid1 & -> & H1).
    { destruct (Nodes m !! FromID edge) as [fromNode|];
        [destruct (Nodes m !! ToID edge) as [toNode|]|].
      - by apply (drawEdge_first_writer_wins w).
      - exists grid. split; [done|apply first_writer_wins_refl].
      - exists grid. split; [done|apply first_writer_wins_refl]. }
    cbn [mbind option_bind].
    destruct (IH grid1) as (grid' & Hrest & H2);
      [by eapply first_writer_wins_rectangular|].
    exists grid'. split; [done|]. by eapply first_writer_wins_trans.
Qed.

(** C10, amended. On the rectangular grid of a render pass, plotting a
    segment ([drawLineSegment]), a curve ([drawLine]) or all edges
    ([drawEdges]) returns a grid of the same shape in which every cell that
    was not blank is unchanged, character and colour, and every cell that
    changed was blank and now holds a glyph: within the edge pass the first
    writer of a cell wins. *)
Theorem edge_pass_first_writer_wins w grid :
  rectangular w grid →
  (∀ x1 y1 x2 y2 color,
     ∃ grid', drawLineSegment grid x1 y1 x2 y2 color = Some grid'
              ∧ first_writer_wins grid grid')
  ∧ (∀ x1 y1 x2 y2 color,
       ∃ grid', drawLine math_Sqrt grid x1 y1 x2 y2 color = Some grid'
                ∧ first_writer_wins grid grid')
  ∧ (∀ m,
       ∃ grid', drawEdges math_Sqrt m grid = Some grid'
                ∧ first_writer_wins grid grid').
Proof.
  intros Hrect. split; [|split].
  - intros. by apply (drawLineSegment_first_writer_wins w).
  - intros. by apply (drawLine_first_writer_wins w).
  - intros. by apply (drawEdgeList_first_writer_wins w).
Qed.

End Renderer.

Lemma edge_pass_first_writer_wins_witness :
  rectangular 4 sample_grid
  ∧ ∃ grid',
      drawLine sqrt_floor sample_grid 0 0 3 1 "#4ECDC4" = Some grid'
      ∧ first_writer_wins sample_grid grid'.
Proof.
  assert (rectangular 4 sample_grid) as Hrect by (by repeat constructor).
  split; [exact Hrect|].
  destruct (edge_pass_first_writer_wins sqrt_floor 4 sample_grid Hrect)
    as (_ & Hline & _).
  exact (Hline 0 0 3 1 "#4ECDC4"%string).
Defined.

(** C10, as stated, fails: a cell that the edge pass has painted does not
    keep its content for the rest of the render pass. [View] draws the nodes
    after the edges, and [drawNode] writes its cells without looking at
    them. In the document of [NewModel] with one child (window 80 by 24,
    all coordinates small integers or halves, zoom 1) the edge from the root
    to the child ends on the left border of the child's box: the cell in row
    13, column 58 holds the horizontal glyph of the edge after [drawEdges]
    and the heavy vertical border of the selected child after [drawNodes],
    in either order of the node loop. *)
Lemma View_overwrites_edge_counterexample :
  ∃ m edges cell,
    one_child_doc = Some m
    ∧ View_edges sqrt_floor m = Some edges
    ∧ cell_at edges 13 58 = Some cell
    ∧ cell = mkCell 9472 "#FF6B6B"
    ∧ Char cell ≠ blank
    ∧ ∀ ord, ord = ["0"; "1"]%string ∨ ord = ["1"; "0"]%string →
        ∃ grid,
          View_grid sqrt_floor ord m = Some grid
          ∧ cell_at grid 13 58 = Some (mkCell 9475 "#FF6B6B")
          ∧ ¬ first_writer_wins edges grid.
Proof.
  eexists _, _, _. split; [vm_compute; reflexivity|].
  split; [vm_compute; reflexivity|]. split; [vm_compute; reflexivity|].
  split; [reflexivity|]. split; [discriminate|].
  intros ord [-> | ->].
  - eexists. split; [vm_compute; reflexivity|]. split; [vm_compute; reflexivity|].
    intros (_ & Hkeep & _).
    specialize (Hkeep 13%nat 58%nat (mkCell 9472 "#FF6B6B") eq_refl ltac:(discriminate)).
    vm_compute in Hkeep. discriminate Hkeep.
  - eexists. split; [vm_compute; reflexivity|]. split; [vm_compute; reflexivity|].
    intros (_ & Hkeep & _).
    specialize (Hkeep 13%nat 58%nat (mkCell 9472 "#FF6B6B") eq_refl ltac:(discriminate)).
    vm_compute in Hkeep. discriminate Hkeep.
Qed.

(** A segment along the first row of [sample_grid]: the painted cell at
    column 1 keeps its glyph and its colour, the blank cells get the glyph of
    the segment. *)
Example drawLineSegment_sample :
  drawLineSegment sample_grid 0 0 3 0 "#4ECDC4"
  = Some [[mkCell 9472 "#4ECDC4"; mkCell 9472 "#FF6B6B"; mkCell 9472 "#4ECDC4";
           mkCell 9472 "#4ECDC4"];
          [mkCell blank EmptyString; mkCell blank EmptyString;
           mkCell blank EmptyString; mkCell blank EmptyString]].
Proof. vm_compute. reflexivity. Qed.

(** A curve from (0,0) to (3,1): its first sample is the start point itself,
    drawn as a dot; the painted cell at column 1 is passed over. *)
Example drawLine_sample :
  (fun grid => map (map Char) grid) <$> drawLine sqrt_floor sample_grid 0 0 3 1 "#4ECDC4"
  = Some [[183; 9472; blank; blank]; [blank; blank; 9586; 9472]].
Proof. vm_compute. reflexivity. Qed.

(** ** The Bresenham loop ends *)

(** A turn on a line that is at least as wide as it is high: x advances, and
    y follows the line to within half a cell. *)
Lemma bresenhamStep_wide a b sx sy x1 y1 k j :
  0 < a → 0 <= b <= a → 0 <= k →
  2 * b * k - a <= 2 * a * j < 2 * b * k + a →
  ∃ j',
    bresenhamStep a b sx sy (x1 + sx * k, y1 + sy * j, a - b - k * b + j * a)
    = (x1 + sx * (k + 1), y1 + sy * j', a - b - (k + 1) * b + j' * a)
    ∧ 2 * b * (k + 1) - a <= 2 * a * j' < 2 * b * (k + 1) + a.
Proof.
  intros Ha Hb Hk Hj. unfold bresenhamStep.
  assert (- b < 2 * (a - b - k * b + j * a)) as Hx.
  { destruct (decide (b = a)) as [->|Hne]; [|nia].
    assert (a * (2 * j - 2 * k + 1) ≠ 0) as Hodd by (apply Z.neq_mul_0; lia).
    nia. }
  apply Z.ltb_lt in Hx. rewrite Hx.
  destruct (Z.ltb_spec (2 * (a - b - k * b + j * a)) a) as [Hy|Hy].
  - exists (j + 1). split; [f_equal; [f_equal|]; ring|nia].
  - exists j. split; [f_equal; [f_equal|]; ring|nia].
Qed.

(** A turn on a line that is higher than it is wide: y advances, and x
    follows. *)
Lemma bresenhamStep_high a b sx sy x1 y1 k i :
  0 <= a < b → 0 <= k →
  2 * a * k - b <= 2 * b * i < 2 * a * k + b →
  ∃ i',
    bresenhamStep a b sx sy (x1 + sx * i, y1 + sy * k, a - b - i * b + k * a)
    = (x1 + sx * i', y1 + sy * (k + 1), a - b - i' * b + (k + 1) * a)
    ∧ 2 * a * (k + 1) - b <= 2 * b * i' < 2 * a * (k + 1) + b.
Proof.
  intros Hab Hk Hi. unfold bresenhamStep.
  destruct (Z.ltb_spec (- b) (2 * (a - b - i * b + k * a))) as [Hx|Hx].
  - assert (2 * (a - b - i * b + k * a) < a) as Hy by nia.
    apply Z.ltb_lt in Hy. rewrite Hy.
    exists (i + 1). split; [f_equal; [f_equal|]; ring|nia].
  - assert (2 * (a - b - i * b + k * a) < a) as Hy by nia.
    apply Z.ltb_lt in Hy. rewrite Hy.
    exists i. split; [f_equal; [f_equal|]; ring|nia].
Qed.

(** After [max |dx| |dy|] turns the loop of [drawLineSegment] stands on
    [(x2, y2)]. *)
Lemma bresenham_reaches x1 y1 x2 y2 :
  ∃ err,
    bresenhamAfter (Z.to_nat (Z.max (Z.abs (x2 - x1)) (Z.abs (y2 - y1)))) x1 y1 x2 y2
    = (x2, y2, err).
Proof.
  unfold bresenhamAfter.
  set (a := Z.abs (x2 - x1)). set (b := Z.abs (y2 - y1)).
  set (sx := if x1 <? x2 then 1 else -1). set (sy := if y1 <? y2 then 1 else -1).
  assert (sx * a = x2 - x1) as Hsx
    by (subst sx a; destruct (Z.ltb_spec x1 x2); lia).
  assert (sy * b = y2 - y1) as Hsy
    by (subst sy b; destruct (Z.ltb_spec y1 y2); lia).
  assert (0 <= a ∧ 0 <= b) as [Ha Hb] by (subst a b; lia).
  destruct (Z_le_gt_dec b a) as [Hwide|Hhigh].
  - rewrite Z.max_l by done.
    destruct (decide (0 < a)) as [Hpos|Hzero].
    2:{ assert (a = 0 ∧ b = 0) as [Ha0 Hb0] by lia.
        rewrite Ha0. cbn [Z.to_nat Nat.iter nat_rect]. exists (0 - b).
        rewrite Ha0 in Hsx. rewrite Hb0 in Hsy.
        replace x2 with x1 by lia. replace y2 with y1 by lia. reflexivity. }
    assert (∀ k : nat, ∃ j,
              Nat.iter k (bresenhamStep a b sx sy) (x1, y1, a - b)
              = (x1 + sx * Z.of_nat k, y1 + sy * j, a - b - Z.of_nat k * b + j * a)
              ∧ 2 * b * Z.of_nat k - a <= 2 * a * j < 2 * b * Z.of_nat k + a)
      as Hinv.
    { induction k as [|k (j & IH & Hj)].
      - exists 0. split; [cbn; f_equal; [f_equal|]; ring|lia].
      - destruct (bresenhamStep_wide a b sx sy x1 y1 (Z.of_nat k) j)
          as (j' & Hstep & Hj'); [lia..|].
        exists j'. rewrite Nat.iter_succ, IH, Hstep.
        split; [f_equal; [f_equal|]; lia|lia]. }
    destruct (Hinv (Z.to_nat a)) as (j & -> & Hj). rewrite Z2Nat.id in * by done.
    assert (j = b) as -> by nia.
    replace (x1 + sx * a) with x2 by lia. replace (y1 + sy * b) with y2 by lia.
    by eexists.
  - rewrite Z.max_r by lia.
    assert (∀ k : nat, ∃ i,
              Nat.iter k (bresenhamStep a b sx sy) (x1, y1, a - b)
              = (x1 + sx * i, y1 + sy * Z.of_nat k, a - b - i * b + Z.of_nat k * a)
              ∧ 2 * a * Z.of_nat k - b <= 2 * b * i < 2 * a * Z.of_nat k + b)
      as Hinv.
    { induction k as [|k (i & IH & Hi)].
      - exists 0. split; [cbn; f_equal; [f_equal|]; ring|lia].
      - destruct (bresenhamStep_high a b sx sy x1 y1 (Z.of_nat k) i)
          as (i' & Hstep & Hi'); [lia..|].
        exists i'. rewrite Nat.iter_succ, IH, Hstep.
        split; [f_equal; [f_equal|]; lia|lia]. }
    destruct (Hinv (Z.to_nat b)) as (i & -> & Hi). rewrite Z2Nat.id in * by done.
    assert (i = a) as -> by nia.
    replace (x1 + sx * a) with x2 by lia. replace (y1 + sy * b) with y2 by lia.
    by eexists.
Qed.

(** Once the loop stands on [(x2, y2)] after [d] turns, more fuel than [d]
    changes nothing: the loop breaks there. *)
Lemma bresenhamLoop_enough_fuel x2 y2 dx dy absDx absDy sx sy color d extra :
  ∀ grid st,
    (Nat.iter d (bresenhamStep absDx absDy sx sy) st).1 = (x2, y2) →
    bresenhamLoop (d + extra) grid st x2 y2 dx dy absDx absDy sx sy color
    = bresenhamLoop d grid st x2 y2 dx dy absDx absDy sx sy color.
Proof.
  induction d as [|d IH]; intros grid [[x1 y1] err] Hreach.
  - cbn in Hreach. simplify_eq. destruct extra as [|extra]; [done|].
    cbn [Nat.add bresenhamLoop]. by rewrite !Z.eqb_refl.
  - cbn [Nat.add bresenhamLoop].
    destruct ((x1 =? x2) && (y1 =? y2)); [done|].
    rewrite Nat.iter_succ_r in Hreach.
    destruct (bresenhamStep absDx absDy sx sy (x1, y1, err)) as [[x1' y1'] err']
      eqn:Hstep.
    destruct (plot grid x1' y1' dx dy color) as [grid1|]; [|done].
    cbn [mbind option_bind]. by apply IH.
Qed.

(** The fuel of [drawLineSegment] is enough: with any more fuel the loop
    gives the same grid. *)
Lemma drawLineSegment_enough_fuel grid x1 y1 x2 y2 color extra :
  let absDx := Z.abs (x2 - x1) in
  let absDy := Z.abs (y2 - y1) in
  let sx := if x1 <? x2 then 1 else -1 in
  let sy := if y1 <? y2 then 1 else -1 in
  bresenhamLoop (Z.to_nat (Z.max absDx absDy) + extra) grid (x1, y1, absDx - absDy)
    x2 y2 (x2 - x1) (y2 - y1) absDx absDy sx sy color
  = bresenhamLoop (Z.to_nat (Z.max absDx absDy)) grid (x1, y1, absDx - absDy)
      x2 y2 (x2 - x1) (y2 - y1) absDx absDy sx sy color.
Proof.
  intros absDx absDy sx sy. apply bresenhamLoop_enough_fuel.
  destruct (bresenham_reaches x1 y1 x2 y2) as [err Hreach].
  unfold bresenhamAfter in Hreach. fold absDx absDy sx sy in Hreach.
  by rewrite Hreach.
Qed.

(** * More on the camera (camera.go) *)

Local Open Scope Q_scope.

(** X1. The zoom keys clamp: a camera whose zoom and target zoom lie in
    [0.25, 4] keeps both there through every sequence of pans, zooms, resets
    and animation ticks. *)
Theorem zoom_stays_in_range (c : Camera.t) (ops : list Camera.Op) :
  zoom_in_range c → zoom_in_range (Camera.run ops c).
Proof.
  revert c. induction ops as [|o ops IH]; intros c Hc; [done|].
  apply IH. clear IH. destruct Hc as [Hz Ht]. destruct o; cbn [Camera.step].
  - done.
  - split; [done|]. cbn. destruct (Qlt_le_dec _ _); lra.
  - split; [done|]. cbn. destruct (Qlt_le_dec _ _); lra.
  - unfold Camera.Update.
    destruct (Camera.approach (Camera.X c) _ _) as [x mx].
    destruct (Camera.approach (Camera.Y c) _ _) as [y my].
    destruct (Camera.approach (Camera.Zoom c) _ _) as [z mz] eqn:Hz'.
    split; [|exact Ht]. cbn. unfold Camera.approach in Hz'.
    destruct (Qlt_le_dec _ _); simplify_eq; lra.
  - split; split; by vm_compute.
Qed.

Lemma zoom_stays_in_range_witness :
  zoom_in_range Camera.NewCamera
  ∧ zoom_in_range
      (Camera.run (replicate 9 Camera.OpZoomIn ++ [Camera.OpTick; Camera.OpZoomOut])
         Camera.NewCamera).
Proof.
  assert (zoom_in_range Camera.NewCamera) as Hnew by (split; split; by vm_compute).
  split; [exact Hnew|]. by apply zoom_stays_in_range.
Defined.

Lemma axis_backward_bound P z c0 s :
  Qabs P <= 1073741824 → 1 # 4 <= z <= 4 → Qabs c0 <= 1048576 →
  (Z.abs s <= 2 ^ 27)%Z →
  Qabs (F64.add (F64.div (F64.sub (F64.of_int s) c0) z) P) <= 2147483648.
Proof.
  intros HP Hz Hc Hs.
  pose proof (axis_backward_error P z c0 s HP Hz Hc ltac:(lia)) as Eb.
  set (w := F64.add _ _) in *. clearbody w.
  pose proof (Qabs_inject_Z_le s _ Hs) as H0.
  change (inject_Z (2 ^ 27)) with 134217728 in H0.
  destruct (inverse_in_range z Hz) as [Hinv Hiz].
  assert ((inject_Z s - c0) / z == (inject_Z s - c0) * / z) as Hx by reflexivity.
  rewrite Hx in Eb. revert Eb Hinv Hiz. generalize (/ z). intros iz Eb Hinv Hiz.
  apply Qabs_Qle_condition in HP, Hc, H0, Eb. apply Qabs_Qle_condition.
  split; nra.
Qed.

(** X2. Screen to world and back is the identity, with the rounding of
    every operation: at a camera in range, the world point of a screen cell
    with coordinates of magnitude [2^27] at most maps to that cell again. *)
Theorem WorldToScreen_inverts_ScreenToWorld (fused : bool) (c : Camera.t)
    (sx sy w h : Z) :
  camera_in_range c →
  (Z.abs sx <= 2 ^ 27)%Z → (Z.abs sy <= 2 ^ 27)%Z →
  (Z.abs w <= 2 ^ 21)%Z → (Z.abs h <= 2 ^ 21)%Z →
  let '(wx, wy) := Camera64.ScreenToWorld c sx sy w h in
  Camera64.WorldToScreen fused c wx wy w h = (sx, sy).
Proof.
  intros (HX & HY & Hz) Hsx Hsy Hw Hh.
  unfold Camera64.ScreenToWorld, Camera64.WorldToScreen.
  pose proof (center_bound w Hw) as Hcx. pose proof (center_bound h Hh) as Hcy.
  f_equal.
  - apply axis_same_cell; [done|done|done|lia|]. by apply axis_backward_bound.
  - apply axis_same_cell; [done|done|done|lia|]. by apply axis_backward_bound.
Qed.

Lemma WorldToScreen_inverts_ScreenToWorld_witness :
  let c := Camera.mk 3 (-2) (1 # 2) 0 0 1 in
  camera_in_range c
  ∧ let '(wx, wy) := Camera64.ScreenToWorld c 7 (-4) 80 23 in
    Camera64.WorldToScreen true c wx wy 80 23 = (7, -4)%Z.
Proof.
  intros c. assert (camera_in_range c) as Hrange by (repeat split; by vm_compute).
  split; [exact Hrange|].
  exact (WorldToScreen_inverts_ScreenToWorld true c 7 (-4) 80 23 Hrange
           ltac:(by vm_compute) ltac:(by vm_compute) ltac:(by vm_compute)
           ltac:(by vm_compute)).
Defined.

(** Far from the origin the cells 0, 1 and 7 all come back as the cell 8. *)
Example far_camera_cells :
  ∀ fused sx, sx = 0%Z ∨ sx = 1%Z ∨ sx = 7%Z →
    let '(wx, wy) := Camera64.ScreenToWorld far_camera sx 0 80 23 in
    Camera64.WorldToScreen fused far_camera wx wy 80 23 = (8, 0)%Z.
Proof. intros [|] sx [->|[->| ->]]; by vm_compute. Qed.

(** ** The animation *)


Lemma approach_snap cur target smoothness :
  Qabs (cur - target) <= Camera.threshold →
  Camera.approach cur target smoothness = (target, false).
Proof.
  intros Hnear. unfold Camera.approach.
  destruct (Qlt_le_dec _ _) as [Hfar|_]; [|done].
  exfalso. by apply (Qlt_not_le _ _ Hfar).
Qed.

Lemma Qabs_self_zero x : Qabs (x - x) <= Camera.threshold.
Proof.
  assert (x - x == 0) as -> by ring. by vm_compute.
Qed.



(** ** The animation, with rounding *)












(** Without the bound the animation can go on for ever: at [2^44] the
    values of the format are [2^-8] apart, a quarter of the way to a target
    [2^-8] away is rounded off, and the tick leaves the camera where it was
    and reports motion. *)
Example ticks_stall :
  ∀ fused,
    Camera64.approach fused 17592186044416 (17592186044416 + (1 # 256)) (1 # 4)
    = (17592186044416, true).
Proof. intros [|]; by vm_compute. Qed.

(** X5. The point the camera looks at is visible on every screen of at
    least two columns and two rows. *)
Theorem IsVisible_camera_position (c : Camera.t) (screenWidth screenHeight : Z) :
  (2 <= screenWidth)%Z → (2 <= screenHeight)%Z →
  let '(wx, wy) := Camera.GetViewportCenter c in
  IsVisible c wx wy screenWidth screenHeight = true.
Proof.
  intros Hw Hh. unfold Camera.GetViewportCenter, IsVisible, Camera.WorldToScreen.
  assert (∀ p zoom : Q, ∀ w : Z, (2 <= w)%Z →
            (0 <= math_Round ((p - p) * zoom + inject_Z w / 2)
             < w)%Z) as Hin.
  { intros p zoom w Hw2.
    pose proof (math_Round_error ((p - p) * zoom + inject_Z w / 2)) as Herr.
    set (r := math_Round _) in *. clearbody r.
    assert ((p - p) * zoom + inject_Z w / 2 == inject_Z w / 2) as Hmid by ring.
    rewrite Hmid in Herr. apply Qabs_Qle_condition in Herr as [Hlo Hhi].
    assert (2 <= inject_Z w) as Hw2'
      by (change 2 with (inject_Z 2); by rewrite <- Zle_Qle).
    assert (inject_Z w / 2 == inject_Z w * (1 # 2)) as Hhalf by field.
    rewrite Hhalf in Hlo, Hhi. split.
    - apply Z.lt_succ_r, Z.lt_pred_lt_succ. rewrite Zlt_Qlt.
      change (Z.pred 0) with (-1)%Z. change (inject_Z (-1)) with (-1). lra.
    - rewrite Zlt_Qlt. lra. }
  destruct (Hin (Camera.X c) (Camera.Zoom c) screenWidth Hw) as [Hx0 Hx1].
  destruct (Hin (Camera.Y c) (Camera.Zoom c) screenHeight Hh) as [Hy0 Hy1].
  rewrite !andb_true_iff, !Z.leb_le, !Z.ltb_lt. done.
Qed.

Lemma IsVisible_camera_position_witness :
  (2 <= 2)%Z ∧ (2 <= 24)%Z
  ∧ IsVisible (Camera.mk 7 (-3) (1 # 4) 0 0 1) 7 (-3) 2 24 = true.
Proof.
  split; [lia|]. split; [lia|].
  exact (IsVisible_camera_position (Camera.mk 7 (-3) (1 # 4) 0 0 1) 2 24
           ltac:(lia) ltac:(lia)).
Defined.

(** On a screen of one column the same point is not visible: half a column
    rounds to column 1. *)
Example IsVisible_one_column :
  IsVisible Camera.NewCamera 0 0 1 24 = false.
Proof. by vm_compute. Qed.

Local Close Scope Q_scope.

(** * More on node sizing (node.go) *)

Lemma substring_all (s : string) : String.substring 0 (String.length s) s = s.
Proof. induction s as [|c s IH]; [done|]. cbn. by rewrite IH. Qed.

Lemma substring_take_drop (s : string) : ∀ n : nat,
  (n ≤ String.length s)%nat →
  (String.substring 0 n s +:+ String.substring n (String.length s - n) s)%string = s.
Proof.
  induction s as [|c s IH]; intros [|n] Hn; cbn [String.length] in *;
    try done; try lia.
  - rewrite Nat.sub_0_r.
    change (S (String.length s)) with (String.length (String c s)).
    by rewrite substring_all.
  - change (String c (substring 0 n s +:+ substring n (String.length s - n) s)
            = String c s)%string.
    by rewrite IH by lia.
Qed.

Lemma str_take_drop (n : Z) (s : string) :
  n <= len s → (str_take n s +:+ str_drop n s)%string = s.
Proof.
  intros Hn. unfold str_take, str_drop. apply substring_take_drop.
  unfold len in Hn. lia.
Qed.

Lemma fold_right_append_app (chunks1 chunks2 : list string) (rest : string) :
  fold_right String.append rest (chunks1 ++ chunks2)
  = fold_right String.append (fold_right String.append rest chunks2) chunks1.
Proof. by rewrite fold_right_app. Qed.

Lemma breakLongWord_text maxWidth fuel : ∀ word wrappedLines,
  ∃ chunks rest,
    breakLongWord fuel maxWidth word wrappedLines = (wrappedLines ++ chunks, rest)
    ∧ fold_right String.append rest chunks = word.
Proof.
  induction fuel as [|fuel IH]; intros word wrappedLines; cbn [breakLongWord].
  - exists [], word. by rewrite app_nil_r.
  - destruct (Z.ltb_spec maxWidth (len word)) as [Hlong|Hfits].
    + destruct (IH (str_drop maxWidth word)
                  (wrappedLines ++ [str_take maxWidth word]))
        as (chunks & rest & -> & Htext).
      exists (str_take maxWidth word :: chunks), rest.
      split; [by rewrite <- (assoc_L (++))|].
      cbn [fold_right]. rewrite Htext. apply str_take_drop. lia.
    + exists [], word. by rewrite app_nil_r.
Qed.

(** X6. The hard break loses no byte: the loop that cuts a word longer than
    the width appends chunks of exactly the width and leaves a rest that
    fits, and the chunks followed by the rest spell the word. *)
Theorem breakLongWord_keeps_word (maxWidth : Z) (word : string)
    (wrappedLines : list string) :
  0 < maxWidth → 0 < len word →
  ∃ chunks rest,
    breakLongWord (String.length word) maxWidth word wrappedLines
    = (wrappedLines ++ chunks, rest)
    ∧ Forall (fun line => len line = maxWidth) chunks
    ∧ 0 < len rest <= maxWidth
    ∧ fold_right String.append rest chunks = word.
Proof.
  intros Hmax Hword.
  destruct (breakLongWord_chunks maxWidth (String.length word) Hmax word
              wrappedLines) as (chunks & rest & Hbreak & Hchunks & Hrest);
    [done|done|].
  destruct (breakLongWord_text maxWidth (String.length word) word wrappedLines)
    as (chunks' & rest' & Hbreak' & Htext).
  rewrite Hbreak in Hbreak'. injection Hbreak' as Heq ->.
  apply app_inv_head in Heq as <-. by exists chunks, rest'.
Qed.

Lemma breakLongWord_keeps_word_witness :
  0 < 22 ∧ 0 < len long_word
  ∧ ∃ chunks rest,
      breakLongWord (String.length long_word) 22 long_word ["ab"%string]
      = (["ab"%string] ++ chunks, rest)
      ∧ Forall (fun line => len line = 22) chunks
      ∧ 0 < len rest <= 22
      ∧ fold_right String.append rest chunks = long_word.
Proof.
  assert (0 < len long_word) as Hword by (by vm_compute).
  split; [lia|]. split; [exact Hword|].
  exact (breakLongWord_keeps_word 22 long_word ["ab"%string] ltac:(lia) Hword).
Defined.

(** ** The size of the box *)

Lemma wrapParagraph_adds maxWidth wrappedLines paragraph :
  0 < maxWidth →
  (length wrappedLines < length (wrapParagraph maxWidth wrappedLines paragraph))%nat.
Proof.
  intros Hmax. unfold wrapParagraph.
  destruct (len paragraph =? 0); [rewrite length_app; cbn; lia|].
  pose proof (Fields_nonempty paragraph) as Hwords.
  destruct (GoStrings.Fields paragraph) as [|first words];
    [change (Z.of_nat (length (@nil string)) =? 0) with true; cbv iota;
     rewrite length_app; cbn; lia|].
  assert ((Z.of_nat (length (first :: words)) =? 0) = false) as ->
    by (apply Z.eqb_neq; cbn [length]; lia).
  apply Forall_cons in Hwords as [Hfirst Hwords]. cbn [fold_left].
  destruct (wrapWord_lines maxWidth first wrappedLines EmptyString first)
    as (new1 & cur1 & -> & Hnew1 & Hlen1 & Hcur1);
    [done|done|done|change (len EmptyString) with 0; lia|].
  destruct (fold_wrapWord_lines maxWidth first words Hmax Hwords
              (wrappedLines ++ new1) cur1 Hlen1 Hcur1)
    as (new2 & cur2 & -> & Hnew2 & Hlen2 & Hcur2).
  apply Z.ltb_lt in Hlen2 as Hlt. rewrite Hlt, !length_app. cbn. lia.
Qed.

Lemma fold_wrapParagraph_adds maxWidth paragraphs : ∀ wrappedLines,
  0 < maxWidth →
  (length wrappedLines + length paragraphs
   ≤ length (fold_left (wrapParagraph maxWidth) paragraphs wrappedLines))%nat.
Proof.
  induction paragraphs as [|paragraph paragraphs IH]; intros wrappedLines Hmax;
    cbn [fold_left length]; [lia|].
  specialize (IH (wrapParagraph maxWidth wrappedLines paragraph) Hmax).
  pose proof (wrapParagraph_adds maxWidth wrappedLines paragraph Hmax). lia.
Qed.

Lemma wrapText_paragraphs text maxWidth :
  (1 ≤ length (wrapText text maxWidth))%nat
  ∧ (length (GoStrings.Split_newline text) ≤ length (wrapText text maxWidth))%nat.
Proof.
  unfold wrapText. set (width := if maxWidth <? 5 then 5 else maxWidth).
  assert (0 < width) as Hwidth by (subst width; destruct (Z.ltb_spec maxWidth 5); lia).
  pose proof (fold_wrapParagraph_adds width (GoStrings.Split_newline text) []
                Hwidth) as Hadds. cbn [length] in Hadds.
  destruct (Z.eqb_spec (Z.of_nat
              (length (fold_left (wrapParagraph width)
                         (GoStrings.Split_newline text) []))) 0) as [Hnone|Hsome].
  - cbn [length]. lia.
  - lia.
Qed.

(** The loop of [calculateNodeSize] that looks for the longest line. *)
Lemma fold_longest (lines : list string) : ∀ width : Z,
  let longest :=
    fold_left (fun width line => if width <? len line then len line else width)
      lines width in
  width <= longest
  ∧ (∀ line, line ∈ lines → len line <= longest)
  ∧ (∀ bound, width <= bound → (∀ line, line ∈ lines → len line <= bound) →
       longest <= bound).
Proof.
  induction lines as [|line lines IH]; intros width; cbn [fold_left].
  - split; [lia|]. split; [by intros line Hin; apply elem_of_nil in Hin|].
    intros bound Hbound _. exact Hbound.
  - specialize (IH (if width <? len line then len line else width)).
    cbv zeta in IH. destruct IH as (Hle & Hlines & Hbound).
    assert (width <= (if width <? len line then len line else width)
            ∧ len line <= (if width <? len line then len line else width))
      as [Hw Hl] by (destruct (Z.ltb_spec width (len line)); lia).
    split; [lia|]. split.
    + intros line' [->|Hin]%elem_of_cons; [lia|by apply Hlines].
    + intros bound Hwb Hall. apply Hbound.
      * destruct (Z.ltb_spec width (len line)); [|done].
        apply Hall. by left.
      * intros line' Hin. apply Hall. by right.
Qed.

(** X7. Every line that [wrapText] returns fits the width (at least 5) when
    the first word of every paragraph does. *)
Theorem wrapText_lines_fit (text : string) (maxWidth : Z) :
  let width := if maxWidth <? 5 then 5 else maxWidth in
  (∀ paragraph word,
     paragraph ∈ GoStrings.Split_newline text →
     head (GoStrings.Fields paragraph) = Some word → len word <= width) →
  Forall (fun line => len line <= width) (wrapText text maxWidth).
Proof.
  intros width Hfirst. apply Forall_forall. intros line Hin.
  destruct (Z.le_gt_cases (len line) width) as [Hfits|Hlong]; [done|].
  destruct (wrapText_long_lines text maxWidth line Hin) as (paragraph & Hp & Hhead);
    [subst width; lia|].
  exact (Hfirst paragraph line Hp Hhead).
Qed.

Lemma wrapText_lines_fit_witness :
  (∀ paragraph word,
     paragraph ∈ GoStrings.Split_newline ("ab " +:+ long_word) →
     head (GoStrings.Fields paragraph) = Some word → len word <= 22)
  ∧ Forall (fun line => len line <= 22) (wrapText ("ab " +:+ long_word) 22).
Proof.
  assert (∀ paragraph word,
            paragraph ∈ GoStrings.Split_newline ("ab " +:+ long_word) →
            head (GoStrings.Fields paragraph) = Some word → len word <= 22)
    as Hfirst.
  { intros paragraph word Hp Hhead.
    change (GoStrings.Split_newline ("ab " +:+ long_word))
      with [("ab " +:+ long_word)%string] in Hp.
    apply list_elem_of_singleton in Hp as ->.
    vm_compute in Hhead. injection Hhead as <-. by vm_compute. }
  split; [exact Hfirst|].
  exact (wrapText_lines_fit ("ab " +:+ long_word) 22 Hfirst).
Defined.

(** X8. The box of a text: at least 10 wide and 3 high, 4 columns wider than
    every wrapped line, and with at least one row for every paragraph
    between line feeds. *)
Theorem calculateNodeSize_lower_bounds (text : string) :
  let '(width, height) := calculateNodeSize text in
  10 <= width
  ∧ 3 <= height
  ∧ Z.of_nat (length (GoStrings.Split_newline text)) + 2 <= height
  ∧ Forall (fun line => len line + 4 <= width) (wrapText text maxTextWidth).
Proof.
  unfold calculateNodeSize.
  destruct (wrapText_paragraphs text maxTextWidth) as [Hone Hparagraphs].
  destruct (fold_longest (wrapText text maxTextWidth) 0) as (_ & Hlines & _).
  set (longest := fold_left _ _ 0) in *.
  assert (longest + 4 <= (if longest + 4 <? 10 then 10 else longest + 4)
          ∧ 10 <= (if longest + 4 <? 10 then 10 else longest + 4))
    as [Hw H10] by (destruct (Z.ltb_spec (longest + 4) 10); lia).
  split; [done|]. split; [lia|]. split; [lia|].
  apply Forall_forall. intros line Hin. specialize (Hlines line Hin). lia.
Qed.

(** X9. The box is at most 26 wide (the budget of 22 and the 4 columns of
    border and padding) when no paragraph starts with a word longer than 22
    bytes. *)
Theorem calculateNodeSize_width_bound (text : string) :
  (∀ paragraph word,
     paragraph ∈ GoStrings.Split_newline text →
     head (GoStrings.Fields paragraph) = Some word → len word <= maxTextWidth) →
  fst (calculateNodeSize text) <= maxTextWidth + 4.
Proof.
  intros Hfirst. unfold calculateNodeSize. cbn [fst].
  destruct (fold_longest (wrapText text maxTextWidth) 0) as (_ & _ & Hbound).
  specialize (Hbound maxTextWidth ltac:(by vm_compute)).
  set (longest := fold_left _ _ 0) in *.
  assert (longest <= maxTextWidth) as Hlongest.
  { apply Hbound. intros line Hin.
    destruct (Z.le_gt_cases (len line) maxTextWidth) as [Hfits|Hlong]; [done|].
    destruct (wrapText_long_lines text maxTextWidth line Hin)
      as (paragraph & Hp & Hhead); [exact Hlong|].
    exact (Hfirst paragraph line Hp Hhead). }
  unfold maxTextWidth in *. destruct (Z.ltb_spec (longest + 4) 10); lia.
Qed.

Lemma calculateNodeSize_width_bound_witness :
  (∀ paragraph word,
     paragraph ∈ GoStrings.Split_newline ("ab " +:+ long_word) →
     head (GoStrings.Fields paragraph) = Some word → len word <= maxTextWidth)
  ∧ fst (calculateNodeSize ("ab " +:+ long_word)) <= maxTextWidth + 4.
Proof.
  assert (∀ paragraph word,
            paragraph ∈ GoStrings.Split_newline ("ab " +:+ long_word) →
            head (GoStrings.Fields paragraph) = Some word →
            len word <= maxTextWidth)
    as Hfirst.
  { intros paragraph word Hp Hhead.
    change (GoStrings.Split_newline ("ab " +:+ long_word))
      with [("ab " +:+ long_word)%string] in Hp.
    apply list_elem_of_singleton in Hp as ->.
    vm_compute in Hhead. injection Hhead as <-. by vm_compute. }
  split; [exact Hfirst|].
  exact (calculateNodeSize_width_bound ("ab " +:+ long_word) Hfirst).
Defined.

(** * More on the document (the model file, persistence.go) *)

(** ** Links *)

(** The test of [AddEdge] finds the edge exactly when it is in the list. *)
Lemma AddEdge_test fromID toID (edges : list Edge) :
  existsb (fun edge => bool_decide (FromID edge = fromID ∧ ToID edge = toID)) edges
  = true
  ↔ mkEdge fromID toID ∈ edges.
Proof.
  induction edges as [|[f t] edges IH]; cbn [existsb].
  - split; [done|]. by intros ?%elem_of_nil.
  - rewrite orb_true_iff, IH, bool_decide_eq_true, elem_of_cons. cbn.
    split; (intros [Hhead|Htail]; [left|by right]).
    + by destruct Hhead as [-> ->].
    + by injection Hhead as -> ->.
Qed.

(** X10. [AddEdge] keeps the list of edges free of duplicates: the edge is
    in the list afterwards, next to the edges that were there, and a second
    [AddEdge] of the same pair changes neither the edges nor the nodes (the
    link is not recorded twice). *)
Theorem AddEdge_once (fromID toID : string) (m : Model) :
  NoDup (Edges m) →
  let m' := AddEdge fromID toID m in
  NoDup (Edges m')
  ∧ (∀ edge, edge ∈ Edges m' ↔ edge ∈ Edges m ∨ edge = mkEdge fromID toID)
  ∧ Edges (AddEdge fromID toID m') = Edges m'
  ∧ Nodes (AddEdge fromID toID m') = Nodes m'.
Proof.
  intros Hnodup. cbn zeta.
  assert (∀ m0, mkEdge fromID toID ∈ Edges m0 →
            AddEdge fromID toID m0 = Model_with_StatusMsg "Edge already exists" m0)
    as Hthere.
  { intros m0 Hin. apply AddEdge_test in Hin. unfold AddEdge. by rewrite Hin. }
  destruct (decide (mkEdge fromID toID ∈ Edges m)) as [Hin|Hnew].
  - rewrite !Hthere by (by rewrite ?Hthere). cbn. split; [done|].
    split; [|done]. intros edge. split; [by left|]. by intros [?| ->].
  - assert (Edges (AddEdge fromID toID m) = Edges m ++ [mkEdge fromID toID])
      as Hedges.
    { unfold AddEdge. destruct (existsb _ _) eqn:Htest; [|done].
      by apply AddEdge_test in Htest. }
    rewrite (Hthere (AddEdge fromID toID m))
      by (rewrite Hedges, elem_of_app, list_elem_of_singleton; by right).
    rewrite Hedges. cbn. split; [|split; [|done]].
    + apply NoDup_app. split; [done|]. split; [|apply NoDup_singleton].
      intros edge Hedge ->%list_elem_of_singleton. done.
    + intros edge. by rewrite elem_of_app, list_elem_of_singleton.
Qed.

Lemma AddEdge_once_witness :
  NoDup (Edges NewModel)
  ∧ Edges (AddEdge "0" "0" (AddEdge "0" "0" NewModel)) = [mkEdge "0" "0"].
Proof.
  assert (NoDup (Edges NewModel)) as Hnodup by apply NoDup_nil_2.
  split; [exact Hnodup|].
  destruct (AddEdge_once "0" "0" NewModel Hnodup) as (_ & _ & -> & _).
  reflexivity.
Defined.

(** ** Loading *)

(** X11. After a successful [LoadFromFile] the counter of identities is one
    more than the larger of 0 and the largest number that [Sscanf] reads
    from an identity of the file (up to the wrap-around of [int]): below
    [2^63 - 1], the next identity is positive and above every number read. *)
Theorem LoadFromFile_reseeds_NextID (scan : string → option Z)
    (ord : list string) (data : MindMapData) (m : Model) :
  ∃ m' maxID,
    LoadFromFile scan ord (Decoded data) m = inr m'
    ∧ NextID m' = int_wrap (maxID + 1)
    ∧ 0 <= maxID
    ∧ (∀ id numID, is_Some (dNodes data !! id) → scan id = Some numID →
         numID <= maxID)
    ∧ (maxID = 0
       ∨ ∃ id, is_Some (dNodes data !! id) ∧ scan id = Some maxID).
Proof.
  unfold LoadFromFile.
  set (turn := fun (id : string) (_ : Node) (maxID : Z) =>
                 match scan id with
                 | Some numID => if maxID <? numID then numID else maxID
                 | None => maxID
                 end).
  set (m1 := if decide _ then _ else _).
  assert (Nodes m1 = dNodes data) as ->.
  { subst m1. case_decide; [destruct (range ord _) as [|[id n] l]|]; done. }
  eexists _, (map_fold turn 0 (dNodes data)). split; [reflexivity|].
  split; [reflexivity|].
  apply (map_fold_weak_ind
           (fun maxID (nodes : gmap string Node) =>
              0 <= maxID
              ∧ (∀ id numID, is_Some (nodes !! id) → scan id = Some numID →
                   numID <= maxID)
              ∧ (maxID = 0 ∨ ∃ id, is_Some (nodes !! id) ∧ scan id = Some maxID))).
  - split; [done|]. split; [|by left].
    intros id numID [n Hn]. by rewrite lookup_empty in Hn.
  - intros id n nodes maxID Hfresh (Hpos & Hmax & Hwitness). subst turn. cbn beta.
    assert (∀ id', is_Some (nodes !! id') → is_Some (<[id:=n]> nodes !! id'))
      as Hkeep.
    { intros id' Hid'. destruct (decide (id = id')) as [->|Hne].
      - rewrite lookup_insert_eq. by eexists.
      - by rewrite lookup_insert_ne. }
    assert (maxID = 0
            ∨ ∃ id', is_Some (<[id:=n]> nodes !! id') ∧ scan id' = Some maxID)
      as Hwitness'.
    { destruct Hwitness as [?|(id' & Hid' & Hscan)]; [by left|right].
      exists id'. split; [by apply Hkeep|done]. }
    assert (∀ bound, maxID <= bound →
              (∀ numID, scan id = Some numID → numID <= bound) →
              ∀ id' numID, is_Some (<[id:=n]> nodes !! id') →
                scan id' = Some numID → numID <= bound) as Hbound.
    { intros bound Hle Hid id' numID Hid' Hscan.
      destruct (decide (id = id')) as [->|Hne]; [by apply Hid|].
      rewrite lookup_insert_ne in Hid' by done.
      specialize (Hmax id' numID Hid' Hscan). lia. }
    destruct (scan id) as [numID|] eqn:Hscan.
    + destruct (Z.ltb_spec maxID numID) as [Hlt|Hge].
      * split; [lia|]. split.
        -- apply Hbound; [lia|]. intros ? [= <-]. lia.
        -- right. exists id. split; [|done]. rewrite lookup_insert_eq. by eexists.
      * split; [done|]. split; [|done].
        apply Hbound; [lia|]. intros ? [= <-]. lia.
    + split; [done|]. split; [|done]. apply Hbound; [lia|]. intros ? [=].
Qed.

(** X12. After a successful [LoadFromFile] the camera is at rest on its
    loaded position: [Update] reports no motion and leaves it as it is. A
    selection that was there before the load is kept as it is, whether or
    not the file has such a node; without one, a node of the file is
    selected. *)
Theorem LoadFromFile_camera_and_selection (scan : string → option Z)
    (ord : list string) (data : MindMapData) (m : Model) (smoothness : float64) :
  iteration_order ord (dNodes data) →
  ∃ m',
    LoadFromFile scan ord (Decoded data) m = inr m'
    ∧ Camera.Update smoothness (mCamera m') = (mCamera m', false)
    ∧ (Selected m ≠ EmptyString → Selected m' = Selected m)
    ∧ (Selected m = EmptyString → dNodes data ≠ ∅ →
         is_Some (dNodes data !! Selected m'))
    ∧ (Selected m = EmptyString → dNodes data = ∅ → Selected m' = EmptyString).
Proof.
  intros Hord. unfold LoadFromFile. eexists. split; [reflexivity|].
  set (c := dCamera data). cbn [Selected mCamera Model_with_NextID].
  set (m0 := Model_with_Camera _ _).
  assert (mCamera (if decide (Selected m0 = EmptyString
                              ∧ 0 < Z.of_nat (size (Nodes m0)))
                   then match range ord (Nodes m0) with
                        | (id, _) :: _ => Model_with_Selected id m0
                        | [] => m0
                        end
                   else m0)
          = Camera.mk (Camera.X c) (Camera.Y c) (Camera.Zoom c)
              (Camera.X c) (Camera.Y c) (Camera.Zoom c)) as ->.
  { case_decide; [destruct (range ord _) as [|[id n] l]|]; done. }
  split.
  { unfold Camera.Update.
    cbn [Camera.X Camera.Y Camera.Zoom Camera.TargetX Camera.TargetY
         Camera.TargetZoom].
    by rewrite !approach_snap by apply Qabs_self_zero. }
  change (Selected m0) with (Selected m). change (Nodes m0) with (dNodes data).
  split; [|split].
  - intros Hsel. destruct (decide _) as [[Hnone _]|_]; done.
  - intros Hsel Hnodes.
    assert (0 < Z.of_nat (size (dNodes data))) as Hsize.
    { pose proof (map_size_non_empty_iff (dNodes data)) as Hiff.
      apply Hiff in Hnodes. lia. }
    destruct (decide _) as [_|Hno]; [|by destruct Hno].
    destruct (range ord (dNodes data)) as [|[id n] l] eqn:Hrange.
    + by apply range_nil in Hrange.
    + cbn. assert ((id, n) ∈ range ord (dNodes data)) as Hin
        by (rewrite Hrange; left).
      apply elem_of_range in Hin as [_ Hn]. by eexists.
  - intros Hsel ->. destruct (decide _) as [[_ Hsize]|_]; [|done].
    rewrite map_size_empty in Hsize. lia.
Qed.

Lemma LoadFromFile_camera_and_selection_witness :
  iteration_order ["0"]%string (dNodes stale_file)
  ∧ ∃ m',
      LoadFromFile scanDecimal ["0"]%string (Decoded stale_file)
        (Model_with_Selected "7" NewModel) = inr m'
      ∧ Camera.Update (1 # 4) (mCamera m') = (mCamera m', false)
      ∧ Selected m' = "7"%string
      ∧ Nodes m' !! "7"%string = None.
Proof.
  assert (iteration_order ["0"]%string (dNodes stale_file)) as Hord
    by concrete_order.
  split; [exact Hord|].
  destruct (LoadFromFile_camera_and_selection scanDecimal ["0"]%string stale_file
              (Model_with_Selected "7" NewModel) (1 # 4) Hord)
    as (m' & Hload & Hrest & Hkept & _).
  exists m'. split; [exact Hload|]. split; [exact Hrest|].
  split; [by apply Hkept|].
  destruct (LoadFromFile_Decoded scanDecimal ["0"]%string stale_file
              (Model_with_Selected "7" NewModel)) as (m'' & Hload' & Hnodes & _).
  rewrite Hload in Hload'. injection Hload' as <-. by rewrite Hnodes.
Defined.

(** * The document along a run of operations *)

Lemma AddEdge_Edges fromID toID m :
  Edges (AddEdge fromID toID m)
  = if decide (mkEdge fromID toID ∈ Edges m) then Edges m
    else Edges m ++ [mkEdge fromID toID].
Proof.
  unfold AddEdge. destruct (existsb _ _) eqn:Htest.
  - apply AddEdge_test in Htest. by rewrite decide_True.
  - rewrite decide_False; [done|]. intros Hin%AddEdge_test. congruence.
Qed.

Lemma AddEdge_NoDup fromID toID m :
  NoDup (Edges m) → NoDup (Edges (AddEdge fromID toID m)).
Proof.
  intros Hnodup. rewrite AddEdge_Edges. case_decide; [done|].
  apply NoDup_app. split; [done|]. split; [|apply NoDup_singleton].
  intros edge Hedge ->%list_elem_of_singleton. done.
Qed.

Lemma AddEdge_session fromID toID m :
  mMode (AddEdge fromID toID m) = mMode m
  ∧ EditBuffer (AddEdge fromID toID m) = EditBuffer m
  ∧ IsCreatingNode (AddEdge fromID toID m) = IsCreatingNode m
  ∧ IsCreatingChild (AddEdge fromID toID m) = IsCreatingChild m
  ∧ LinkSourceID (AddEdge fromID toID m) = LinkSourceID m
  ∧ mWidth (AddEdge fromID toID m) = mWidth m
  ∧ mHeight (AddEdge fromID toID m) = mHeight m.
Proof. unfold AddEdge. by destruct (existsb _ _). Qed.

(** The end of the two creations: the node is stored, the edge from its
    parent is added, the node is selected. *)
Lemma store_passive id parentID status (nodes : gmap string Node) m2 :
  let m0 := Model_with_Nodes nodes m2 in
  let m3 := if decide (parentID ≠ EmptyString) then AddEdge parentID id m0 else m0 in
  let m' := Model_with_StatusMsg status (Model_with_Selected id m3) in
  NextID m' = NextID m2
  ∧ Selected m' = id
  ∧ Edges m'
    = (if decide (parentID ≠ EmptyString)
       then (if decide (mkEdge parentID id ∈ Edges m2) then Edges m2
             else Edges m2 ++ [mkEdge parentID id])
       else Edges m2)
  ∧ mCamera m' = mCamera m2.
Proof.
  cbn zeta.
  pose proof (AddEdge_fields parentID id (Model_with_Nodes nodes m2))
    as (_ & HN & _ & _ & HC).
  split; [|split; [done|split]].
  - cbn. by case_decide.
  - cbn. case_decide; [|done]. by rewrite AddEdge_Edges.
  - cbn. by case_decide.
Qed.

Lemma colorChild_passive parentID node m node' m' :
  colorChild parentID node m = Some (node', m') →
  NextID m' = NextID m ∧ Edges m' = Edges m ∧ Nodes m' = Nodes m
  ∧ mCamera m' = mCamera m.
Proof.
  unfold colorChild. intros Hcolor.
  destruct (decide (parentID = "0"%string)).
  - destruct (paletteColor m); [|done]. cbn in Hcolor. by simplify_eq.
  - destruct (decide (parentID ≠ EmptyString)); [|by simplify_eq].
    destruct (Nodes m !! parentID); by simplify_eq.
Qed.

Lemma store_passive' id parentID status (nodes : gmap string Node) m2 :
  let m0 := Model_with_Nodes nodes m2 in
  let m3 := if decide (parentID ≠ EmptyString) then AddEdge parentID id m0 else m0 in
  let m' := Model_with_StatusMsg status (Model_with_Selected id m3) in
  NextID m' = NextID m2
  ∧ Selected m' = id
  ∧ Edges m' = withParentEdge parentID id (Edges m2)
  ∧ mCamera m' = mCamera m2.
Proof. apply store_passive. Qed.

Lemma AddChildNode_passive ord text m m' :
  AddChildNode ord text m = Some m' →
  NextID m' = int_wrap (NextID m + 1)
  ∧ Selected m' = pretty (NextID m)
  ∧ Edges m' = withParentEdge (parentOfChild m) (pretty (NextID m)) (Edges m)
  ∧ mCamera m' = mCamera m.
Proof.
  unfold AddChildNode, parentOfChild.
  change (GetSelectedNode (Model_with_NextID _ m)) with (GetSelectedNode m).
  destruct (GetSelectedNode m) as [parent|].
  - rewrite childPosition_with_NextID.
    pose proof (childPosition_fields ord parent m) as (_ & HN & _ & _ & HE & HC).
    destruct (childPosition ord parent m) as [[x y] m1]. cbn [snd] in *.
    destruct (colorChild _ _ _) as [[node m2]|] eqn:Hcolor; [|done].
    cbn [mbind option_bind]. intros [= <-].
    apply colorChild_passive in Hcolor as (HN2 & HE2 & _ & HC2).
    cbn [NextID Edges mCamera Model_with_NextID] in HN2, HE2, HC2.
    destruct (store_passive' (pretty (NextID m)) (ID parent)
                ("Created child node " +:+ pretty (NextID m))
                (<[pretty (NextID m):=node]> (Nodes m2)) m2)
      as (H1 & H2 & H3 & H4).
    cbn zeta in H1, H2, H3, H4. rewrite H1, H2, H3, H4.
    by rewrite HN2, HE2, HC2, HE, HC.
  - cbn [Camera.GetViewportCenter].
    destruct (colorChild _ _ _) as [[node m2]|] eqn:Hcolor; [|done].
    cbn [mbind option_bind]. intros [= <-].
    apply colorChild_passive in Hcolor as (HN2 & HE2 & _ & HC2).
    cbn [NextID Edges mCamera Model_with_NextID] in HN2, HE2, HC2.
    cbn [NextID Selected Edges mCamera Model_with_StatusMsg Model_with_Selected
         Model_with_Nodes].
    unfold withParentEdge. rewrite decide_False by (intros Hne; by apply Hne).
    by rewrite HN2, HE2, HC2.
Qed.

Lemma AddSiblingNode_passive ord text m m' :
  AddSiblingNode ord text m = Some m' →
  NextID m' = int_wrap (NextID m + 1)
  ∧ Selected m' = pretty (NextID m)
  ∧ Edges m' = withParentEdge (parentOfSibling m) (pretty (NextID m)) (Edges m)
  ∧ mCamera m' = mCamera m.
Proof.
  unfold AddSiblingNode, parentOfSibling.
  destruct (GetSelectedNode m) as [sel|] eqn:Hsel.
  - destruct (decide (ID sel = "0"%string)) as [Hroot|Hroot].
    + intros Hadd%AddChildNode_passive. unfold parentOfChild in Hadd.
      by rewrite Hsel in Hadd.
    + set (id := pretty (NextID m)).
      set (m1 := pushDownNodesBelow _ _ _).
      set (node := Node_with_ParentID _ _).
      intros Hadd.
      assert (∃ node' m2,
                NextID m2 = int_wrap (NextID m + 1) ∧ Edges m2 = Edges m
                ∧ mCamera m2 = mCamera m
                ∧ m' = Model_with_StatusMsg ("Created sibling node " +:+ id)
                         (Model_with_Selected id
                            (if decide (ParentID sel ≠ EmptyString)
                             then AddEdge (ParentID sel) id
                                    (Model_with_Nodes (<[id:=node']> (Nodes m2)) m2)
                             else Model_with_Nodes (<[id:=node']> (Nodes m2)) m2)))
        as (node' & m2 & HN2 & HE2 & HC2 & ->).
      { destruct (decide (ParentID sel = "0"%string)).
        - destruct (paletteColor m1) as [color|]; [|done].
          cbn [mbind option_bind] in Hadd. injection Hadd as <-.
          by exists (Node_with_Color color node),
            (Model_with_NextColorIndex (int_wrap (NextColorIndex m1 + 1)) m1).
        - cbn [mbind option_bind] in Hadd. injection Hadd as <-.
          by exists (Node_with_Color (Color sel) node), m1. }
      destruct (store_passive' id (ParentID sel) ("Created sibling node " +:+ id)
                  (<[id:=node']> (Nodes m2)) m2) as (H1 & H2 & H3 & H4).
      cbn zeta in H1, H2, H3, H4. rewrite H1, H2, H3, H4.
      by rewrite HN2, HE2, HC2.
  - intros Hadd%AddChildNode_passive. unfold parentOfChild in Hadd.
    by rewrite Hsel in Hadd.
Qed.

Lemma withParentEdge_NoDup parentID id edges :
  NoDup edges → NoDup (withParentEdge parentID id edges).
Proof.
  intros Hnodup. unfold withParentEdge. repeat case_decide; try done.
  apply NoDup_app. split; [done|]. split; [|apply NoDup_singleton].
  intros edge Hedge ->%list_elem_of_singleton. done.
Qed.

Lemma withParentEdge_elem parentID id edges edge :
  edge ∈ withParentEdge parentID id edges
  ↔ edge ∈ edges ∨ (parentID ≠ EmptyString ∧ edge = mkEdge parentID id).
Proof.
  unfold withParentEdge. destruct (decide (parentID ≠ EmptyString)) as [Hp|Hp].
  - destruct (decide (mkEdge parentID id ∈ edges)) as [Hin|Hnew].
    + split; [by left|]. by intros [?|[_ ->]].
    + rewrite elem_of_app, list_elem_of_singleton. split.
      * intros [?|?]; [by left|by right].
      * intros [?|[_ ?]]; [by left|by right].
  - split; [by left|]. by intros [?|[? _]].
Qed.

(** Both creations store a node under the next identity and leave the
    identities of the other nodes as they are. *)
Lemma AddChildNode_stores ord text m :
  palette_ready m →
  ∃ m' new,
    AddChildNode ord text m = Some m'
    ∧ Nodes m' !! pretty (NextID m) = Some new
    ∧ ID new = pretty (NextID m)
    ∧ ParentID new = parentOfChild m
    ∧ ∀ j, j ≠ pretty (NextID m) →
        option_Forall2 (fun n n' => ID n = ID n') (Nodes m !! j) (Nodes m' !! j).
Proof.
  intros Hready. unfold parentOfChild.
  destruct (GetSelectedNode m) as [sel|] eqn:Hsel.
  - destruct (AddChildNode_selected ord text m sel Hsel Hready)
      as (m' & new & Hadd & Hnew & Hid & _ & _ & _ & _ & HPar & _ & _ & _ & _
          & Hrest).
    exists m', new. split; [exact Hadd|]. split; [exact Hnew|].
    split; [exact Hid|]. split; [exact HPar|].
    intros j Hj. eapply option_Forall2_ID_trans; [|apply same_box_ID, Hrest, Hj].
    pose proof (childPosition_nodes ord sel m) as Hnodes.
    destruct (childPosition ord sel m) as [[x y] m1]. cbn [snd].
    destruct Hnodes as [[_ ->]|[_ ->]].
    + destruct (Nodes m !! j); by constructor.
    + rewrite lookup_fmap. apply pushDown_ID.
  - destruct (AddChildNode_unselected ord text m Hsel)
      as (m' & new & Hadd & Hnew & Hid & HPar & _ & _ & Hrest).
    exists m', new. split; [exact Hadd|]. split; [exact Hnew|].
    split; [exact Hid|]. split; [exact HPar|].
    intros j Hj. rewrite (Hrest j Hj). destruct (Nodes m !! j); by constructor.
Qed.

Lemma AddSiblingNode_stores ord text m :
  palette_ready m →
  ∃ m' new,
    AddSiblingNode ord text m = Some m'
    ∧ Nodes m' !! pretty (NextID m) = Some new
    ∧ ID new = pretty (NextID m)
    ∧ ParentID new = parentOfSibling m
    ∧ ∀ j, j ≠ pretty (NextID m) →
        option_Forall2 (fun n n' => ID n = ID n') (Nodes m !! j) (Nodes m' !! j).
Proof.
  intros Hready.
  destruct (AddChildNode_stores ord text m Hready) as (mc & newc & Hchild).
  unfold parentOfSibling. unfold parentOfChild in Hchild.
  destruct (GetSelectedNode m) as [sel|] eqn:Hsel.
  - destruct (decide (ID sel = "0"%string)) as [Hroot|Hroot].
    + rewrite (AddSiblingNode_root ord text m sel Hsel Hroot). by exists mc, newc.
    + destruct (AddSiblingNode_selected ord text m sel Hsel Hroot Hready)
        as (m' & new & Hadd & Hnew & Hid & _ & _ & _ & _ & HPar & _ & _ & _ & _
            & Hrest).
      exists m', new. split; [exact Hadd|]. split; [exact Hnew|].
      split; [exact Hid|]. split; [exact HPar|].
      intros j Hj. eapply option_Forall2_ID_trans; [|apply same_box_ID, Hrest, Hj].
      apply pushDown_ID.
  - assert (AddSiblingNode ord text m = AddChildNode ord text m) as ->
      by (unfold AddSiblingNode; by rewrite Hsel).
    by exists mc, newc.
Qed.

Lemma pretty_positive_not_root (i : Z) : 0 < i → pretty i ≠ "0"%string.
Proof.
  intros Hi Heq. change "0"%string with (pretty 0) in Heq.
  apply (inj pretty) in Heq. lia.
Qed.

(** What a creation does to a document that is in order. *)
Lemma creation_document_ok (m m' : Model) (new : Node) (parentID : string) :
  document_ok m →
  NextID m < 2 ^ 63 - 1 →
  Nodes m' !! pretty (NextID m) = Some new →
  ID new = pretty (NextID m) →
  (∀ j, j ≠ pretty (NextID m) →
     option_Forall2 (fun n n' => ID n = ID n') (Nodes m !! j) (Nodes m' !! j)) →
  NextID m' = int_wrap (NextID m + 1) →
  Selected m' = pretty (NextID m) →
  Edges m' = withParentEdge parentID (pretty (NextID m)) (Edges m) →
  Nodes m !! pretty (NextID m) = None
  ∧ (∀ k, is_Some (Nodes m' !! k)
          ↔ k = pretty (NextID m) ∨ is_Some (Nodes m !! k))
  ∧ NextID m' = NextID m + 1
  ∧ document_ok m'.
Proof.
  intros (Hroot & Hkeyed & Hsel & Hnodup & Hpos & Hbelow) Hmax Hnew Hid Hrest
    Hnext Hselected Hedges.
  rewrite int_wrap_small in Hnext by lia.
  assert (Nodes m !! pretty (NextID m) = None) as Hfresh.
  { destruct (Nodes m !! pretty (NextID m)) as [n|] eqn:Hn; [|done].
    destruct (Hbelow (pretty (NextID m))) as (i & Heq & Hi); [by eexists|].
    apply (inj pretty) in Heq. lia. }
  assert (∀ k, is_Some (Nodes m' !! k)
               ↔ k = pretty (NextID m) ∨ is_Some (Nodes m !! k)) as Hkeys.
  { intros k. destruct (decide (k = pretty (NextID m))) as [->|Hk].
    - rewrite Hnew. split; [by left|by eexists].
    - specialize (Hrest k Hk). split.
      + intros [n' Hn']. right. rewrite Hn' in Hrest.
        inversion Hrest. by eexists.
      + intros [?|[n Hn]]; [done|]. rewrite Hn in Hrest.
        inversion Hrest. by eexists. }
  split; [exact Hfresh|]. split; [exact Hkeys|]. split; [exact Hnext|].
  split; [|split; [|split; [|split; [|split]]]].
  - apply Hkeys. by right.
  - by apply (well_keyed_store (Nodes m) (Nodes m') (pretty (NextID m)) new).
  - right. rewrite Hselected, Hnew. by eexists.
  - rewrite Hedges. by apply withParentEdge_NoDup.
  - lia.
  - intros k [->|Hk]%Hkeys.
    + exists (NextID m). split; [done|lia].
    + destruct (Hbelow k Hk) as (i & -> & Hi). exists i. split; [done|lia].
Qed.

Lemma document_ok_NewModel : document_ok NewModel.
Proof.
  split; [by eexists|]. split; [by apply map_Forall_singleton|].
  split; [right; by eexists|]. split; [apply NoDup_nil_2|]. split; [done|].
  intros k [n Hn]. exists 0. split; [|done].
  change (Nodes NewModel) with ({["0"%string := NewNode "0" "Root Idea" 0 0]}
                                 : gmap string Node) in Hn.
  apply lookup_singleton_Some in Hn as [<- _]. done.
Qed.

Lemma palette_ready_NewModel : palette_ready NewModel.
Proof. split; [done|]. cbn. lia. Qed.

Lemma fresh_creation_intro (m : Model) (parentID : string) (result : option Model)
    (m' : Model) (new : Node) :
  document_ok m →
  NextID m < 2 ^ 63 - 1 →
  result = Some m' →
  Nodes m' !! pretty (NextID m) = Some new →
  ID new = pretty (NextID m) →
  ParentID new = parentID →
  (∀ j, j ≠ pretty (NextID m) →
     option_Forall2 (fun n n' => ID n = ID n') (Nodes m !! j) (Nodes m' !! j)) →
  NextID m' = int_wrap (NextID m + 1)
  ∧ Selected m' = pretty (NextID m)
  ∧ Edges m' = withParentEdge parentID (pretty (NextID m)) (Edges m)
  ∧ mCamera m' = mCamera m →
  fresh_creation m parentID result.
Proof.
  intros Hok Hmax Hresult Hnew Hid HPar Hrest (Hnext & Hsel & Hedges & _).
  destruct (creation_document_ok m m' new parentID Hok Hmax Hnew Hid Hrest Hnext
              Hsel Hedges) as (Hfresh & Hkeys & Hnext' & Hok').
  exists m', new. split; [exact Hresult|]. split; [exact Hfresh|].
  split; [exact Hnew|]. split; [exact Hid|]. split; [exact HPar|].
  split; [exact Hkeys|]. split; [exact Hsel|]. split; [exact Hnext'|].
  split; [|exact Hok']. intros edge. rewrite Hedges. apply withParentEdge_elem.
Qed.

Lemma AddChildNode_fresh ord text m :
  document_ok m → palette_ready m → NextID m < 2 ^ 63 - 1 →
  fresh_creation m (parentOfChild m) (AddChildNode ord text m).
Proof.
  intros Hok Hready Hmax.
  destruct (AddChildNode_stores ord text m Hready)
    as (m' & new & Hadd & Hnew & Hid & HPar & Hrest).
  apply (fresh_creation_intro m _ _ m' new); try done.
  by apply (AddChildNode_passive ord text).
Qed.

Lemma AddSiblingNode_fresh ord text m :
  document_ok m → palette_ready m → NextID m < 2 ^ 63 - 1 →
  fresh_creation m (parentOfSibling m) (AddSiblingNode ord text m).
Proof.
  intros Hok Hready Hmax.
  destruct (AddSiblingNode_stores ord text m Hready)
    as (m' & new & Hadd & Hnew & Hid & HPar & Hrest).
  apply (fresh_creation_intro m _ _ m' new); try done.
  by apply (AddSiblingNode_passive ord text).
Qed.

(** X13. A creation never overwrites a node. On a document that is in order
    (root present, nodes stored under their identities, counter above every
    identity) both [AddChildNode] and [AddSiblingNode] succeed, store the new
    node under an identity that was free, select it, list the edge from its
    parent, touch no other identity or edge, and leave the document in
    order. *)
Theorem creations_are_fresh (ord : list string) (text : string) (m : Model) :
  document_ok m → palette_ready m → NextID m < 2 ^ 63 - 1 →
  fresh_creation m (parentOfChild m) (AddChildNode ord text m)
  ∧ fresh_creation m (parentOfSibling m) (AddSiblingNode ord text m).
Proof.
  intros Hok Hready Hmax.
  split; [by apply AddChildNode_fresh|by apply AddSiblingNode_fresh].
Qed.

Lemma creations_are_fresh_witness :
  document_ok NewModel ∧ palette_ready NewModel ∧ NextID NewModel < 2 ^ 63 - 1
  ∧ fresh_creation NewModel "0" (AddChildNode ["0"]%string "a" NewModel)
  ∧ fresh_creation NewModel "0" (AddSiblingNode ["0"]%string "a" NewModel).
Proof.
  assert (NextID NewModel < 2 ^ 63 - 1) as Hmax by (by vm_compute).
  split; [exact document_ok_NewModel|]. split; [exact palette_ready_NewModel|].
  split; [exact Hmax|].
  exact (creations_are_fresh ["0"]%string "a" NewModel document_ok_NewModel
           palette_ready_NewModel Hmax).
Defined.

Lemma DeleteNode_document_ok ord id m :
  document_ok m →
  document_ok (DeleteNode ord id m) ∧ NextID (DeleteNode ord id m) = NextID m.
Proof.
  intros (Hroot & Hkeyed & Hsel & Hnodup & Hpos & Hbelow). unfold DeleteNode.
  destruct (decide (id = "0"%string)) as [Hid|Hid]; [done|].
  set (m1 := Model_with_Edges _ (Model_with_Nodes (delete id (Nodes m)) m)).
  assert (∀ k, is_Some (delete id (Nodes m) !! k) → is_Some (Nodes m !! k))
    as Hsub.
  { intros k [n Hn]. apply lookup_delete_Some in Hn as [_ Hn]. by eexists. }
  set (m2 := if decide (Selected m1 = id) then _ else m1).
  assert (Nodes m2 = delete id (Nodes m) ∧ NextID m2 = NextID m
          ∧ Edges m2 = filter (fun edge => FromID edge ≠ id ∧ ToID edge ≠ id)
                         (Edges m)
          ∧ selection_ok m2) as (Hnodes & Hnext & Hedges & Hsel2).
  { subst m2. destruct (decide (Selected m1 = id)) as [Hdel|Hkeep].
    - destruct (range ord (Nodes m1)) as [|[nodeID n] l] eqn:Hrange.
      + repeat (split; [done|]). by left.
      + repeat (split; [done|]). right. cbn.
        assert ((nodeID, n) ∈ range ord (Nodes m1)) as Hin
          by (rewrite Hrange; left).
        apply elem_of_range in Hin as [_ Hn]. by eexists.
    - repeat (split; [done|]). destruct Hsel as [Hnone|[n Hn]]; [by left|].
      right. change (is_Some (delete id (Nodes m) !! Selected m)).
      rewrite lookup_delete_ne; [by eexists|].
      intros Heq. apply Hkeep. by rewrite Heq. }
  cbn [NextID Model_with_StatusMsg]. split; [|exact Hnext].
  unfold document_ok, selection_ok, ids_below.
  cbn [Nodes Edges Selected NextID Model_with_StatusMsg].
  rewrite Hnodes, Hedges, Hnext.
  split; [by rewrite lookup_delete_ne|]. split; [by apply map_Forall_delete|].
  split; [by rewrite <- Hnodes|]. split; [by apply NoDup_filter|].
  split; [done|]. intros k Hk. by apply Hbelow, Hsub.
Qed.

(** The node that the loop of [selectNodeInDirection] ends with is one of
    the nodes it ranged over. *)
Lemma fold_considerNode_elem selected dx dy currentX currentY (l : list Node) :
  ∀ best,
    (fold_left (considerNode selected dx dy currentX currentY) l best).1 = best.1
    ∨ ∃ n, n ∈ l
           ∧ (fold_left (considerNode selected dx dy currentX currentY) l best).1
             = Some n.
Proof.
  induction l as [|node l IH]; intros best; cbn [fold_left]; [by left|].
  destruct (IH (considerNode selected dx dy currentX currentY best node))
    as [Heq|(n & Hn & Heq)].
  - rewrite Heq. unfold considerNode.
    destruct (decide (ID node = selected)); [by left|].
    destruct (directionScore _ _ _ _ _); [|by left].
    destruct (_ || _); [|by left]. right. exists node. split; [left|done].
  - right. exists n. split; [by right|done].
Qed.

Lemma selectNodeInDirection_document_ok ord dx dy m :
  document_ok m →
  document_ok (selectNodeInDirection ord dx dy m)
  ∧ NextID (selectNodeInDirection ord dx dy m) = NextID m.
Proof.
  intros Hok. unfold selectNodeInDirection.
  destruct (GetSelectedNode m) as [sel|]; [|done].
  destruct (GetCenter sel) as [currentX currentY].
  pose proof (fold_considerNode_elem (Selected m) dx dy currentX currentY
                (snd <$> range ord (Nodes m)) (None, (-1)%Q)) as Hbest.
  destruct (fold_left _ _ _) as [[best|] bestScore]; [|done].
  destruct Hbest as [?|(n & Hn & Heq)]; [done|]. cbn [fst] in Heq.
  injection Heq as ->. split; [|done].
  destruct Hok as (Hroot & Hkeyed & Hsel & Hnodup & Hpos & Hbelow).
  split; [done|]. split; [done|]. split; [|done].
  right. cbn. apply list_elem_of_fmap in Hn as ([k n'] & -> & Hin).
  apply elem_of_range in Hin as [_ Hlook]. cbn.
  rewrite (Hkeyed k n' Hlook), Hlook. by eexists.
Qed.

Section RunsWithoutLoad.

Variable Sscanf_d : string → option Z.

Lemma step_document_ok op m k :
  document_ok m →
  coloring_state m k →
  is_load op = false →
  Z.of_nat k < 2 ^ 63 - 1 →
  NextID m < 2 ^ 63 - 1 →
  ∃ m',
    step Sscanf_d op m = Some m'
    ∧ document_ok m'
    ∧ coloring_state m' (k + rootCount (creations op m m'))
    ∧ NextID m' = NextID m + Z.of_nat (length (creations op m m')).
Proof.
  intros Hok Hst Hload Hk Hmax.
  assert (op_ok op) as Hop by (by destruct op).
  destruct (step_colored Sscanf_d op m k Hst Hop Hk) as (m' & Hstep & _ & Hst').
  exists m'. split; [exact Hstep|].
  pose proof (palette_ready_state m k Hst Hk) as Hready.
  destruct op as [ord text|ord text|ord id|ord dx dy|ord file];
    cbn [step creations length] in *; try done.
  - destruct (AddChildNode_fresh ord text m Hok Hready Hmax)
      as (m'' & new & Hadd & _ & _ & _ & _ & _ & _ & Hnext & _ & Hok').
    rewrite Hstep in Hadd. injection Hadd as <-. split; [done|]. split; [done|].
    rewrite Hnext. lia.
  - destruct (AddSiblingNode_fresh ord text m Hok Hready Hmax)
      as (m'' & new & Hadd & _ & _ & _ & _ & _ & _ & Hnext & _ & Hok').
    rewrite Hstep in Hadd. injection Hadd as <-. split; [done|]. split; [done|].
    rewrite Hnext. lia.
  - injection Hstep as <-.
    destruct (DeleteNode_document_ok ord id m Hok) as [Hok' Hnext].
    split; [done|]. split; [done|]. rewrite Hnext. lia.
  - injection Hstep as <-.
    destruct (selectNodeInDirection_document_ok ord dx dy m Hok) as [Hok' Hnext].
    split; [done|]. split; [done|]. rewrite Hnext. lia.
Qed.

Lemma run_document_ok ops : ∀ m k,
  document_ok m →
  coloring_state m k →
  Forall (fun op => is_load op = false) ops →
  Z.of_nat (k + length ops) < 2 ^ 63 - 1 →
  NextID m + Z.of_nat (length ops) < 2 ^ 63 →
  ∃ m' log,
    run Sscanf_d ops m = Some (m', log)
    ∧ document_ok m'
    ∧ NextID m' = NextID m + Z.of_nat (length log)
    ∧ (length log ≤ length ops)%nat
    ∧ (rootCount log ≤ length log)%nat
    ∧ coloring_state m' (k + rootCount log).
Proof.
  induction ops as [|op ops IH]; intros m k Hok Hst Hloads Hk Hmax.
  - exists m, []. cbn. rewrite Nat.add_0_r. repeat (split; [done || lia|]). done.
  - apply Forall_cons in Hloads as [Hload Hloads]. cbn [length] in Hk, Hmax.
    destruct (step_document_ok op m k Hok Hst Hload ltac:(lia) ltac:(lia))
      as (m1 & Hstep & Hok1 & Hst1 & Hnext1).
    assert (length (creations op m m1) ≤ 1
            ∧ rootCount (creations op m m1) ≤ length (creations op m m1))%nat
      as [Hone Hcount].
    { unfold rootCount. split; [by destruct op; cbn; lia|apply length_filter]. }
    destruct (IH m1 (k + rootCount (creations op m m1))%nat Hok1 Hst1 Hloads
                ltac:(lia) ltac:(lia))
      as (m2 & log & Hrun & Hok2 & Hnext2 & Hlen & Hroots & Hst2).
    exists m2, (creations op m m1 ++ log). cbn [run]. rewrite Hstep. cbn.
    rewrite Hrun. cbn. split; [done|]. split; [exact Hok2|].
    rewrite length_app. split; [lia|]. split; [cbn [length]; lia|].
    unfold rootCount in *. rewrite filter_app, length_app.
    split; [lia|]. by rewrite Nat.add_assoc.
Qed.

(** X14. A run of creations, deletions and directional selections from the
    initial document never panics and keeps the document in order: the root
    is there, every node is stored under its identity, the selection is
    empty or names a node, no edge is listed twice, and the counter is one
    more than the number of creations and above every identity. *)
Theorem run_keeps_document (ops : list Op) :
  Forall (fun op => is_load op = false) ops →
  Z.of_nat (length ops) < 2 ^ 62 →
  ∃ m log,
    run Sscanf_d ops NewModel = Some (m, log)
    ∧ document_ok m
    ∧ NextID m = 1 + Z.of_nat (length log)
    ∧ (length log ≤ length ops)%nat.
Proof.
  intros Hloads Hlen.
  assert (coloring_state NewModel 0) as Hst
    by (split; [by apply map_Forall_singleton|done]).
  destruct (run_document_ok ops NewModel 0 document_ok_NewModel Hst Hloads)
    as (m & log & Hrun & Hok & Hnext & Hlog & _); [| |].
  - cbn [Nat.add]. lia.
  - change (NextID NewModel) with 1. lia.
  - exists m, log. split; [exact Hrun|]. split; [exact Hok|]. split; [|exact Hlog].
    exact Hnext.
Qed.

End RunsWithoutLoad.

Lemma run_keeps_document_witness :
  Forall (fun op => is_load op = false) sample_edit_run
  ∧ Z.of_nat (length sample_edit_run) < 2 ^ 62
  ∧ ∃ m log,
      run scanDecimal sample_edit_run NewModel = Some (m, log)
      ∧ document_ok m
      ∧ NextID m = 1 + Z.of_nat (length log)
      ∧ (length log ≤ length sample_edit_run)%nat.
Proof.
  assert (Forall (fun op => is_load op = false) sample_edit_run) as Hloads
    by (repeat constructor).
  assert (Z.of_nat (length sample_edit_run) < 2 ^ 62) as Hlen by (by vm_compute).
  split; [exact Hloads|]. split; [exact Hlen|].
  exact (run_keeps_document scanDecimal sample_edit_run Hloads Hlen).
Defined.

Example sample_edit_run_result :
  (fun '(m, log) => (NextID m, Selected m, Edges m, length log, size (Nodes m)))
    <$> run scanDecimal sample_edit_run NewModel
  = Some (4, "3", [mkEdge "0" "2"; mkEdge "0" "3"], 3%nat, 3%nat)%string.
Proof. vm_compute. reflexivity. Qed.

(** ** Hit testing *)

Lemma Qleb_true x y : Qleb x y = true ↔ (x <= y)%Q.
Proof.
  unfold Qleb. destruct (Qlt_le_dec y x) as [Hlt|Hle]; [|done].
  split; [done|]. intros Hle. exfalso. by apply (Qlt_not_le _ _ Hlt).
Qed.

Lemma containsPoint_in_box wx wy node :
  containsPoint wx wy node = true ↔ in_box wx wy node.
Proof.
  unfold containsPoint, in_box. rewrite !andb_true_iff, !Qleb_true. tauto.
Qed.

(** X15. [GetNodeAt] answers with a node of the document whose box, borders
    included, holds the world point of the screen cell, and with no node
    only when no box of the document holds that point. *)
Theorem GetNodeAt_hit (ord : list string) (screenX screenY : Z) (m : Model) :
  iteration_order ord (Nodes m) →
  ¬ (Camera.Zoom (mCamera m) == 0)%Q →
  let '(wx, wy) :=
    Camera.ScreenToWorld (mCamera m) screenX screenY (mWidth m) (mHeight m) in
  match GetNodeAt ord screenX screenY m with
  | Some node => (∃ k, Nodes m !! k = Some node) ∧ in_box wx wy node
  | None => ∀ k node, Nodes m !! k = Some node → ¬ in_box wx wy node
  end.
Proof.
  intros Hord _. unfold GetNodeAt.
  destruct (Camera.ScreenToWorld _ _ _ _ _) as [wx wy].
  destruct (head _) as [node|] eqn:Hhead.
  - apply head_Some_elem_of, list_elem_of_filter in Hhead as [Hin Hnode].
    split; [by apply (elem_of_range_values ord)|by apply containsPoint_in_box].
  - apply head_None in Hhead. intros k node Hnode Hbox.
    eapply (filter_nil_not_elem_of _ _ node); [exact Hhead| |].
    + by apply containsPoint_in_box.
    + apply (elem_of_range_values ord); [done|by exists k].
Qed.

Lemma GetNodeAt_hit_witness :
  iteration_order ["0"]%string (Nodes NewModel)
  ∧ ¬ (Camera.Zoom (mCamera NewModel) == 0)%Q
  ∧ let '(wx, wy) := Camera.ScreenToWorld (mCamera NewModel) 46 13 80 24 in
    match GetNodeAt ["0"]%string 46 13 NewModel with
    | Some node => (∃ k, Nodes NewModel !! k = Some node) ∧ in_box wx wy node
    | None => ∀ k node, Nodes NewModel !! k = Some node → ¬ in_box wx wy node
    end.
Proof.
  assert (iteration_order ["0"]%string (Nodes NewModel)) as Hord by concrete_order.
  assert (¬ (Camera.Zoom (mCamera NewModel) == 0)%Q) as Hzoom by (by vm_compute).
  split; [exact Hord|]. split; [exact Hzoom|].
  exact (GetNodeAt_hit ["0"]%string 46 13 NewModel Hord Hzoom).
Defined.

(** On the initial screen of 80 by 24 the cell (46, 13) is the world point
    (6, 1), inside the box of the root; the cell (20, 13) is outside. *)
Example GetNodeAt_sample :
  GetNodeAt ["0"]%string 46 13 NewModel = Some (NewNode "0" "Root Idea" 0 0)
  ∧ GetNodeAt ["0"]%string 20 13 NewModel = None.
Proof. split; by vm_compute. Qed.

(** * More on update.go: cyclic selection, trimming, the key handlers *)

(** ** Cyclic selection *)

Lemma range_keys ord (nodes : gmap string Node) :
  iteration_order ord nodes → fst <$> range ord nodes = ord.
Proof.
  intros Hord.
  assert (∀ k, k ∈ ord → is_Some (nodes !! k)) as Hkeys
    by (intros k Hk; by apply (iteration_order_elem ord)).
  clear Hord. unfold range. induction ord as [|k ord IH]; [done|].
  cbn [omap list_omap]. destruct (Hkeys k) as [n Hn]; [left|].
  rewrite Hn. cbn. f_equal. apply IH. intros k' Hk'. apply Hkeys. by right.
Qed.

Lemma iteration_order_size ord (nodes : gmap string Node) :
  iteration_order ord nodes → length ord = size nodes.
Proof.
  intros [Hnodup Hdom]. by rewrite <- size_dom, <- Hdom, size_list_to_set.
Qed.

Lemma indexOf_lookup id ids : ∀ i : nat,
  NoDup ids → ids !! i = Some id → indexOf id ids = Z.of_nat i.
Proof.
  induction ids as [|id' ids IH]; intros i Hnodup Hi; [done|].
  apply NoDup_cons in Hnodup as [Hnew Hnodup]. cbn [indexOf].
  destruct i as [|i]; cbn in Hi.
  - injection Hi as ->. by rewrite decide_True.
  - rewrite decide_False.
    + rewrite (IH i Hnodup Hi).
      destruct (Z.ltb_spec (Z.of_nat i) 0); lia.
    + intros ->. apply Hnew. by eapply list_elem_of_lookup_2.
Qed.

Lemma indexOf_not_elem id ids : id ∉ ids → indexOf id ids = -1.
Proof.
  induction ids as [|id' ids IH]; intros Hid; [done|]. cbn [indexOf].
  apply not_elem_of_cons in Hid as [Hne Hid].
  rewrite decide_False by done. by rewrite (IH Hid).
Qed.

Lemma index_lookup ids (i : nat) : index ids (Z.of_nat i) = ids !! i.
Proof.
  unfold index. destruct (Z.ltb_spec (Z.of_nat i) 0); [lia|].
  by rewrite Nat2Z.id.
Qed.

Lemma selectNextNode_spec ord m :
  iteration_order ord (Nodes m) →
  (Nodes m = ∅ → selectNextNode ord m = Some m)
  ∧ (Nodes m ≠ ∅ →
     ∃ id,
       selectNextNode ord m = Some (selecting id m)
       ∧ is_Some (Nodes m !! id)
       ∧ (∀ i : nat, ord !! i = Some (Selected m) →
            ord !! ((i + 1) mod length ord)%nat = Some id)
       ∧ (Selected m ∉ ord → head ord = Some id)).
Proof.
  intros Hord. pose proof (iteration_order_size ord (Nodes m) Hord) as Hsize.
  unfold selectNextNode. split.
  - intros ->. by rewrite map_size_empty.
  - intros Hnodes. apply map_size_non_empty_iff in Hnodes.
    assert ((Z.of_nat (size (Nodes m)) =? 0) = false) as ->
      by (apply Z.eqb_neq; lia).
    rewrite (range_keys ord (Nodes m) Hord).
    assert ((Z.of_nat (length ord) =? 0) = false) as ->
      by (apply Z.eqb_neq; lia).
    assert (∀ j : nat, (j < length ord)%nat →
              ∃ id, index ord (Z.of_nat j) = Some id ∧ ord !! j = Some id
                    ∧ is_Some (Nodes m !! id)) as Hindex.
    { intros j Hj. destruct (lookup_lt_is_Some_2 ord j Hj) as [id Hid].
      exists id. rewrite index_lookup. split; [done|]. split; [done|].
      apply (iteration_order_elem ord); [done|].
      by eapply list_elem_of_lookup_2. }
    destruct (decide (Selected m ∈ ord)) as [Hin|Hout].
    + apply list_elem_of_lookup_1 in Hin as [i Hi].
      rewrite (indexOf_lookup _ _ i (proj1 Hord) Hi).
      rewrite Z.rem_mod_nonneg by lia.
      replace (Z.of_nat i + 1) with (Z.of_nat (i + 1)) by lia.
      rewrite <- Nat2Z.inj_mod.
      destruct (Hindex ((i + 1) mod length ord)%nat) as (id & -> & Hid & Hnode);
        [apply Nat.mod_upper_bound; lia|].
      exists id. cbn. split; [done|]. split; [exact Hnode|]. split.
      * intros i' Hi'.
        assert (i' = i) as -> by (by eapply NoDup_lookup; [apply Hord| |]).
        exact Hid.
      * intros Hout. exfalso. apply Hout. by eapply list_elem_of_lookup_2.
    + rewrite (indexOf_not_elem _ _ Hout). change (-1 + 1) with 0.
      rewrite Z.rem_0_l by lia.
      destruct (Hindex 0%nat) as (id & Hidx & Hid & Hnode); [lia|].
      change (Z.of_nat 0) with 0 in Hidx. rewrite Hidx.
      exists id. cbn. split; [done|]. split; [exact Hnode|]. split.
      * intros i Hi. exfalso. apply Hout. by eapply list_elem_of_lookup_2.
      * intros _. by rewrite head_lookup.
Qed.

Lemma selectPrevNode_spec ord m :
  iteration_order ord (Nodes m) →
  (Nodes m = ∅ → selectPrevNode ord m = Some m)
  ∧ (Nodes m ≠ ∅ →
     ∃ id,
       selectPrevNode ord m = Some (selecting id m)
       ∧ is_Some (Nodes m !! id)
       ∧ (∀ i : nat, ord !! i = Some (Selected m) →
            ord !! ((i + length ord - 1) mod length ord)%nat = Some id)
       ∧ (Selected m ∉ ord → last ord = Some id)).
Proof.
  intros Hord. pose proof (iteration_order_size ord (Nodes m) Hord) as Hsize.
  unfold selectPrevNode. split.
  - intros ->. by rewrite map_size_empty.
  - intros Hnodes. apply map_size_non_empty_iff in Hnodes.
    assert ((Z.of_nat (size (Nodes m)) =? 0) = false) as ->
      by (apply Z.eqb_neq; lia).
    rewrite (range_keys ord (Nodes m) Hord).
    assert (∀ j : nat, (j < length ord)%nat →
              ∃ id, index ord (Z.of_nat j) = Some id ∧ ord !! j = Some id
                    ∧ is_Some (Nodes m !! id)) as Hindex.
    { intros j Hj. destruct (lookup_lt_is_Some_2 ord j Hj) as [id Hid].
      exists id. rewrite index_lookup. split; [done|]. split; [done|].
      apply (iteration_order_elem ord); [done|].
      by eapply list_elem_of_lookup_2. }
    destruct (decide (Selected m ∈ ord)) as [Hin|Hout].
    + apply list_elem_of_lookup_1 in Hin as [i Hi].
      rewrite (indexOf_lookup _ _ i (proj1 Hord) Hi).
      assert (i < length ord)%nat as Hlt by (by eapply lookup_lt_Some).
      assert ((if Z.of_nat i - 1 <? 0 then Z.of_nat (length ord) - 1
               else Z.of_nat i - 1)
              = Z.of_nat ((i + length ord - 1) mod length ord)) as ->.
      { destruct i as [|i].
        - change (Z.of_nat 0 - 1 <? 0) with true. cbv iota.
          rewrite Nat.add_0_l, Nat.mod_small by lia. lia.
        - destruct (Z.ltb_spec (Z.of_nat (S i) - 1) 0); [lia|].
          replace (S i + length ord - 1)%nat with (i + 1 * length ord)%nat by lia.
          rewrite Nat.Div0.mod_add, Nat.mod_small by lia. lia. }
      destruct (Hindex ((i + length ord - 1) mod length ord)%nat)
        as (id & -> & Hid & Hnode); [apply Nat.mod_upper_bound; lia|].
      exists id. cbn. split; [done|]. split; [exact Hnode|]. split.
      * intros i' Hi'.
        assert (i' = i) as -> by (by eapply NoDup_lookup; [apply Hord| |]).
        exact Hid.
      * intros Hout. exfalso. apply Hout. by eapply list_elem_of_lookup_2.
    + rewrite (indexOf_not_elem _ _ Hout).
      change (-1 - 1 <? 0) with true. cbv iota.
      replace (Z.of_nat (length ord) - 1) with (Z.of_nat (length ord - 1)) by lia.
      destruct (Hindex (length ord - 1)%nat) as (id & -> & Hid & Hnode); [lia|].
      exists id. cbn. split; [done|]. split; [exact Hnode|]. split.
      * intros i Hi. exfalso. apply Hout. by eapply list_elem_of_lookup_2.
      * intros _. rewrite last_lookup.
        by replace (Nat.pred (length ord)) with (length ord - 1)%nat by lia.
Qed.

(** X16. [selectNextNode] and [selectPrevNode] never fail on an order that
    enumerates the nodes. An empty document is left as it is. Otherwise they
    select a node of the document and clear the status line: the neighbour
    of the selected identity in the order of the loop, cyclically, and the
    first or the last identity of the order when nothing of the document is
    selected. *)
Theorem cyclic_selection (ord : list string) (m : Model) :
  iteration_order ord (Nodes m) →
  (Nodes m = ∅ → selectNextNode ord m = Some m ∧ selectPrevNode ord m = Some m)
  ∧ (Nodes m ≠ ∅ →
     ∃ next prev,
       selectNextNode ord m = Some (selecting next m)
       ∧ selectPrevNode ord m = Some (selecting prev m)
       ∧ is_Some (Nodes m !! next) ∧ is_Some (Nodes m !! prev)
       ∧ (∀ i : nat, ord !! i = Some (Selected m) →
            ord !! ((i + 1) mod length ord)%nat = Some next
            ∧ ord !! ((i + length ord - 1) mod length ord)%nat = Some prev)
       ∧ (Selected m ∉ ord → head ord = Some next ∧ last ord = Some prev)).
Proof.
  intros Hord.
  destruct (selectNextNode_spec ord m Hord) as [Hnext0 Hnext].
  destruct (selectPrevNode_spec ord m Hord) as [Hprev0 Hprev].
  split; [intros Hnodes; split; [by apply Hnext0|by apply Hprev0]|].
  intros Hnodes.
  destruct (Hnext Hnodes) as (next & Hn & Hnode & Hcycle & Hfirst).
  destruct (Hprev Hnodes) as (prev & Hp & Hnode' & Hcycle' & Hlast).
  exists next, prev. split; [exact Hn|]. split; [exact Hp|].
  split; [exact Hnode|]. split; [exact Hnode'|].
  split; [intros i Hi; split; [by apply Hcycle|by apply Hcycle']|].
  intros Hout. split; [by apply Hfirst|by apply Hlast].
Qed.

Lemma cyclic_selection_witness :
  let m := default NewModel two_children_doc in
  iteration_order ["1"; "0"; "2"]%string (Nodes m)
  ∧ Selected m = "1"%string
  ∧ selectNextNode ["1"; "0"; "2"]%string m = Some (selecting "0" m)
  ∧ selectPrevNode ["1"; "0"; "2"]%string m = Some (selecting "2" m).
Proof.
  intros m.
  assert (iteration_order ["1"; "0"; "2"]%string (Nodes m)) as Hord
    by concrete_order.
  assert (Nodes m ≠ ∅) as Hnodes.
  { intros Hempty. assert (Nodes m !! "0"%string = None) as Hroot
      by (by rewrite Hempty). vm_compute in Hroot. discriminate. }
  split; [exact Hord|]. split; [by vm_compute|].
  destruct (cyclic_selection ["1"; "0"; "2"]%string m Hord) as [_ Hcycle].
  destruct (Hcycle Hnodes) as (next & prev & Hn & Hp & _ & _ & Hpos & _).
  destruct (Hpos 0%nat) as [Hnext Hprev]; [by vm_compute|].
  cbn in Hnext, Hprev. injection Hnext as <-. injection Hprev as <-.
  split; [exact Hn|exact Hp].
Defined.

(** X17. With the same order of the loop, [selectPrevNode] undoes
    [selectNextNode] and the other way round: the node that was selected is
    selected again. *)
Theorem cyclic_selection_round_trip (ord : list string) (m : Model) :
  iteration_order ord (Nodes m) →
  is_Some (Nodes m !! Selected m) →
  (∃ m1, selectNextNode ord m = Some m1
         ∧ selectPrevNode ord m1 = Some (selecting (Selected m) m))
  ∧ (∃ m1, selectPrevNode ord m = Some m1
           ∧ selectNextNode ord m1 = Some (selecting (Selected m) m)).
Proof.
  intros Hord Hsel.
  assert (Nodes m ≠ ∅) as Hnodes
    by (intros Hempty; rewrite Hempty, lookup_empty in Hsel; by destruct Hsel).
  apply (iteration_order_elem ord) in Hsel; [|done].
  apply list_elem_of_lookup_1 in Hsel as [i Hi].
  assert (i < length ord)%nat as Hlt by (by eapply lookup_lt_Some).
  destruct (selectNextNode_spec ord m Hord) as [_ Hnext].
  destruct (selectPrevNode_spec ord m Hord) as [_ Hprev].
  destruct (Hnext Hnodes) as (next & Hn & _ & Hcycle & _).
  destruct (Hprev Hnodes) as (prev & Hp & _ & Hcycle' & _).
  specialize (Hcycle i Hi). specialize (Hcycle' i Hi).
  split.
  - exists (selecting next m). split; [exact Hn|].
    destruct (selectPrevNode_spec ord (selecting next m) Hord) as [_ Hback].
    destruct (Hback Hnodes) as (id & Hid & _ & Hpos & _).
    specialize (Hpos _ Hcycle).
    replace (((i + 1) mod length ord + length ord - 1) mod length ord)%nat
      with i in Hpos.
    + rewrite Hi in Hpos. injection Hpos as <-. exact Hid.
    + destruct (decide (i + 1 = length ord)%nat) as [Hend|Hmid].
      * rewrite Hend, Nat.Div0.mod_same, Nat.add_0_l, Nat.mod_small by lia. lia.
      * rewrite (Nat.mod_small (i + 1)) by lia.
        replace (i + 1 + length ord - 1)%nat with (i + 1 * length ord)%nat by lia.
        by rewrite Nat.Div0.mod_add, Nat.mod_small by lia.
  - exists (selecting prev m). split; [exact Hp|].
    destruct (selectNextNode_spec ord (selecting prev m) Hord) as [_ Hback].
    destruct (Hback Hnodes) as (id & Hid & _ & Hpos & _).
    specialize (Hpos _ Hcycle').
    replace (((i + length ord - 1) mod length ord + 1) mod length ord)%nat
      with i in Hpos.
    + rewrite Hi in Hpos. injection Hpos as <-. exact Hid.
    + destruct i as [|i].
      * rewrite Nat.add_0_l, (Nat.mod_small (length ord - 1)) by lia.
        replace (length ord - 1 + 1)%nat with (length ord) by lia.
        by rewrite Nat.Div0.mod_same.
      * replace (S i + length ord - 1)%nat with (i + 1 * length ord)%nat by lia.
        rewrite Nat.Div0.mod_add, (Nat.mod_small i), Nat.mod_small by lia. lia.
Qed.

Lemma cyclic_selection_round_trip_witness :
  let m := default NewModel two_children_doc in
  iteration_order ["1"; "0"; "2"]%string (Nodes m)
  ∧ is_Some (Nodes m !! Selected m)
  ∧ (∃ m1, selectNextNode ["1"; "0"; "2"]%string m = Some m1
           ∧ selectPrevNode ["1"; "0"; "2"]%string m1
             = Some (selecting (Selected m) m))
  ∧ (∃ m1, selectPrevNode ["1"; "0"; "2"]%string m = Some m1
           ∧ selectNextNode ["1"; "0"; "2"]%string m1
             = Some (selecting (Selected m) m)).
Proof.
  intros m.
  assert (iteration_order ["1"; "0"; "2"]%string (Nodes m)) as Hord
    by concrete_order.
  assert (is_Some (Nodes m !! Selected m)) as Hsel
    by (apply (bool_decide_unpack _); vm_compute; exact I).
  split; [exact Hord|]. split; [exact Hsel|].
  exact (cyclic_selection_round_trip ["1"; "0"; "2"]%string m Hord Hsel).
Defined.

(** With another order on the way back the round trip fails: the loops of
    the two calls range over the map independently. *)
Example cyclic_selection_other_order :
  let m := default NewModel two_children_doc in
  (selectNextNode ["1"; "0"; "2"]%string m
   ≫= selectPrevNode ["0"; "1"; "2"]%string)
  = Some (selecting "2" m).
Proof. vm_compute. reflexivity. Qed.

(** ** Trimming *)

(** X18. [trimString] panics exactly when the string is longer than
    [maxLen] and [maxLen] is less than 3 (the slice bound [maxLen-3] is
    negative). Otherwise the result has at most [maxLen] bytes: the string
    itself when it fits, and else its first [maxLen-3] bytes followed by
    three dots, [maxLen] bytes in all. *)
Theorem trimString_bound (s : string) (maxLen : Z) :
  (trimString s maxLen = None ↔ maxLen < len s ∧ maxLen < 3)
  ∧ (∀ r, trimString s maxLen = Some r →
       len r <= maxLen
       ∧ (len s <= maxLen → r = s)
       ∧ (maxLen < len s →
            r = (str_take (maxLen - 3) s +:+ "...")%string ∧ len r = maxLen)).
Proof.
  unfold trimString, slice_to.
  destruct (Z.leb_spec (len s) maxLen) as [Hfits|Hlong].
  - split; [split; [done|lia]|]. intros r [= <-].
    split; [done|]. split; [done|lia].
  - destruct (Z.ltb_spec (maxLen - 3) 0) as [Hneg|Hpos]; cbn [orb].
    + split; [split; [lia|done]|]. done.
    + destruct (Z.ltb_spec (len s) (maxLen - 3)) as [?|_]; [lia|].
      cbn [mbind option_bind]. split; [split; [done|lia]|].
      intros r [= <-].
      assert (len (str_take (maxLen - 3) s +:+ "...") = maxLen) as Hlen.
      { unfold len. rewrite length_append, Nat2Z.inj_add.
        fold (len (str_take (maxLen - 3) s)).
        rewrite len_str_take by lia. cbn. lia. }
      split; [lia|]. split; [lia|done].
Qed.

Lemma Split_newline_first (s : string) :
  ∃ line lines,
    GoStrings.Split_newline s = line :: lines
    ∧ has_line_feed line = false
    ∧ (has_line_feed s = false → line = s).
Proof.
  induction s as [|c s (line & lines & IH & Hline & Hsame)];
    cbn [GoStrings.Split_newline has_line_feed].
  - by exists EmptyString, [].
  - destruct (Ascii.N_of_ascii c =? 10)%N eqn:Hc.
    + by exists EmptyString, (GoStrings.Split_newline s).
    + rewrite IH. exists (String c line), lines. split; [done|].
      cbn [has_line_feed orb]. rewrite Hc. split; [done|].
      intros Hs. by rewrite Hsame.
Qed.

Lemma has_line_feed_substring (s : string) : ∀ n : nat,
  has_line_feed s = false → has_line_feed (String.substring 0 n s) = false.
Proof.
  induction s as [|c s IH]; intros [|n] Hs; cbn in *; try done.
  apply orb_false_iff in Hs as [-> Hs]. by apply IH.
Qed.

Lemma has_line_feed_append (s1 s2 : string) :
  has_line_feed (s1 +:+ s2) = has_line_feed s1 || has_line_feed s2.
Proof.
  induction s1 as [|c s1 IH]; [done|].
  change (String c s1 +:+ s2)%string with (String c (s1 +:+ s2)).
  cbn [has_line_feed]. by rewrite IH, orb_assoc.
Qed.

(** X19. For a bound of at least 3, [ellipsis] returns one line of at most
    [maxLen] bytes: it has no line feed, and it is the string itself when
    that is one line that fits. *)
Theorem ellipsis_one_line (s : string) (maxLen : Z) :
  3 <= maxLen →
  ∃ r,
    ellipsis s maxLen = Some r
    ∧ len r <= maxLen
    ∧ has_line_feed r = false
    ∧ (has_line_feed s = false → len s <= maxLen → r = s).
Proof.
  intros Hmax. unfold ellipsis.
  destruct (Split_newline_first s) as (line & lines & -> & Hline & Hsame).
  unfold trimString, slice_to.
  destruct (Z.leb_spec (len line) maxLen) as [Hfits|Hlong].
  - exists line. split; [done|]. split; [done|]. split; [done|].
    intros Hs _. by apply Hsame.
  - destruct (Z.ltb_spec (maxLen - 3) 0) as [?|_]; [lia|].
    destruct (Z.ltb_spec (len line) (maxLen - 3)) as [?|_]; [lia|].
    cbn [orb mbind option_bind]. eexists. split; [reflexivity|].
    split; [|split].
    + unfold len. rewrite length_append, Nat2Z.inj_add.
      fold (len (str_take (maxLen - 3) line)).
      rewrite len_str_take by lia. cbn. lia.
    + rewrite has_line_feed_append. unfold str_take.
      by rewrite has_line_feed_substring.
    + intros Hs Hlen. rewrite (Hsame Hs) in Hlong. lia.
Qed.

Lemma ellipsis_one_line_witness :
  3 <= 5
  ∧ ∃ r, ellipsis (String "a" (String "b" (String "010" "cdefgh"))) 5 = Some r
         ∧ len r <= 5
         ∧ has_line_feed r = false.
Proof.
  split; [lia|].
  destruct (ellipsis_one_line (String "a" (String "b" (String "010" "cdefgh"))) 5
              ltac:(lia)) as (r & Hr & Hlen & Hline & _).
  by exists r.
Defined.

Example ellipsis_samples :
  ellipsis (String "a" (String "b" (String "010" "cdefgh"))) 5 = Some "ab"%string
  ∧ ellipsis "abcdefgh" 5 = Some "ab..."%string
  ∧ ellipsis "abcdefgh" 2 = None.
Proof. repeat split; reflexivity. Qed.

(** ** The edit mode *)

Lemma append_nil_r (s : string) : (s +:+ EmptyString)%string = s.
Proof.
  induction s as [|c s IH]; [done|].
  change (String c (s +:+ EmptyString) = String c s)%string. by rewrite IH.
Qed.

Lemma append_assoc (s1 s2 s3 : string) :
  ((s1 +:+ s2) +:+ s3 = s1 +:+ (s2 +:+ s3))%string.
Proof.
  induction s1 as [|c s1 IH]; [done|].
  change (String c ((s1 +:+ s2) +:+ s3) = String c (s1 +:+ (s2 +:+ s3)))%string.
  by rewrite IH.
Qed.

Lemma substring_append (s1 s2 : string) :
  String.substring 0 (String.length s1) (s1 +:+ s2) = s1.
Proof.
  induction s1 as [|c s1 IH]; [by destruct s2|].
  change (String c (String.substring 0 (String.length s1) (s1 +:+ s2))
          = String c s1)%string.
  by rewrite IH.
Qed.

Lemma Model_with_EditBuffer_same (m : Model) :
  Model_with_EditBuffer (EditBuffer m) m = m.
Proof. by destruct m. Qed.

(** A key of one byte is none of the named keys. *)
Lemma one_byte_key (key : string) :
  len key = 1 →
  key ≠ "esc"%string ∧ key ≠ "enter"%string ∧ key ≠ "backspace"%string.
Proof. intros Hlen. repeat split; by intros ->. Qed.

Lemma handleEditMode_type ord key m :
  len key = 1 →
  handleEditMode ord key m
  = Some (Model_with_EditBuffer (EditBuffer m +:+ key) m).
Proof.
  intros Hlen. destruct (one_byte_key key Hlen) as (Hesc & Henter & Hback).
  unfold handleEditMode. rewrite !decide_False by done. by rewrite Hlen.
Qed.

Lemma handleKeys_type ord keys : ∀ m,
  Forall (fun key => len key = 1) keys →
  handleKeys (handleEditMode ord) keys m
  = Some (Model_with_EditBuffer (EditBuffer m +:+ typed keys) m).
Proof.
  induction keys as [|key keys IH]; intros m Hkeys; cbn [handleKeys typed fold_right].
  - by rewrite append_nil_r, Model_with_EditBuffer_same.
  - apply Forall_cons in Hkeys as [Hkey Hkeys].
    rewrite (handleEditMode_type ord key m Hkey). cbn [mbind option_bind].
    rewrite (IH _ Hkeys). cbn [EditBuffer Model_with_EditBuffer].
    fold (typed keys). by rewrite append_assoc.
Qed.

(** X20. Typing: keys of one byte are appended to the edit buffer in the
    order they come, and nothing else of the model changes. *)
Theorem handleEditMode_typing (ord : list string) (keys : list string) (m : Model) :
  Forall (fun key => len key = 1) keys →
  handleKeys (handleEditMode ord) keys m
  = Some (Model_with_EditBuffer (EditBuffer m +:+ typed keys) m).
Proof. apply handleKeys_type. Qed.

Lemma handleEditMode_typing_witness :
  Forall (fun key => len key = 1) ["h"; "i"]%string
  ∧ handleKeys (handleEditMode ["0"]%string) ["h"; "i"]%string NewModel
    = Some (Model_with_EditBuffer "hi" NewModel).
Proof.
  assert (Forall (fun key => len key = 1) ["h"; "i"]%string) as Hkeys
    by (repeat constructor).
  split; [exact Hkeys|].
  exact (handleEditMode_typing ["0"]%string ["h"; "i"]%string NewModel Hkeys).
Defined.

(** X21. Backspace undoes a typed key: after a key of one byte and a
    backspace the model is what it was. On an empty buffer backspace does
    nothing. *)
Theorem handleEditMode_backspace (ord : list string) (key : string) (m : Model) :
  len key = 1 →
  (handleEditMode ord key m ≫= handleEditMode ord "backspace") = Some m
  ∧ (EditBuffer m = EmptyString → handleEditMode ord "backspace" m = Some m).
Proof.
  intros Hlen. split.
  - rewrite (handleEditMode_type ord key m Hlen). cbn [mbind option_bind].
    unfold handleEditMode. cbn [EditBuffer Model_with_EditBuffer].
    rewrite decide_False by done. rewrite decide_False by done.
    rewrite decide_True by done.
    assert (len (EditBuffer m +:+ key) = len (EditBuffer m) + 1) as Hbuf
      by (unfold len in *; rewrite length_append; lia).
    rewrite Hbuf.
    assert ((0 <? len (EditBuffer m) + 1) = true) as ->
      by (apply Z.ltb_lt; unfold len; lia).
    replace (len (EditBuffer m) + 1 - 1) with (len (EditBuffer m)) by lia.
    unfold str_take, len. rewrite Nat2Z.id, substring_append.
    by destruct m.
  - intros Hempty. unfold handleEditMode.
    rewrite decide_False by done. rewrite decide_False by done.
    rewrite decide_True by done. by rewrite Hempty.
Qed.

Lemma handleEditMode_backspace_witness :
  len "x" = 1
  ∧ (handleEditMode ["0"]%string "x" (Model_with_EditBuffer "ab" NewModel)
     ≫= handleEditMode ["0"]%string "backspace")
    = Some (Model_with_EditBuffer "ab" NewModel).
Proof.
  assert (len "x" = 1) as Hlen by reflexivity.
  split; [exact Hlen|].
  exact (proj1 (handleEditMode_backspace ["0"]%string "x"
                  (Model_with_EditBuffer "ab" NewModel) Hlen)).
Defined.

(** The creations do not read the edit buffer and carry it along. *)
Lemma AddEdge_with_EditBuffer fromID toID buffer m :
  AddEdge fromID toID (Model_with_EditBuffer buffer m)
  = Model_with_EditBuffer buffer (AddEdge fromID toID m).
Proof. unfold AddEdge. cbn [Edges Model_with_EditBuffer]. by destruct (existsb _ _). Qed.

Lemma childPosition_with_EditBuffer ord parent buffer m :
  childPosition ord parent (Model_with_EditBuffer buffer m)
  = (let '(x, y, m1) := childPosition ord parent m in
     (x, y, Model_with_EditBuffer buffer m1)).
Proof.
  unfold childPosition, GetChildrenOf. cbn [Nodes Model_with_EditBuffer].
  destruct (0 <? _); [|done]. by destruct (fold_left _ _ _).
Qed.

Lemma colorChild_with_EditBuffer parentID node buffer m :
  colorChild parentID node (Model_with_EditBuffer buffer m)
  = (fun '(node', m') => (node', Model_with_EditBuffer buffer m'))
      <$> colorChild parentID node m.
Proof.
  unfold colorChild. destruct (decide (parentID = "0"%string)).
  - change (paletteColor (Model_with_EditBuffer buffer m)) with (paletteColor m).
    by destruct (paletteColor m).
  - destruct (decide (parentID ≠ EmptyString)); [|done].
    cbn [Nodes Model_with_EditBuffer]. by destruct (Nodes m !! parentID).
Qed.

Lemma AddChildNode_with_EditBuffer ord text buffer m :
  AddChildNode ord text (Model_with_EditBuffer buffer m)
  = Model_with_EditBuffer buffer <$> AddChildNode ord text m.
Proof.
  unfold AddChildNode.
  change (GetSelectedNode (Model_with_NextID _ (Model_with_EditBuffer buffer m)))
    with (GetSelectedNode m).
  change (GetSelectedNode (Model_with_NextID _ m)) with (GetSelectedNode m).
  change (NextID (Model_with_EditBuffer buffer m)) with (NextID m).
  change (Model_with_NextID (int_wrap (NextID m + 1))
            (Model_with_EditBuffer buffer m))
    with (Model_with_EditBuffer buffer
            (Model_with_NextID (int_wrap (NextID m + 1)) m)).
  set (m0 := Model_with_NextID (int_wrap (NextID m + 1)) m).
  destruct (GetSelectedNode m) as [parent|].
  - rewrite childPosition_with_EditBuffer.
    destruct (childPosition ord parent m0) as [[x y] m1].
    rewrite colorChild_with_EditBuffer.
    destruct (colorChild _ _ m1) as [[node m2]|]; [|done].
    cbn [fmap option_fmap option_map mbind option_bind]. f_equal.
    cbn [Nodes Model_with_EditBuffer].
    change (Model_with_Nodes (<[pretty (NextID m):=node]> (Nodes m2))
              (Model_with_EditBuffer buffer m2))
      with (Model_with_EditBuffer buffer
              (Model_with_Nodes (<[pretty (NextID m):=node]> (Nodes m2)) m2)).
    case_decide; [|done]. by rewrite AddEdge_with_EditBuffer.
  - cbn [Camera.GetViewportCenter mCamera Model_with_EditBuffer].
    rewrite colorChild_with_EditBuffer.
    destruct (colorChild _ _ m0) as [[node m2]|]; [|done].
    reflexivity.
Qed.

Lemma AddSiblingNode_with_EditBuffer ord text buffer m :
  AddSiblingNode ord text (Model_with_EditBuffer buffer m)
  = Model_with_EditBuffer buffer <$> AddSiblingNode ord text m.
Proof.
  unfold AddSiblingNode.
  change (GetSelectedNode (Model_with_EditBuffer buffer m))
    with (GetSelectedNode m).
  destruct (GetSelectedNode m) as [sel|];
    [|apply AddChildNode_with_EditBuffer].
  destruct (decide (ID sel = "0"%string)); [apply AddChildNode_with_EditBuffer|].
  change (NextID (Model_with_EditBuffer buffer m)) with (NextID m).
  set (id := pretty (NextID m)).
  set (y := (Y sel + inject_Z (Height sel) + 3)%Q).
  change (pushDownNodesBelow y (inject_Z 3 + 3)%Q
            (Model_with_NextID (int_wrap (NextID m + 1))
               (Model_with_EditBuffer buffer m)))
    with (Model_with_EditBuffer buffer
            (pushDownNodesBelow y (inject_Z 3 + 3)%Q
               (Model_with_NextID (int_wrap (NextID m + 1)) m))).
  set (m1 := pushDownNodesBelow y _ _).
  set (node := Node_with_ParentID _ _).
  assert (∀ node' m2,
            Model_with_StatusMsg ("Created sibling node " +:+ id)
              (Model_with_Selected id
                 (if decide (ParentID sel ≠ EmptyString)
                  then AddEdge (ParentID sel) id
                         (Model_with_Nodes
                            (<[id:=node']> (Nodes (Model_with_EditBuffer buffer m2)))
                            (Model_with_EditBuffer buffer m2))
                  else Model_with_Nodes
                         (<[id:=node']> (Nodes (Model_with_EditBuffer buffer m2)))
                         (Model_with_EditBuffer buffer m2)))
            = Model_with_EditBuffer buffer
                (Model_with_StatusMsg ("Created sibling node " +:+ id)
                   (Model_with_Selected id
                      (if decide (ParentID sel ≠ EmptyString)
                       then AddEdge (ParentID sel) id
                              (Model_with_Nodes (<[id:=node']> (Nodes m2)) m2)
                       else Model_with_Nodes (<[id:=node']> (Nodes m2)) m2))))
    as Hstore.
  { intros node' m2. cbn [Nodes Model_with_EditBuffer].
    change (Model_with_Nodes (<[id:=node']> (Nodes m2))
              (Model_with_EditBuffer buffer m2))
      with (Model_with_EditBuffer buffer
              (Model_with_Nodes (<[id:=node']> (Nodes m2)) m2)).
    case_decide; [|done]. by rewrite AddEdge_with_EditBuffer. }
  destruct (decide (ParentID sel = "0"%string)).
  - change (paletteColor (Model_with_EditBuffer buffer m1)) with (paletteColor m1).
    destruct (paletteColor m1) as [color|]; [|done].
    cbn [fmap option_fmap option_map mbind option_bind]. f_equal.
    apply (Hstore _ (Model_with_NextColorIndex _ m1)).
  - cbn [fmap option_fmap option_map mbind option_bind]. f_equal. apply Hstore.
Qed.

Lemma handleKeys_app handler keys1 keys2 : ∀ m,
  handleKeys handler (keys1 ++ keys2) m
  = handleKeys handler keys1 m ≫= handleKeys handler keys2.
Proof.
  induction keys1 as [|key keys1 IH]; intros m; cbn [handleKeys app]; [done|].
  destruct (handler key m) as [m'|]; [|done]. cbn [mbind option_bind]. apply IH.
Qed.

Lemma len_typed keys :
  Forall (fun key => len key = 1) keys → len (typed keys) = Z.of_nat (length keys).
Proof.
  induction 1 as [|key keys Hkey _ IH]; [done|]. cbn [typed fold_right length].
  fold (typed keys). unfold len in *. rewrite length_append. lia.
Qed.

(** X22. Typing a text and pressing Enter creates the node: in the edit mode
    that creates a node, with an empty buffer to start from, keys of one
    byte followed by Enter give the document of [AddChildNode] (or of
    [AddSiblingNode], as the mode says) called with the text typed, back in
    the normal mode with an empty buffer. *)
Theorem typing_then_enter (ord : list string) (keys : list string) (m : Model) :
  Forall (fun key => len key = 1) keys →
  keys ≠ [] →
  EditBuffer m = EmptyString →
  IsCreatingNode m = true →
  handleKeys (handleEditMode ord) (keys ++ ["enter"%string]) m
  = leaveEditMode
      <$> (if IsCreatingChild m then AddChildNode ord (typed keys) m
           else AddSiblingNode ord (typed keys) m).
Proof.
  intros Hkeys Hsome Hbuffer Hcreating.
  rewrite handleKeys_app, (handleKeys_type ord keys m Hkeys), Hbuffer.
  change (EmptyString +:+ typed keys)%string with (typed keys).
  cbn [mbind option_bind handleKeys]. unfold handleEditMode.
  cbn [EditBuffer IsCreatingNode IsCreatingChild Model_with_EditBuffer].
  rewrite decide_False by done. rewrite decide_True by done.
  assert (typed keys ≠ EmptyString) as Htext.
  { intros Hempty. pose proof (len_typed keys Hkeys) as Hlen.
    rewrite Hempty in Hlen. change (len EmptyString) with 0 in Hlen.
    destruct keys; [done|]. cbn [length] in Hlen. lia. }
  rewrite decide_True by done. rewrite Hcreating.
  destruct (IsCreatingChild m).
  - rewrite AddChildNode_with_EditBuffer.
    by destruct (AddChildNode ord (typed keys) m).
  - rewrite AddSiblingNode_with_EditBuffer.
    by destruct (AddSiblingNode ord (typed keys) m).
Qed.

Lemma typing_then_enter_witness :
  Forall (fun key => len key = 1) ["h"; "i"]%string
  ∧ ["h"; "i"]%string ≠ []
  ∧ EditBuffer creating_child = EmptyString
  ∧ IsCreatingNode creating_child = true
  ∧ handleKeys (handleEditMode ["0"]%string) ["h"; "i"; "enter"]%string
      creating_child
    = leaveEditMode <$> AddChildNode ["0"]%string "hi" creating_child.
Proof.
  assert (Forall (fun key => len key = 1) ["h"; "i"]%string) as Hkeys
    by (repeat constructor).
  split; [exact Hkeys|]. split; [done|]. split; [done|]. split; [done|].
  exact (typing_then_enter ["0"]%string ["h"; "i"]%string creating_child Hkeys
           ltac:(done) eq_refl eq_refl).
Defined.

(** X23. Editing: Enter in the edit mode of an existing node, with a buffer
    that is not empty, gives the selected node the text of the buffer and
    the size of that text. Its position, its colour and its links stay, and
    so do all other nodes and the edges. *)
Theorem handleEditMode_edits_node (ord : list string) (m : Model) (node : Node) :
  EditBuffer m ≠ EmptyString →
  IsCreatingNode m = false →
  GetSelectedNode m = Some node →
  ∃ m' node',
    handleEditMode ord "enter" m = Some m'
    ∧ Nodes m' = <[Selected m := node']> (Nodes m)
    ∧ Text node' = EditBuffer m
    ∧ (Width node', Height node') = calculateNodeSize (EditBuffer m)
    ∧ (ID node', X node', Y node', ParentID node', Color node', Links node')
      = (ID node, X node, Y node, ParentID node, Color node, Links node)
    ∧ Edges m' = Edges m ∧ Selected m' = Selected m ∧ NextID m' = NextID m
    ∧ mMode m' = ModeNormal ∧ EditBuffer m' = EmptyString.
Proof.
  intros Hbuffer Hediting Hsel. unfold handleEditMode.
  rewrite decide_False by done. rewrite decide_True by done.
  rewrite decide_True by done. rewrite Hediting, Hsel.
  cbn [mbind option_bind]. eexists _, (UpdateSize (Node_with_Text (EditBuffer m) node)).
  split; [reflexivity|].
  cbn [Nodes Edges Selected NextID mMode EditBuffer Model_with_IsCreatingChild
       Model_with_IsCreatingNode Model_with_EditBuffer Model_with_Mode
       Model_with_StatusMsg Model_with_Nodes].
  unfold GetSelectedNode in Hsel. case_decide; [|done].
  split.
  { apply map_eq. intros k. destruct (decide (k = Selected m)) as [->|Hk].
    - by rewrite lookup_alter_eq, lookup_insert_eq, Hsel.
    - by rewrite lookup_alter_ne, lookup_insert_ne. }
  split; [done|]. split; [|done]. unfold UpdateSize, Node_with_size.
  cbn [Width Height Text Node_with_Text].
  by destruct (calculateNodeSize (EditBuffer m)).
Qed.

Lemma handleEditMode_edits_node_witness :
  let m := Model_with_EditBuffer two_line_text NewModel in
  EditBuffer m ≠ EmptyString
  ∧ IsCreatingNode m = false
  ∧ GetSelectedNode m = Some (NewNode "0" "Root Idea" 0 0)
  ∧ ∃ m' node',
      handleEditMode ["0"]%string "enter" m = Some m'
      ∧ Nodes m' !! "0"%string = Some node'
      ∧ Text node' = two_line_text
      ∧ (Width node', Height node') = (16, 4).
Proof.
  intros m. assert (EditBuffer m ≠ EmptyString) as Hbuffer by done.
  split; [exact Hbuffer|]. split; [done|]. split; [done|].
  destruct (handleEditMode_edits_node ["0"]%string m
              (NewNode "0" "Root Idea" 0 0) Hbuffer eq_refl eq_refl)
    as (m' & node' & Henter & Hnodes & Htext & Hsize & _).
  exists m', node'. split; [exact Henter|].
  split; [rewrite Hnodes; apply lookup_insert_eq|]. split; [exact Htext|].
  exact Hsize.
Defined.

(** ** The link mode *)

Lemma selectNextNode_outcome ord m m' :
  selectNextNode ord m = Some m' → m' = m ∨ ∃ id, m' = selecting id m.
Proof.
  unfold selectNextNode. destruct (_ =? 0); [intros [= <-]; by left|].
  destruct (_ =? 0); [done|]. destruct (index _ _) as [id|]; [|done].
  intros [= <-]. right. by exists id.
Qed.

Lemma selectPrevNode_outcome ord m m' :
  selectPrevNode ord m = Some m' → m' = m ∨ ∃ id, m' = selecting id m.
Proof.
  unfold selectPrevNode. destruct (_ =? 0); [intros [= <-]; by left|].
  destruct (index _ _) as [id|]; [|done].
  intros [= <-]. right. by exists id.
Qed.

(** X24. The link mode adds at most one edge and no node: what a key leaves
    is the document with the same boxes and the same edges, and on Enter
    with a source and another node selected also the edge from the source
    to that node. An edge from a node to itself or with an empty end is
    never added. Escape and Enter lead back to the normal mode without a
    source; every other key stays in the mode. *)
Theorem handleLinkMode_links (ord : list string) (key : string) (m m' : Model) :
  handleLinkMode ord key m = Some m' →
  (∀ k, option_Forall2 same_box (Nodes m !! k) (Nodes m' !! k))
  ∧ (∀ edge, edge ∈ Edges m → edge ∈ Edges m')
  ∧ (∀ edge, edge ∈ Edges m' → edge ∉ Edges m →
       key = "enter"%string
       ∧ edge = mkEdge (LinkSourceID m) (Selected m)
       ∧ LinkSourceID m ≠ EmptyString ∧ Selected m ≠ EmptyString
       ∧ LinkSourceID m ≠ Selected m)
  ∧ (key = "enter"%string →
     LinkSourceID m ≠ EmptyString → Selected m ≠ EmptyString →
     LinkSourceID m ≠ Selected m →
     mkEdge (LinkSourceID m) (Selected m) ∈ Edges m')
  ∧ (key = "esc"%string ∨ key = "enter"%string →
     mMode m' = ModeNormal ∧ LinkSourceID m' = EmptyString)
  ∧ (key ≠ "esc"%string → key ≠ "enter"%string →
     mMode m' = mMode m ∧ LinkSourceID m' = LinkSourceID m).
Proof.
  assert (∀ k, option_Forall2 same_box (Nodes m !! k) (Nodes m !! k)) as Hrefl.
  { intros k. destruct (Nodes m !! k); constructor. apply same_box_refl. }
  assert (∀ m1, m1 = m ∨ (∃ id, m1 = selecting id m) →
            Nodes m1 = Nodes m ∧ Edges m1 = Edges m ∧ mMode m1 = mMode m
            ∧ LinkSourceID m1 = LinkSourceID m) as Hselect.
  { intros m1 [->|[id ->]]; done. }
  unfold handleLinkMode.
  destruct (decide (key = "esc"%string)) as [->|Hesc].
  { intros [= <-]. cbn. split; [done|]. split; [done|]. split; [done|].
    split; [done|]. split; [done|]. intros Hne. by destruct Hne. }
  destruct (decide (key = "tab"%string)) as [->|Htab].
  { intros (HN & HE & HM & HL)%selectNextNode_outcome%Hselect.
    rewrite HN, HE, HM, HL. split; [done|]. split; [done|]. split; [done|].
    split; [done|]. split; [|done]. by intros [?|?]. }
  destruct (decide (key = "shift+tab"%string)) as [->|Hshift].
  { intros (HN & HE & HM & HL)%selectPrevNode_outcome%Hselect.
    rewrite HN, HE, HM, HL. split; [done|]. split; [done|]. split; [done|].
    split; [done|]. split; [|done]. by intros [?|?]. }
  destruct (decide (key = "enter"%string)) as [->|Henter].
  - intros [= <-].
    cbn [Nodes Edges mMode LinkSourceID Model_with_LinkSourceID Model_with_Mode].
    destruct (decide _) as [(Hsel & Hsrc & Hne)|Hno].
    + rewrite AddEdge_Edges. split; [apply AddEdge_lookup|].
      split; [|split; [|split; [|done]]].
      * intros edge Hedge. case_decide; [done|]. apply elem_of_app. by left.
      * intros edge Hedge Hnew. case_decide; [done|].
        apply elem_of_app in Hedge as [?| ->%list_elem_of_singleton]; [done|].
        repeat (split; [done|]). by intros Heq.
      * intros _ _ _ _. case_decide; [done|].
        apply elem_of_app. right. by apply list_elem_of_singleton.
    + split; [done|]. split; [done|]. split; [done|]. split; [|done].
      intros _ Hsrc Hsel Hne. exfalso. apply Hno. repeat split; [done..|].
      by intros Heq.
  - intros [= <-]. split; [done|]. split; [done|]. split; [done|].
    split; [done|]. split; [|done]. by intros [?|?].
Qed.

Lemma handleLinkMode_links_witness :
  ∃ m',
    handleLinkMode ["0"; "1"]%string "enter" linking = Some m'
    ∧ Edges linking = [mkEdge "0" "1"]
    ∧ Edges m' = [mkEdge "0" "1"]
    ∧ mMode m' = ModeNormal.
Proof.
  destruct (handleLinkMode ["0"; "1"]%string "enter" linking) as [m'|] eqn:Hkey;
    [|by vm_compute in Hkey].
  destruct (handleLinkMode_links ["0"; "1"]%string "enter" linking m' Hkey)
    as (_ & _ & _ & _ & Hmode & _).
  exists m'. split; [done|]. split; [by vm_compute|].
  split; [|by apply Hmode; right].
  vm_compute in Hkey. injection Hkey as <-. reflexivity.
Defined.

(** * More on the edge rasterizer (renderer.go) *)

(** X25. The character of a segment does not depend on its direction:
    [getLineChar] gives the same rune for [(dx, dy)] and [(-dx, -dy)]. It is
    the middle dot exactly for the empty segment, and the horizontal or the
    vertical bar exactly when one extent is more than twice the other. *)
Theorem getLineChar_symmetric (dx dy : Z) :
  getLineChar (- dx) (- dy) = getLineChar dx dy
  ∧ (getLineChar dx dy = 183 ↔ dx = 0 ∧ dy = 0)
  ∧ (getLineChar dx dy = 9472 ↔ Z.abs dy * 2 < Z.abs dx)
  ∧ (getLineChar dx dy = 9474 ↔ Z.abs dx * 2 < Z.abs dy).
Proof.
  assert ((- dx =? 0) = (dx =? 0)) as Hx0
    by (destruct (Z.eqb_spec (- dx) 0), (Z.eqb_spec dx 0); lia).
  assert ((- dy =? 0) = (dy =? 0)) as Hy0
    by (destruct (Z.eqb_spec (- dy) 0), (Z.eqb_spec dy 0); lia).
  assert ((0 <? - dx) = (dx <? 0)) as Hx1
    by (destruct (Z.ltb_spec 0 (- dx)), (Z.ltb_spec dx 0); lia).
  assert ((- dx <? 0) = (0 <? dx)) as Hx2
    by (destruct (Z.ltb_spec (- dx) 0), (Z.ltb_spec 0 dx); lia).
  assert ((0 <? - dy) = (dy <? 0)) as Hy1
    by (destruct (Z.ltb_spec 0 (- dy)), (Z.ltb_spec dy 0); lia).
  assert ((- dy <? 0) = (0 <? dy)) as Hy2
    by (destruct (Z.ltb_spec (- dy) 0), (Z.ltb_spec 0 dy); lia).
  unfold getLineChar. rewrite !Z.abs_opp, Hx0, Hy0, Hx1, Hx2, Hy1, Hy2.
  split.
  { by rewrite (orb_comm (_ && _)), (andb_comm (dx <? 0)), (andb_comm (0 <? dx)),
      (andb_comm (dy <? 0) (0 <? dx)), (andb_comm (0 <? dy) (dx <? 0)). }
  destruct (Z.eqb_spec dx 0) as [Hdx|Hdx], (Z.eqb_spec dy 0) as [Hdy|Hdy];
    cbn [andb]; [split; [done|split; split; (done || lia)]|..];
    destruct (Z.ltb_spec (Z.abs dy * 2) (Z.abs dx)),
      (Z.ltb_spec (Z.abs dx * 2) (Z.abs dy)); try lia;
    destruct (_ || _);
    (split; [split; [done|lia]|split; split; (done || lia)]).
Qed.

(** ** The ends of a segment *)

Lemma first_writer_wins_length grid grid' :
  first_writer_wins grid grid' → length grid' = length grid.
Proof.
  intros (Hrows & _ & _).
  destruct (Nat.lt_trichotomy (length grid) (length grid')) as [Hlt|[Heq|Hgt]];
    [|done|].
  - specialize (Hrows (length grid)).
    rewrite (lookup_ge_None_2 grid) in Hrows by lia.
    destruct (lookup_lt_is_Some_2 grid' (length grid) Hlt) as [row Hrow].
    by rewrite Hrow in Hrows.
  - specialize (Hrows (length grid')).
    rewrite (lookup_ge_None_2 grid') in Hrows by lia.
    destruct (lookup_lt_is_Some_2 grid (length grid') Hgt) as [row Hrow].
    by rewrite Hrow in Hrows.
Qed.

Lemma first_writer_wins_inside w grid grid' x y :
  first_writer_wins grid grid' → inside w grid x y → inside w grid' x y.
Proof.
  intros Hwins Hin. unfold inside.
  by rewrite (first_writer_wins_length grid grid' Hwins).
Qed.

Lemma first_writer_wins_painted grid grid' x y :
  first_writer_wins grid grid' → painted grid x y → painted grid' x y.
Proof.
  intros (_ & Hkeep & _) (cell & Hcell & Hchar). exists cell.
  split; [by apply Hkeep|done].
Qed.

Lemma grid_width_rectangular w grid :
  rectangular w grid → grid ≠ [] → grid_width grid = Z.of_nat w.
Proof.
  intros Hrect Hgrid. destruct grid as [|row grid]; [done|].
  cbn. by rewrite (Forall_inv Hrect).
Qed.

Lemma plot_paints w grid x y dx dy color grid' :
  rectangular w grid → inside w grid x y →
  plot grid x y dx dy color = Some grid' → painted grid' x y.
Proof.
  intros Hrect [Hy Hx]. unfold plot.
  rewrite (grid_width_rectangular w grid Hrect)
    by (intros ->; cbn in Hy; lia).
  assert ((0 <=? y) && (y <? Z.of_nat (length grid)) && (0 <=? x)
          && (x <? Z.of_nat w) = true) as ->.
  { rewrite !andb_true_iff, !Z.leb_le, !Z.ltb_lt. lia. }
  assert (is_Some (cell_at grid (Z.to_nat y) (Z.to_nat x))) as [cell Hcell].
  { apply cell_at_Some.
    destruct (lookup_lt_is_Some_2 grid (Z.to_nat y)) as [row Hrow]; [lia|].
    exists row. split; [done|].
    eapply Forall_lookup_1 in Hrect; [|exact Hrow]. lia. }
  rewrite Hcell. cbn [mbind option_bind].
  destruct (Z.eqb_spec (Char cell) blank) as [Hblank|Hpainted].
  - intros [= <-]. eexists. split; [by apply cell_at_set_cell_eq|].
    apply getLineChar_not_blank.
  - intros [= <-]. by exists cell.
Qed.

(** The loop ends on a grid where the target is painted, once the position
    it starts from is painted when it is the target. *)
Lemma bresenhamLoop_paints_target w x2 y2 dx dy absDx absDy sx sy color fuel :
  ∀ grid st grid',
    rectangular w grid →
    inside w grid x2 y2 →
    (Nat.iter fuel (bresenhamStep absDx absDy sx sy) st).1 = (x2, y2) →
    (st.1 = (x2, y2) → painted grid x2 y2) →
    bresenhamLoop fuel grid st x2 y2 dx dy absDx absDy sx sy color = Some grid' →
    painted grid' x2 y2.
Proof.
  induction fuel as [|fuel IH]; intros grid [[x1 y1] err] grid' Hrect Hin Hreach
    Hstart; cbn [bresenhamLoop].
  - intros [= <-]. by apply Hstart.
  - destruct ((x1 =? x2) && (y1 =? y2)) eqn:Hthere.
    + intros [= <-]. apply Hstart. apply andb_prop in Hthere as [Hx Hy].
      apply Z.eqb_eq in Hx, Hy. cbn. by subst.
    + rewrite Nat.iter_succ_r in Hreach.
      destruct (bresenhamStep absDx absDy sx sy (x1, y1, err))
        as [[x1' y1'] err'] eqn:Hstep.
      destruct (plot grid x1' y1' dx dy color) as [grid1|] eqn:Hplot; [|done].
      cbn [mbind option_bind].
      destruct (plot_first_writer_wins w grid x1' y1' dx dy color Hrect)
        as (grid1' & Hplot' & Hwins).
      rewrite Hplot in Hplot'. injection Hplot' as <-.
      apply (IH grid1 (x1', y1', err')).
      * by apply (first_writer_wins_rectangular w grid).
      * by apply (first_writer_wins_inside w grid).
      * exact Hreach.
      * cbn [fst]. intros [= -> ->]. by apply (plot_paints w grid _ _ dx dy color).
Qed.

Lemma drawLineSegment_ends (w : nat) (grid : Grid) (x1 y1 x2 y2 : Z)
    (color : string) :
  rectangular w grid →
  ∃ grid',
    drawLineSegment grid x1 y1 x2 y2 color = Some grid'
    ∧ first_writer_wins grid grid'
    ∧ (inside w grid x1 y1 → painted grid' x1 y1)
    ∧ (inside w grid x2 y2 → painted grid' x2 y2).
Proof.
  intros Hrect.
  destruct (drawLineSegment_first_writer_wins w grid x1 y1 x2 y2 color Hrect)
    as (grid' & Hdraw & Hwins).
  exists grid'. split; [exact Hdraw|]. split; [exact Hwins|].
  unfold drawLineSegment in Hdraw.
  destruct (plot_first_writer_wins w grid x1 y1 (x2 - x1) (y2 - y1) color Hrect)
    as (grid1 & Hplot & Hwins1).
  rewrite Hplot in Hdraw. cbn [mbind option_bind] in Hdraw.
  pose proof (first_writer_wins_rectangular w grid grid1 Hwins1 Hrect) as Hrect1.
  destruct ((x1 =? x2) && (y1 =? y2)) eqn:Hsame.
  - injection Hdraw as <-. apply andb_prop in Hsame as [Hx Hy].
    apply Z.eqb_eq in Hx, Hy. subst x2 y2.
    split; intros Hin; by apply (plot_paints w grid _ _ (x1 - x1) (y1 - y1) color).
  - split; intros Hin.
    + destruct (bresenhamLoop_first_writer_wins w
                  (Z.to_nat (Z.max (Z.abs (x2 - x1)) (Z.abs (y2 - y1))))
                  x2 y2 (x2 - x1) (y2 - y1) (Z.abs (x2 - x1)) (Z.abs (y2 - y1))
                  (if x1 <? x2 then 1 else -1) (if y1 <? y2 then 1 else -1) color
                  grid1 (x1, y1, Z.abs (x2 - x1) - Z.abs (y2 - y1)) Hrect1)
        as (grid2 & Hloop & Hwins2).
      rewrite Hloop in Hdraw. injection Hdraw as <-.
      apply (first_writer_wins_painted grid1); [done|].
      by apply (plot_paints w grid _ _ (x2 - x1) (y2 - y1) color).
    + eapply (bresenhamLoop_paints_target w); [exact Hrect1| | | |exact Hdraw].
      * by apply (first_writer_wins_inside w grid).
      * destruct (bresenham_reaches x1 y1 x2 y2) as [err Hreach].
        unfold bresenhamAfter in Hreach. by rewrite Hreach.
      * cbn [fst]. intros [= -> ->].
        by rewrite !Z.eqb_refl in Hsame.
Qed.

(** X26. [drawLineSegment] leaves both of its ends painted, as far as they
    are on the grid: the loop does reach the end point. *)
Theorem drawLineSegment_paints_ends (w : nat) (grid : Grid) (x1 y1 x2 y2 : Z)
    (color : string) :
  rectangular w grid →
  ∃ grid',
    drawLineSegment grid x1 y1 x2 y2 color = Some grid'
    ∧ first_writer_wins grid grid'
    ∧ (inside w grid x1 y1 → painted grid' x1 y1)
    ∧ (inside w grid x2 y2 → painted grid' x2 y2).
Proof. apply drawLineSegment_ends. Qed.

Lemma drawLineSegment_paints_ends_witness :
  rectangular 4 sample_grid
  ∧ inside 4 sample_grid 0 0 ∧ inside 4 sample_grid 3 1
  ∧ ∃ grid',
      drawLineSegment sample_grid 0 0 3 1 "#4ECDC4" = Some grid'
      ∧ painted grid' 0 0 ∧ painted grid' 3 1.
Proof.
  assert (rectangular 4 sample_grid) as Hrect by (repeat constructor).
  assert (inside 4 sample_grid 0 0) as Hstart by (by vm_compute).
  assert (inside 4 sample_grid 3 1) as Hend by (by vm_compute).
  split; [exact Hrect|]. split; [exact Hstart|]. split; [exact Hend|].
  destruct (drawLineSegment_paints_ends 4 sample_grid 0 0 3 1 "#4ECDC4" Hrect)
    as (grid' & Hdraw & _ & Hfirst & Hlast).
  exists grid'. split; [exact Hdraw|]. split; [by apply Hfirst|by apply Hlast].
Defined.

Section RendererEnds.

Variable math_Sqrt : float64 → float64.

(** Every sample of the curve is the end of a segment, and is painted. *)
Lemma drawSamples_paints w point color samples :
  ∀ grid prev,
    rectangular w grid →
    ∃ grid',
      drawSamples samples grid prev point color = Some grid'
      ∧ first_writer_wins grid grid'
      ∧ ∀ i, i ∈ samples →
          inside w grid (point i).1 (point i).2 →
          painted grid' (point i).1 (point i).2.
Proof.
  induction samples as [|i samples IH]; intros grid prev Hrect;
    cbn [drawSamples].
  - exists grid. split; [done|]. split; [apply first_writer_wins_refl|].
    by intros i Hi%elem_of_nil.
  - destruct (point i) as [curX curY] eqn:Hpoint.
    destruct (drawLineSegment_ends w grid prev.1 prev.2 curX curY color
                Hrect) as (grid1 & -> & Hwins1 & _ & Hend).
    cbn [mbind option_bind].
    pose proof (first_writer_wins_rectangular w grid grid1 Hwins1 Hrect) as Hrect1.
    destruct (IH grid1 (curX, curY) Hrect1) as (grid2 & -> & Hwins2 & Hrest).
    exists grid2. split; [done|].
    split; [by apply (first_writer_wins_trans grid grid1)|].
    intros j [->|Hj]%elem_of_cons Hin.
    + rewrite Hpoint in *. cbn [fst snd] in *.
      apply (first_writer_wins_painted grid1); [done|]. by apply Hend.
    + apply Hrest; [done|]. by apply (first_writer_wins_inside w grid).
Qed.

Lemma bezierPoint_ends x1 y1 x2 y2 cp1x cp1y cp2x cp2y steps :
  0 < steps →
  bezierPoint x1 y1 x2 y2 cp1x cp1y cp2x cp2y steps 0 = (x1, y1)
  ∧ bezierPoint x1 y1 x2 y2 cp1x cp1y cp2x cp2y steps steps = (x2, y2).
Proof.
  intros Hsteps. unfold bezierPoint.
  assert (¬ (inject_Z steps == 0)%Q) as Hnonzero.
  { change 0%Q with (inject_Z 0). rewrite inject_Z_injective. lia. }
  split; f_equal; apply math_Round_integer.
  - change (inject_Z 0) with 0%Q. by field.
  - change (inject_Z 0) with 0%Q. by field.
  - by field.
  - by field.
Qed.

(** X27. The curve of [drawLine] starts and ends where it is asked to: the
    first and the last sample of the Bezier curve are the two end points,
    and both are painted afterwards, as far as they are on the grid. *)
Theorem drawLine_paints_ends (w : nat) (grid : Grid) (x1 y1 x2 y2 : Z)
    (color : string) :
  rectangular w grid →
  ∃ grid',
    drawLine math_Sqrt grid x1 y1 x2 y2 color = Some grid'
    ∧ (inside w grid x1 y1 → painted grid' x1 y1)
    ∧ (inside w grid x2 y2 → painted grid' x2 y2).
Proof.
  intros Hrect. unfold drawLine.
  set (steps0 := int_of_float _).
  set (steps := if steps0 <? 10 then 10 else steps0).
  assert (10 <= steps) as Hsteps
    by (subst steps; destruct (Z.ltb_spec steps0 10); lia).
  set (point := bezierPoint _ _ _ _ _ _ _ _ steps).
  destruct (drawSamples_paints w point color
              (Z.of_nat <$> seq 0 (Z.to_nat (steps + 1))) grid (x1, y1) Hrect)
    as (grid' & Hdraw & _ & Hpainted).
  exists grid'. split; [exact Hdraw|].
  assert (∀ i, 0 <= i <= steps → i ∈ Z.of_nat <$> seq 0 (Z.to_nat (steps + 1)))
    as Hsample.
  { intros i Hi. apply list_elem_of_fmap. exists (Z.to_nat i).
    split; [lia|]. apply elem_of_seq. lia. }
  assert (point 0 = (x1, y1) ∧ point steps = (x2, y2)) as [Hfirst Hlast]
    by (subst point; apply bezierPoint_ends; lia).
  split; intros Hin.
  - specialize (Hpainted 0 (Hsample 0 ltac:(lia))).
    rewrite Hfirst in Hpainted. by apply Hpainted.
  - specialize (Hpainted steps (Hsample steps ltac:(lia))).
    rewrite Hlast in Hpainted. by apply Hpainted.
Qed.

(** X28. [drawEdges] skips the edges with an end that is not in the
    document: it draws the edges that connect two nodes, in their order, and
    leaves the grid as it is when there is none. *)
Theorem drawEdges_skips_dangling (m : Model) (grid : Grid) :
  drawEdges math_Sqrt m grid
  = drawEdgeList math_Sqrt m (filter (fun edge => connects m edge = true) (Edges m))
      grid
  ∧ (Forall (fun edge => connects m edge = false) (Edges m) →
     drawEdges math_Sqrt m grid = Some grid).
Proof.
  unfold drawEdges.
  assert (∀ edges grid0,
            drawEdgeList math_Sqrt m edges grid0
            = drawEdgeList math_Sqrt m
                (filter (fun edge => connects m edge = true) edges) grid0)
    as Hfilter.
  { induction edges as [|edge edges IH]; intros grid0; [done|].
    rewrite filter_cons. destruct (connects m edge) eqn:Hconnects.
    - rewrite decide_True by done. cbn [drawEdgeList].
      destruct (match Nodes m !! FromID edge with
                | Some fromNode =>
                    match Nodes m !! ToID edge with
                    | Some toNode => drawEdge math_Sqrt m grid0 fromNode toNode
                    | None => Some grid0
                    end
                | None => Some grid0
                end) as [grid1|]; [|done].
      cbn [mbind option_bind]. apply IH.
    - rewrite decide_False by done. cbn [drawEdgeList].
      unfold connects in Hconnects. apply bool_decide_eq_false in Hconnects.
      destruct (Nodes m !! FromID edge) as [fromNode|];
        [destruct (Nodes m !! ToID edge) as [toNode|]|].
      + exfalso. apply Hconnects. split; by eexists.
      + cbn [mbind option_bind]. apply IH.
      + cbn [mbind option_bind]. apply IH. }
  split; [apply Hfilter|].
  intros Hdangling. rewrite Hfilter.
  assert (filter (fun edge => connects m edge = true) (Edges m) = []) as ->; [|done].
  induction Hdangling as [|edge edges Hedge _ IH]; [done|].
  rewrite filter_cons, decide_False by (by rewrite Hedge). exact IH.
Qed.

End RendererEnds.

Lemma drawLine_paints_ends_witness :
  rectangular 4 sample_grid
  ∧ inside 4 sample_grid 0 0 ∧ inside 4 sample_grid 3 1
  ∧ ∃ grid',
      drawLine sqrt_floor sample_grid 0 0 3 1 "#4ECDC4" = Some grid'
      ∧ painted grid' 0 0 ∧ painted grid' 3 1.
Proof.
  assert (rectangular 4 sample_grid) as Hrect by (repeat constructor).
  assert (inside 4 sample_grid 0 0) as Hstart by (by vm_compute).
  assert (inside 4 sample_grid 3 1) as Hend by (by vm_compute).
  split; [exact Hrect|]. split; [exact Hstart|]. split; [exact Hend|].
  destruct (drawLine_paints_ends sqrt_floor 4 sample_grid 0 0 3 1 "#4ECDC4" Hrect)
    as (grid' & Hdraw & Hfirst & Hlast).
  exists grid'. split; [exact Hdraw|]. split; [by apply Hfirst|by apply Hlast].
Defined.

(** ** Where a segment writes *)

(** The positions of the Bresenham loop stay in the rectangle spanned by the
    two end points. *)
Lemma bresenham_in_box x1 y1 x2 y2 (k : nat) :
  (k ≤ Z.to_nat (Z.max (Z.abs (x2 - x1)) (Z.abs (y2 - y1))))%nat →
  in_bounding_box x1 y1 x2 y2
    (bresenhamAfter k x1 y1 x2 y2).1.1 (bresenhamAfter k x1 y1 x2 y2).1.2.
Proof.
  unfold bresenhamAfter, in_bounding_box.
  set (a := Z.abs (x2 - x1)). set (b := Z.abs (y2 - y1)).
  set (sx := if x1 <? x2 then 1 else -1). set (sy := if y1 <? y2 then 1 else -1).
  assert (sx * a = x2 - x1 ∧ (sx = 1 ∨ sx = -1)) as [Hsx Hsx1]
    by (subst sx a; destruct (Z.ltb_spec x1 x2); lia).
  assert (sy * b = y2 - y1 ∧ (sy = 1 ∨ sy = -1)) as [Hsy Hsy1]
    by (subst sy b; destruct (Z.ltb_spec y1 y2); lia).
  assert (0 <= a ∧ 0 <= b) as [Ha Hb] by (subst a b; lia).
  intros Hk. destruct (Z_le_gt_dec b a) as [Hwide|Hhigh].
  - rewrite Z.max_l in Hk by done.
    destruct (decide (0 < a)) as [Hpos|Hzero].
    2:{ assert (k = 0%nat) as -> by lia. cbn. lia. }
    assert (∀ k : nat, ∃ j,
              Nat.iter k (bresenhamStep a b sx sy) (x1, y1, a - b)
              = (x1 + sx * Z.of_nat k, y1 + sy * j, a - b - Z.of_nat k * b + j * a)
              ∧ 2 * b * Z.of_nat k - a <= 2 * a * j < 2 * b * Z.of_nat k + a)
      as Hinv.
    { clear k Hk. induction k as [|k (j & IH & Hj)].
      - exists 0. split; [cbn; f_equal; [f_equal|]; ring|lia].
      - destruct (bresenhamStep_wide a b sx sy x1 y1 (Z.of_nat k) j)
          as (j' & Hstep & Hj'); [lia..|].
        exists j'. rewrite Nat.iter_succ, IH, Hstep.
        split; [f_equal; [f_equal|]; lia|lia]. }
    destruct (Hinv k) as (j & -> & Hj). cbn [fst snd].
    assert (0 <= j <= b) as Hjb by nia.
    assert (0 <= Z.of_nat k <= a) as Hka by lia.
    destruct Hsx1 as [-> | ->], Hsy1 as [-> | ->]; lia.
  - rewrite Z.max_r in Hk by lia.
    assert (∀ k : nat, ∃ i,
              Nat.iter k (bresenhamStep a b sx sy) (x1, y1, a - b)
              = (x1 + sx * i, y1 + sy * Z.of_nat k, a - b - i * b + Z.of_nat k * a)
              ∧ 2 * a * Z.of_nat k - b <= 2 * b * i < 2 * a * Z.of_nat k + b)
      as Hinv.
    { clear k Hk. induction k as [|k (i & IH & Hi)].
      - exists 0. split; [cbn; f_equal; [f_equal|]; ring|lia].
      - destruct (bresenhamStep_high a b sx sy x1 y1 (Z.of_nat k) i)
          as (i' & Hstep & Hi'); [lia..|].
        exists i'. rewrite Nat.iter_succ, IH, Hstep.
        split; [f_equal; [f_equal|]; lia|lia]. }
    destruct (Hinv k) as (i & -> & Hi). cbn [fst snd].
    assert (0 <= i <= a) as Hia by nia.
    assert (0 <= Z.of_nat k <= b) as Hkb by lia.
    destruct Hsx1 as [-> | ->], Hsy1 as [-> | ->]; lia.
Qed.

Lemma plot_changes grid x y dx dy color grid' (r c : nat) :
  plot grid x y dx dy color = Some grid' →
  cell_at grid' r c ≠ cell_at grid r c →
  Z.of_nat c = x ∧ Z.of_nat r = y.
Proof.
  unfold plot. destruct (_ && _) eqn:Hin; [|by intros [= <-]].
  apply andb_prop in Hin as [Hin Hx2]. apply andb_prop in Hin as [Hin Hx1].
  apply andb_prop in Hin as [Hy1 Hy2]. apply Z.leb_le in Hy1, Hx1.
  destruct (cell_at grid _ _) as [cell|]; [|done]. cbn [mbind option_bind].
  destruct (Char cell =? blank); [|by intros [= <-]].
  intros [= <-] Hchanged.
  destruct (decide ((Z.to_nat y, Z.to_nat x) = (r, c))) as [[= <- <-]|Hpos];
    [lia|].
  by rewrite cell_at_set_cell_ne in Hchanged.
Qed.

Lemma bresenhamLoop_changes x2 y2 dx dy absDx absDy sx sy color (r c : nat) fuel :
  ∀ grid st grid',
    bresenhamLoop fuel grid st x2 y2 dx dy absDx absDy sx sy color = Some grid' →
    cell_at grid' r c ≠ cell_at grid r c →
    ∃ k : nat,
      (k ≤ fuel)%nat
      ∧ (Nat.iter k (bresenhamStep absDx absDy sx sy) st).1
        = (Z.of_nat c, Z.of_nat r).
Proof.
  induction fuel as [|fuel IH]; intros grid [[x1 y1] err] grid';
    cbn [bresenhamLoop]; [by intros [= <-]|].
  destruct (_ && _); [by intros [= <-]|].
  destruct (bresenhamStep absDx absDy sx sy (x1, y1, err))
    as [[x1' y1'] err'] eqn:Hstep.
  destruct (plot grid x1' y1' dx dy color) as [grid1|] eqn:Hplot; [|done].
  cbn [mbind option_bind]. intros Hloop Hchanged.
  destruct (decide (cell_at grid' r c = cell_at grid1 r c)) as [Hsame|Hlater].
  - rewrite Hsame in Hchanged.
    destruct (plot_changes grid x1' y1' dx dy color grid1 r c Hplot Hchanged)
      as [<- <-].
    exists 1%nat. split; [lia|]. cbn [Nat.iter nat_rect]. by rewrite Hstep.
  - destruct (IH grid1 (x1', y1', err') grid' Hloop Hlater) as (k & Hk & Hpos).
    exists (S k). split; [lia|]. by rewrite Nat.iter_succ_r, Hstep.
Qed.

(** X29. [drawLineSegment] writes only in the rectangle spanned by its two
    end points: a cell that differs afterwards lies between them, in its
    column and in its row. *)
Theorem drawLineSegment_in_bounding_box (grid grid' : Grid) (x1 y1 x2 y2 : Z)
    (color : string) (r c : nat) :
  drawLineSegment grid x1 y1 x2 y2 color = Some grid' →
  cell_at grid' r c ≠ cell_at grid r c →
  in_bounding_box x1 y1 x2 y2 (Z.of_nat c) (Z.of_nat r).
Proof.
  unfold drawLineSegment.
  destruct (plot grid x1 y1 (x2 - x1) (y2 - y1) color) as [grid1|] eqn:Hplot;
    [|done].
  cbn [mbind option_bind]. intros Hdraw Hchanged.
  assert (in_bounding_box x1 y1 x2 y2 x1 y1) as Hstart
    by (unfold in_bounding_box; lia).
  destruct (decide (cell_at grid' r c = cell_at grid1 r c)) as [Hsame|Hlater].
  - rewrite Hsame in Hchanged.
    by destruct (plot_changes grid x1 y1 _ _ color grid1 r c Hplot Hchanged)
      as [<- <-].
  - destruct (_ && _); [by injection Hdraw as <-|].
    destruct (bresenhamLoop_changes _ _ _ _ _ _ _ _ color r c _ _ _ _ Hdraw Hlater)
      as (k & Hk & Hpos).
    pose proof (bresenham_in_box x1 y1 x2 y2 k Hk) as Hbox.
    unfold bresenhamAfter in Hbox. by rewrite Hpos in Hbox.
Qed.

Lemma drawLineSegment_in_bounding_box_witness :
  ∃ grid',
    drawLineSegment sample_grid 0 0 3 1 "#4ECDC4" = Some grid'
    ∧ cell_at grid' 1 3 ≠ cell_at sample_grid 1 3
    ∧ in_bounding_box 0 0 3 1 3 1.
Proof.
  destruct (drawLineSegment sample_grid 0 0 3 1 "#4ECDC4") as [grid'|] eqn:Hdraw;
    [|by vm_compute in Hdraw].
  assert (cell_at grid' 1 3 ≠ cell_at sample_grid 1 3) as Hchanged.
  { vm_compute in Hdraw. injection Hdraw as <-. by vm_compute. }
  exists grid'. split; [done|]. split; [exact Hchanged|].
  exact (drawLineSegment_in_bounding_box sample_grid grid' 0 0 3 1 "#4ECDC4" 1 3
           Hdraw Hchanged).
Defined.
(** * More on the layout: pushing nodes down *)

Local Open Scope Q_scope.


Lemma round_comp x y : x == y → F64.round x == F64.round y.
Proof.
  intros Hxy. apply Qle_antisym; apply round_mono; lra.
Qed.

Lemma add_integers i j :
  (Z.abs i <= 2 ^ 52)%Z → (Z.abs j <= 2 ^ 52)%Z →
  F64.add (inject_Z i) (inject_Z j) == inject_Z i + inject_Z j.
Proof.
  intros Hi Hj. unfold F64.add. rewrite <- inject_Z_plus.
  apply round_integer. lia.
Qed.

Lemma pushDown64_fields thresholdY amount node :
  (X (Model64.pushDown thresholdY amount node),
   Width (Model64.pushDown thresholdY amount node),
   Height (Model64.pushDown thresholdY amount node))
  = (X node, Width node, Height node).
Proof. unfold Model64.pushDown. by destruct (Qlt_le_dec _ _). Qed.

Lemma pushDown64_Y thresholdY amount node :
  (thresholdY <= Y node →
   Y (Model64.pushDown thresholdY amount node) = F64.add (Y node) amount)
  ∧ (Y node < thresholdY → Y (Model64.pushDown thresholdY amount node) = Y node).
Proof.
  unfold Model64.pushDown.
  destruct (Qlt_le_dec _ _) as [Hlow|Hhigh]; split; intros H; try done.
  - exfalso. by apply (Qlt_not_le _ _ Hlow).
  - exfalso. by apply (Qlt_not_le _ _ H).
Qed.

(** X30. [pushDownNodesBelow], with the rounding of its addition and an
    amount that is not negative, keeps every box's column and size and keeps
    the vertical order of two nodes (the position of the lower one being a
    value of the format). When the positions and the amount are integers of
    magnitude [2^52] at most, as in every document made from [NewModel], the
    additions are exact: two nodes on the same side of the threshold keep
    their distance, two nodes on different sides move apart by the amount,
    and two boxes of which one ends above the start of the other still do
    so. *)
Theorem pushDownNodesBelow_keeps_order (thresholdY amount : float64) (m : Model)
    (k k' : string) (n n' : Node) :
  0 <= amount →
  Nodes m !! k = Some n →
  Nodes m !! k' = Some n' →
  Y n <= Y n' →
  is_float64 (Y n') →
  ∃ p p',
    Nodes (Model64.pushDownNodesBelow thresholdY amount m) !! k = Some p
    ∧ Nodes (Model64.pushDownNodesBelow thresholdY amount m) !! k' = Some p'
    ∧ (X p, Width p, Height p) = (X n, Width n, Height n)
    ∧ (X p', Width p', Height p') = (X n', Width n', Height n')
    ∧ Y p <= Y p'
    ∧ ∀ i i' a : Z,
        Y n == inject_Z i → Y n' == inject_Z i' → amount == inject_Z a →
        (Z.abs i <= 2 ^ 52)%Z → (Z.abs i' <= 2 ^ 52)%Z → (a <= 2 ^ 52)%Z →
        ((Y n' < thresholdY ∨ thresholdY <= Y n) → Y p' - Y p == Y n' - Y n)
        ∧ ((Y n < thresholdY ∧ thresholdY <= Y n') →
             Y p' - Y p == Y n' - Y n + amount)
        ∧ (bottom n <= Y n' → bottom p <= Y p').
Proof.
  intros Hamount Hn Hn' Horder Hfloat.
  exists (Model64.pushDown thresholdY amount n),
    (Model64.pushDown thresholdY amount n').
  unfold Model64.pushDownNodesBelow. cbn [Nodes Model_with_Nodes].
  rewrite !lookup_fmap, Hn, Hn'. split; [done|]. split; [done|].
  split; [apply pushDown64_fields|]. split; [apply pushDown64_fields|].
  pose proof (pushDown64_fields thresholdY amount n) as Hf.
  injection Hf as _ _ HH.
  destruct (pushDown64_Y thresholdY amount n) as [Hpushed Hkept].
  destruct (pushDown64_Y thresholdY amount n') as [Hpushed' Hkept'].
  assert (Y n' <= F64.add (Y n') amount) as Hup.
  { unfold is_float64 in Hfloat. rewrite <- Hfloat at 1.
    apply round_mono. lra. }
  split.
  - destruct (Qlt_le_dec (Y n) thresholdY) as [Hlow|Hhigh],
      (Qlt_le_dec (Y n') thresholdY) as [Hlow'|Hhigh'].
    + by rewrite (Hkept Hlow), (Hkept' Hlow').
    + rewrite (Hkept Hlow), (Hpushed' Hhigh'). lra.
    + exfalso. apply (Qlt_not_le _ _ Hlow'). lra.
    + rewrite (Hpushed Hhigh), (Hpushed' Hhigh'). apply round_mono. lra.
  - intros i i' a Hi Hi' Ha Hbi Hbi' Hba.
    assert (0 <= a)%Z as Ha0
      by (rewrite Zle_Qle; change (inject_Z 0) with 0; lra).
    assert (F64.add (Y n) amount == Y n + amount) as Hexact.
    { unfold F64.add. rewrite (round_comp _ (inject_Z i + inject_Z a)) by lra.
      rewrite Hi, Ha. apply add_integers; lia. }
    assert (F64.add (Y n') amount == Y n' + amount) as Hexact'.
    { unfold F64.add. rewrite (round_comp _ (inject_Z i' + inject_Z a)) by lra.
      rewrite Hi', Ha. apply add_integers; lia. }
    unfold bottom. rewrite HH.
    destruct (Qlt_le_dec (Y n) thresholdY) as [Hlow|Hhigh],
      (Qlt_le_dec (Y n') thresholdY) as [Hlow'|Hhigh'].
    + rewrite (Hkept Hlow), (Hkept' Hlow').
      split; [intros _; ring|]. split; [|done].
      intros [_ Hle]. exfalso. by apply (Qlt_not_le _ _ Hlow').
    + rewrite (Hkept Hlow), (Hpushed' Hhigh'), Hexact'.
      split; [|split; [intros _; ring|lra]].
      intros [Hlt|Hle]; exfalso.
      * by apply (Qlt_not_le _ _ Hlt).
      * by apply (Qlt_not_le _ _ Hlow).
    + exfalso. apply (Qlt_not_le _ _ Hlow'). lra.
    + rewrite (Hpushed Hhigh), (Hpushed' Hhigh'), Hexact, Hexact'.
      split; [intros _; ring|]. split; [|lra].
      intros [Hlt _]. exfalso. by apply (Qlt_not_le _ _ Hlt).
Qed.

Lemma pushDownNodesBelow_keeps_order_witness :
  let m := default NewModel two_children_doc in
  ∃ n n' p p',
    0 <= 6
    ∧ Nodes m !! "1"%string = Some n ∧ Nodes m !! "2"%string = Some n'
    ∧ Y n <= Y n'
    ∧ is_float64 (Y n')
    ∧ Nodes (Model64.pushDownNodesBelow 3 6 m) !! "1"%string = Some p
    ∧ Nodes (Model64.pushDownNodesBelow 3 6 m) !! "2"%string = Some p'
    ∧ Y p <= Y p'
    ∧ Y p' - Y p == Y n' - Y n + 6.
Proof.
  intros m.
  destruct (Nodes m !! "1"%string) as [n|] eqn:Hn; [|by vm_compute in Hn].
  destruct (Nodes m !! "2"%string) as [n'|] eqn:Hn'; [|by vm_compute in Hn'].
  assert (Y n == inject_Z 0 ∧ Y n' == inject_Z 6 ∧ is_float64 (Y n'))
    as (HY & HY' & Hfloat).
  { vm_compute in Hn, Hn'. injection Hn as <-. injection Hn' as <-.
    repeat split; by vm_compute. }
  assert (0 <= 6) as Hamount by (by vm_compute).
  assert (Y n <= Y n') as Horder
    by (rewrite HY, HY'; by vm_compute).
  destruct (pushDownNodesBelow_keeps_order 3 6 m "1" "2" n n' Hamount Hn Hn'
              Horder Hfloat)
    as (p & p' & Hp & Hp' & _ & _ & Hle & Hexact).
  destruct (Hexact 0%Z 6%Z 6%Z HY HY' ltac:(reflexivity) ltac:(by vm_compute)
              ltac:(by vm_compute) ltac:(by vm_compute)) as (_ & Hapart & _).
  exists n, n', p, p'. split; [exact Hamount|]. split; [done|]. split; [done|].
  split; [exact Horder|]. split; [exact Hfloat|]. split; [exact Hp|].
  split; [exact Hp'|]. split; [exact Hle|]. apply Hapart.
  rewrite HY, HY'. split; by vm_compute.
Defined.

(** Positions that are not integers: the values of the format next to 0.7
    and 3.7 are more than 3 apart, and less than 3 apart after both were
    pushed down by 6. *)
Example pushDown_rounds :
  let y := F64.round (7 # 10) in
  let y' := F64.round (37 # 10) in
  3 < y' - y ∧ F64.add y' 6 - F64.add y 6 < 3.
Proof. split; by vm_compute. Qed.

Local Close Scope Q_scope.
